(** * Session-activity inference engine of claude-code-ui

    A shallow embedding of the daemon's status derivation
    (packages/daemon/src/status-machine.ts, status.ts) and of the
    orchestration around it (watcher.ts), with the properties the
    specification states about them; then of what surrounds them - the
    debounce timers of the watcher, the CI status and polling of github.ts,
    the pending tool of server.ts, the columns of RepoSection.tsx, the
    filters of cli.ts and the signal files of the hooks - with properties
    read off the code. *)

From Stdlib Require Import ZArith String Ascii List Bool Lia.
From Stdlib Require Import Strings.Byte.
From stdpp Require Import base option strings gmap fin_maps.
Import ListNotations.
Local Open Scope string_scope.
Local Open Scope list_scope.
Local Open Scope Z_scope.

(** ** Log records *)

Module Log.

(** Modelled from the spec: types.ts is not among the sources; these are the
    record shapes of section 3 (LogRecord), restricted to the fields that
    status-machine.ts and watcher.ts read: [type], [timestamp],
    [message.content], [subtype], and per block [type], [id], [name],
    [tool_use_id]. *)
Inductive ContentBlock : Type :=
| TextBlock (text : string)
| ToolUseBlock (id : string) (name : string)
| ToolResultBlock (tool_use_id : string)
| OtherBlock.

Inductive UserContent : Type :=
| ContentString (text : string)
| ContentBlocks (blocks : list ContentBlock).

Inductive LogEntry : Type :=
| UserEntry (timestamp : string) (content : UserContent)
| AssistantEntry (timestamp : string) (content : list ContentBlock)
| SystemEntry (timestamp : string) (subtype : string)
| OtherEntry.

(** [b.type === "tool_result"], [b.type === "text"], [b.type === "tool_use"]. *)
Definition is_tool_result (b : ContentBlock) : bool :=
  match b with ToolResultBlock _ => true | _ => false end.

Definition is_text (b : ContentBlock) : bool :=
  match b with TextBlock _ => true | _ => false end.

Definition is_tool_use (b : ContentBlock) : bool :=
  match b with ToolUseBlock _ _ => true | _ => false end.

End Log.

(** ** status-machine.ts *)

Module StatusMachine.
Import Log.

Record StatusContext : Type := mkContext {
  lastActivityAt : string;
  messageCount : Z;
  hasPendingToolUse : bool;
  pendingToolIds : list string
}.

Inductive StatusEvent : Type :=
| USER_PROMPT (timestamp : string)
| TOOL_RESULT (timestamp : string) (toolUseIds : list string)
| ASSISTANT_STREAMING (timestamp : string)
| ASSISTANT_TOOL_USE (timestamp : string) (toolUseIds : list string)
| TURN_END (timestamp : string)
| IDLE_TIMEOUT
| APPROVAL_TIMEOUT
| STALE_TIMEOUT.

Inductive StatusState : Type :=
| idle
| working
| waiting_for_approval
| waiting_for_input.

(** [createActor(statusMachine)] together with [actor.start()]: the machine's
    [initial] state and the context its factory function builds.  [sent]
    records, oldest first, the events handed to [actor.send]. *)
Record Actor : Type := mkActor {
  value : StatusState;
  context : StatusContext;
  sent : list StatusEvent
}.

Definition initialContext : StatusContext :=
  {| lastActivityAt := ""; messageCount := 0;
     hasPendingToolUse := false; pendingToolIds := [] |}.

Definition createActor : Actor :=
  {| value := waiting_for_input; context := initialContext; sent := [] |}.

(** [toolUseIds.includes(id)] *)
Definition includes (ids : list string) (id : string) : bool :=
  existsb (String.eqb id) ids.

(** The [actions] of the machine, one definition per distinct body. *)
Definition promptFromRest (c : StatusContext) (ts : string) : StatusContext :=
  {| lastActivityAt := ts; messageCount := messageCount c + 1;
     hasPendingToolUse := hasPendingToolUse c;
     pendingToolIds := pendingToolIds c |}.

Definition promptWhileWorking (c : StatusContext) (ts : string) : StatusContext :=
  {| lastActivityAt := ts; messageCount := messageCount c + 1;
     hasPendingToolUse := false; pendingToolIds := [] |}.

Definition streaming (c : StatusContext) (ts : string) : StatusContext :=
  {| lastActivityAt := ts; messageCount := messageCount c;
     hasPendingToolUse := hasPendingToolUse c;
     pendingToolIds := pendingToolIds c |}.

Definition toolUse (c : StatusContext) (ts : string) (ids : list string)
  : StatusContext :=
  {| lastActivityAt := ts; messageCount := messageCount c + 1;
     hasPendingToolUse := true; pendingToolIds := ids |}.

Definition toolResult (c : StatusContext) (ts : string) (ids : list string)
  : StatusContext :=
  let remaining :=
    List.filter (fun id => negb (includes ids id)) (pendingToolIds c) in
  {| lastActivityAt := ts; messageCount := messageCount c + 1;
     hasPendingToolUse := (0 <? Z.of_nat (List.length remaining));
     pendingToolIds := remaining |}.

Definition turnEnd (c : StatusContext) (ts : string) : StatusContext :=
  {| lastActivityAt := ts; messageCount := messageCount c;
     hasPendingToolUse := false; pendingToolIds := [] |}.

Definition staleTimeout (c : StatusContext) : StatusContext :=
  {| lastActivityAt := lastActivityAt c; messageCount := messageCount c;
     hasPendingToolUse := false; pendingToolIds := pendingToolIds c |}.

(** The [states] table: the transition taken in state [s] on event [e]; an
    event with no entry under [on] leaves state and context as they are. *)
Definition transition (s : StatusState) (c : StatusContext) (e : StatusEvent)
  : StatusState * StatusContext :=
  match s, e with
  | idle, USER_PROMPT ts => (working, promptFromRest c ts)
  | working, USER_PROMPT ts => (working, promptWhileWorking c ts)
  | working, ASSISTANT_STREAMING ts => (working, streaming c ts)
  | working, ASSISTANT_TOOL_USE ts ids => (working, toolUse c ts ids)
  | working, TOOL_RESULT ts ids => (working, toolResult c ts ids)
  | working, TURN_END ts => (waiting_for_input, turnEnd c ts)
  | working, APPROVAL_TIMEOUT => (waiting_for_approval, c)
  | working, STALE_TIMEOUT => (waiting_for_input, staleTimeout c)
  | working, IDLE_TIMEOUT => (idle, c)
  | waiting_for_approval, TOOL_RESULT ts ids => (working, toolResult c ts ids)
  | waiting_for_approval, IDLE_TIMEOUT => (idle, c)
  | waiting_for_input, USER_PROMPT ts => (working, promptFromRest c ts)
  | waiting_for_input, IDLE_TIMEOUT => (idle, c)
  | _, _ => (s, c)
  end.

(** [actor.send(event)] *)
Definition send (a : Actor) (e : StatusEvent) : Actor :=
  let '(s, c) := transition (value a) (context a) e in
  {| value := s; context := c; sent := sent a ++ [e] |}.

(** Feeding a list of events to the machine, from a given actor. *)
Definition sendAll (a : Actor) (events : list StatusEvent) : Actor :=
  fold_left send events a.

Definition tool_result_id (b : ContentBlock) : string :=
  match b with ToolResultBlock i => i | _ => "" end.

Definition tool_use_id_or_empty (b : ContentBlock) : string :=
  match b with ToolUseBlock i _ => i | _ => "" end.

(** [b.type === "tool_use" && b.name !== "Task"] *)
Definition approval_tool_use (b : ContentBlock) : bool :=
  match b with
  | ToolUseBlock _ name => negb (String.eqb name "Task")
  | _ => false
  end.

Definition logEntryToEvent (entry : LogEntry) : option StatusEvent :=
  match entry with
  | UserEntry timestamp (ContentString _) => Some (USER_PROMPT timestamp)
  | UserEntry timestamp (ContentBlocks content) =>
      let toolUseIds := map tool_result_id (List.filter is_tool_result content) in
      if (0 <? Z.of_nat (List.length toolUseIds)) then
        Some (TOOL_RESULT timestamp toolUseIds)
      else if existsb is_text content then Some (USER_PROMPT timestamp)
      else None
  | AssistantEntry timestamp content =>
      let toolUseBlocks := List.filter approval_tool_use content in
      if (0 <? Z.of_nat (List.length toolUseBlocks)) then
        Some (ASSISTANT_TOOL_USE timestamp (map tool_use_id_or_empty toolUseBlocks))
      else Some (ASSISTANT_STREAMING timestamp)
  | SystemEntry timestamp subtype =>
      if (String.eqb subtype "turn_duration" || String.eqb subtype "stop_hook_summary")%bool
      then Some (TURN_END timestamp)
      else None
  | OtherEntry => None
  end.

(** The replay loop of [deriveStatusFromMachine]:
    [for (const entry of entries) { const event = logEntryToEvent(entry);
       if (event) actor.send(event); }] *)
Definition replay (a : Actor) (entries : list LogEntry) : Actor :=
  fold_left
    (fun a entry =>
       match logEntryToEvent entry with
       | Some event => send a event
       | None => a
       end)
    entries a.

Definition IDLE_TIMEOUT_MS : Z := 5 * 60 * 1000.
Definition APPROVAL_TIMEOUT_MS : Z := 5 * 1000.
Definition STALE_TIMEOUT_MS : Z := 60 * 1000.

(** [new Date(s).getTime()] is a built-in of the host: it is a parameter of
    the development, [None] standing for the [NaN] of an unparsable date. *)
Class DateParser : Type := Date_getTime : string -> option Z.

Section Derive.
Context {parser : DateParser}.

(** [context.lastActivityAt ? new Date(context.lastActivityAt).getTime() : 0] *)
Definition lastActivityTime (c : StatusContext) : option Z :=
  if String.eqb (lastActivityAt c) "" then Some 0
  else Date_getTime (lastActivityAt c).

(** [now - lastActivityTime]; [None] is [NaN]. *)
Definition timeSinceActivity (now : Z) (c : StatusContext) : option Z :=
  match lastActivityTime c with
  | Some t => Some (now - t)
  | None => None
  end.

(** [x > bound] on a possibly-[NaN] [x]: every comparison with [NaN] is false. *)
Definition exceeds (x : option Z) (bound : Z) : bool :=
  match x with
  | Some v => bound <? v
  | None => false
  end.

(** The "Apply timeout transitions" block, on the snapshot taken after the
    replay; [now] is the value [Date.now()] returned. *)
Definition applyTimeouts (now : Z) (a : Actor) : Actor :=
  let context := context a in
  let stateValue := value a in
  let elapsed := timeSinceActivity now context in
  if exceeds elapsed IDLE_TIMEOUT_MS then send a IDLE_TIMEOUT
  else if match stateValue with working => true | _ => false end
          && hasPendingToolUse context && exceeds elapsed APPROVAL_TIMEOUT_MS
  then send a APPROVAL_TIMEOUT
  else if match stateValue with working => true | _ => false end
          && negb (hasPendingToolUse context) && exceeds elapsed STALE_TIMEOUT_MS
  then send a STALE_TIMEOUT
  else a.

(** The actor at the end of [deriveStatusFromMachine]. *)
Definition deriveActor (entries : list LogEntry) (now : Z) : Actor :=
  applyTimeouts now (replay createActor entries).

Definition deriveStatusFromMachine (entries : list LogEntry) (now : Z)
  : StatusState * StatusContext :=
  let finalSnapshot := deriveActor entries now in
  (value finalSnapshot, context finalSnapshot).

End Derive.

(** The 3-valued status of the UI. *)
Inductive SessionStatus : Type := st_working | st_waiting | st_idle.

Inductive Role : Type := role_user | role_assistant.

Record StatusResult : Type := mkResult {
  status : SessionStatus;
  lastRole : Role;
  r_hasPendingToolUse : bool;
  r_lastActivityAt : string;
  r_messageCount : Z
}.

Definition machineStatusToResult (machineStatus : StatusState)
  (context : StatusContext) : StatusResult :=
  let status :=
    match machineStatus with
    | working => st_working
    | waiting_for_approval | waiting_for_input => st_waiting
    | idle => st_idle
    end in
  {| status := status;
     lastRole := role_assistant;
     r_hasPendingToolUse := hasPendingToolUse context;
     r_lastActivityAt := lastActivityAt context;
     r_messageCount := messageCount context |}.

End StatusMachine.

(** ** status.ts *)

Module Status.
Import Log StatusMachine.

Section Derive.
Context {parser : DateParser}.

Definition deriveStatus (entries : list LogEntry) (now : Z) : StatusResult :=
  let '(machineStatus, context) := deriveStatusFromMachine entries now in
  machineStatusToResult machineStatus context.

End Derive.

Definition status_eqb (a b : SessionStatus) : bool :=
  match a, b with
  | st_working, st_working | st_waiting, st_waiting | st_idle, st_idle => true
  | _, _ => false
  end.

Definition role_eqb (a b : Role) : bool :=
  match a, b with
  | role_user, role_user | role_assistant, role_assistant => true
  | _, _ => false
  end.

Definition statusChanged (prev : option StatusResult) (next : StatusResult) : bool :=
  match prev with
  | None => true
  | Some prev =>
      negb (status_eqb (status prev) (status next))
      || negb (role_eqb (lastRole prev) (lastRole next))
      || negb (Bool.eqb (r_hasPendingToolUse prev) (r_hasPendingToolUse next))
  end.

End Status.

(** ** A date parser for the timestamps of the logs

    The log producer writes timestamps with [toISOString], that is
    [YYYY-MM-DDTHH:mm:ss.sssZ].  [isoMillis] reads that one format and gives
    the milliseconds since the epoch that [Date.getTime] gives on it; every
    other string is left unparsed.  It instantiates [DateParser] in the
    concrete scenarios below. *)

Module IsoDate.

Definition digit (c : ascii) : option Z :=
  let n := Z.of_nat (nat_of_ascii c) in
  if (48 <=? n) && (n <=? 57) then Some (n - 48) else None.

Fixpoint number (acc : Z) (l : list ascii) : option Z :=
  match l with
  | [] => Some acc
  | c :: l =>
      match digit c with
      | Some d => number (10 * acc + d) l
      | None => None
      end
  end.

Definition field (s : string) (start len : nat) : option Z :=
  number 0 (list_ascii_of_string (substring start len s)).

Definition separators (s : string) : bool :=
  String.eqb (substring 4 1 s) "-" && String.eqb (substring 7 1 s) "-"
  && String.eqb (substring 10 1 s) "T" && String.eqb (substring 13 1 s) ":"
  && String.eqb (substring 16 1 s) ":" && String.eqb (substring 19 1 s) "."
  && String.eqb (substring 23 1 s) "Z" && Nat.eqb (String.length s) 24.

(** Days between 1970-01-01 and the given day of the proleptic Gregorian
    calendar (years from 0000, March-based months). *)
Definition daysFromCivil (y m d : Z) : Z :=
  let y' := if m <=? 2 then y - 1 else y in
  let era := y' / 400 in
  let yoe := y' - era * 400 in
  let mp := (m + 9) mod 12 in
  let doy := (153 * mp + 2) / 5 + d - 1 in
  let doe := yoe * 365 + yoe / 4 - yoe / 100 + doy in
  era * 146097 + doe - 719468.

Definition isLeap (y : Z) : bool :=
  ((y mod 4 =? 0) && negb (y mod 100 =? 0)) || (y mod 400 =? 0).

Definition daysInMonth (y m : Z) : Z :=
  if m =? 2 then (if isLeap y then 29 else 28)
  else if (m =? 4) || (m =? 6) || (m =? 9) || (m =? 11) then 30
  else 31.

Definition isoMillis (s : string) : option Z :=
  if separators s then
    match field s 0 4, field s 5 2, field s 8 2,
          field s 11 2, field s 14 2, field s 17 2, field s 20 3 with
    | Some y, Some mo, Some d, Some h, Some mi, Some sec, Some ms =>
        if (1 <=? mo) && (mo <=? 12) && (1 <=? d) && (d <=? daysInMonth y mo)
           && (h <=? 23) && (mi <=? 59) && (sec <=? 59)
        then Some ((((daysFromCivil y mo d * 24 + h) * 60 + mi) * 60 + sec) * 1000 + ms)
        else None
    | _, _, _, _, _, _, _ => None
    end
  else None.

Definition isoParser : StatusMachine.DateParser := isoMillis.

Example isoMillis_epoch : isoMillis "1970-01-01T00:00:00.000Z" = Some 0.
Proof. reflexivity. Qed.

Example isoMillis_2024 : isoMillis "2024-01-15T10:30:00.250Z" = Some 1705314600250.
Proof. reflexivity. Qed.

Example isoMillis_rejects : isoMillis "yesterday" = None.
Proof. reflexivity. Qed.

End IsoDate.

(** ** The log reader *)

Module Parser.
Import Log.

Definition newline : byte := x0a.

Definition is_newline (b : byte) : bool := Byte.eqb b newline.

Section Reader.

(** Parsing one line into a record; [None] for a malformed line. *)
Variable parseRecord : list byte -> option LogEntry.

(** Modelled from the spec: parser.ts is not among the sources.  Section 4.1:
    records are delimited by newlines; the reader returns the records of the
    lines completed since the offset and the offset to resume from; what
    follows the last delimiter is a partial write and is not consumed; a
    malformed line is skipped and does not block the lines after it.
    [splitLines] cuts a buffer into its completed lines and the partial
    tail. *)
Fixpoint splitLines (bytes : list byte) : list (list byte) * list byte :=
  match bytes with
  | [] => ([], [])
  | b :: bytes =>
      let '(lines, partial) := splitLines bytes in
      if is_newline b then ([] :: lines, partial)
      else match lines with
           | [] => ([], b :: partial)
           | line :: lines => ((b :: line) :: lines, partial)
           end
  end.

(** The bytes a list of completed lines takes in the file. *)
Definition joinLines (lines : list (list byte)) : list byte :=
  concat (map (fun line => line ++ [newline]) lines).

(** The records of the completed lines of a buffer. *)
Definition recordsOf (bytes : list byte) : list LogEntry :=
  omap parseRecord (fst (splitLines bytes)).

(** Modelled from the spec: [tailJSONL(filepath, fromByte)] of parser.ts, on
    the content the file has when it is read: the records completed after
    [fromByte], and [fromByte] advanced past exactly the lines they (and the
    skipped malformed lines) occupy. *)
Definition tailJSONL (content : list byte) (fromByte : nat)
  : list LogEntry * nat :=
  let lines := fst (splitLines (skipn fromByte content)) in
  (omap parseRecord lines, (fromByte + List.length (joinLines lines))%nat).

(** One read of a sequence of incremental reads. *)
Record Read : Type := mkRead {
  fromByte : nat;
  entries : list LogEntry;
  newPosition : nat
}.

(** The offset the next read resumes from.  A plain reader loop resumes at
    the position the last read returned; [handleFile] of watcher.ts leaves a
    session's [bytePosition] where it was when the read returned no entry
    ([keepOnEmpty]). *)
Definition resumeAt (keepOnEmpty : bool) (offset : nat)
  (newEntries : list LogEntry) (position : nat) : nat :=
  match newEntries with
  | [] => if keepOnEmpty then offset else position
  | _ :: _ => position
  end.

(** A growing file is read after each append. *)
Fixpoint incrementalReads (keepOnEmpty : bool) (content : list byte)
  (offset : nat) (appends : list (list byte)) : list Read :=
  match appends with
  | [] => []
  | chunk :: appends =>
      let content := content ++ chunk in
      let '(newEntries, position) := tailJSONL content offset in
      {| fromByte := offset; entries := newEntries; newPosition := position |}
      :: incrementalReads keepOnEmpty content
           (resumeAt keepOnEmpty offset newEntries position) appends
  end.

(** The bytes of [content] from offset [lo] up to offset [hi]. *)
Definition slice (content : list byte) (lo hi : nat) : list byte :=
  firstn (hi - lo) (skipn lo content).

End Reader.

End Parser.

(** ** watcher.ts *)

Module Watcher.
Import Log StatusMachine Status.

Record PendingPermission : Type := mkPermission {
  session_id : string;
  tool_name : string;
  tool_input : option string;
  pending_since : string
}.

(** Modelled from the spec: [SessionMetadata] of types.ts and [GitInfo] of
    git.ts are not among the sources; these are the fields watcher.ts reads
    and writes. *)
Record SessionMetadata : Type := mkMetadata {
  m_sessionId : string;
  m_cwd : string;
  m_gitBranch : option string;
  m_originalPrompt : string;
  m_startedAt : string
}.

Record GitInfo : Type := mkGitInfo {
  repoUrl : option string;
  repoId : option string;
  branch : option string;
  isGitRepo : bool
}.

Record SessionState : Type := mkSession {
  sessionId : string;
  filepath : string;
  encodedDir : string;
  cwd : string;
  gitBranch : option string;
  originalPrompt : string;
  startedAt : string;
  status : StatusResult;
  entries : list LogEntry;
  bytePosition : nat;
  gitRepoUrl : option string;
  gitRepoId : option string;
  branchChanged : option bool;
  pendingPermission : option PendingPermission
}.

Inductive SessionEventType : Type := created | updated | deleted.

Record SessionEvent : Type := mkEvent {
  type : SessionEventType;
  session : SessionState;
  previousStatus : option StatusResult
}.

(** What a handler does to the outside: [this.emit("session", ...)],
    [this.emit("error", ...)] and [unlink(file)]. *)
Inductive Effect : Type :=
| EmitSession (event : SessionEvent)
| EmitError
| Unlink (file : string).

(** The [Map]s a [SessionWatcher] owns. *)
Record WatcherState : Type := mkWatcher {
  sessions : gmap string SessionState;
  pendingPermissions : gmap string PendingPermission
}.

Definition newWatcher : WatcherState :=
  {| sessions := ∅; pendingPermissions := ∅ |}.

(** How [await tailJSONL(filepath, fromByte)] settles: with entries and a
    new position, or rejected, with code ENOENT or with another error. *)
Inductive TailOutcome : Type :=
| TailRead (newEntries : list LogEntry) (newPosition : nat)
| TailENOENT
| TailFailed.

(** The sessions events among the effects of a handler, in order. *)
Definition published (effects : list Effect) : list SessionEvent :=
  omap (fun e => match e with EmitSession ev => Some ev | _ => None end) effects.

(** [{ ...status, status: "waiting", hasPendingToolUse: true }] *)
Definition overrideStatus (st : StatusResult) : StatusResult :=
  {| StatusMachine.status := st_waiting;
     lastRole := lastRole st;
     r_hasPendingToolUse := true;
     r_lastActivityAt := r_lastActivityAt st;
     r_messageCount := r_messageCount st |}.

(** [filepath.split("/").pop() || ""]: what follows the last slash. *)
Fixpoint lastSegmentFrom (acc : string) (s : string) : string :=
  match s with
  | EmptyString => acc
  | String c rest =>
      if Ascii.eqb c "/" then lastSegmentFrom EmptyString rest
      else lastSegmentFrom (acc +:+ String c EmptyString) rest
  end.

Definition lastSegment (s : string) : string := lastSegmentFrom EmptyString s.

(** [s.replace(pattern, "")] for a non-empty string pattern: the first
    occurrence is removed. *)
Fixpoint removeFirst (pattern : string) (s : string) : string :=
  match s with
  | EmptyString => EmptyString
  | String c rest =>
      if String.prefix pattern s
      then substring (String.length pattern)
             (String.length s - String.length pattern) s
      else String c (removeFirst pattern rest)
  end.

(** The session id [handlePendingPermissionRemoved] reads off a file name. *)
Definition permissionFileSessionId (filepath : string) : string :=
  removeFirst ".json" (lastSegment filepath).

Definition option_string_eqb (a b : option string) : bool :=
  match a, b with
  | Some x, Some y => String.eqb x y
  | None, None => true
  | _, _ => false
  end.

(** [a || b] on nullable strings: [a] unless it is null or empty. *)
Definition orElse (a b : option string) : option string :=
  match a with
  | Some EmptyString | None => b
  | Some _ => a
  end.

(** The test under "Check if any new entry is a tool_result". *)
Definition entryHasToolResult (entry : LogEntry) : bool :=
  match entry with
  | UserEntry _ (ContentBlocks content) => existsb is_tool_result content
  | _ => false
  end.

Section Handlers.
Context {parser : DateParser}.

(** parser.ts and the environment are not among the sources: the helpers
    watcher.ts imports from them are parameters. *)
Variable extractSessionId : string -> string.
Variable extractEncodedDir : string -> string.
Variable extractMetadata : list LogEntry -> option SessionMetadata.
Variable PENDING_PERMISSIONS_DIR : string.

(** [clearPendingPermission(sessionId)] *)
Definition clearPendingPermission (w : WatcherState) (sessionId : string)
  : WatcherState * list Effect :=
  match pendingPermissions w !! sessionId with
  | None => (w, [])
  | Some _ =>
      ({| sessions := sessions w;
          pendingPermissions := delete sessionId (pendingPermissions w) |},
       [Unlink (PENDING_PERMISSIONS_DIR +:+ "/" +:+ sessionId +:+ ".json")])
  end.

(** [handleFile(filepath, eventType)]; the body never reads [eventType].
    [tailJSONL] and [getGitInfoCached] stand for what the two awaited calls
    answer during this pass, [now] for the clock read by [deriveStatus].  Of
    the exceptions the [try] block can catch, the rejection of [tailJSONL] is
    modelled; calls to [log] are left out. *)
Definition handleFile (tailJSONL : string -> nat -> TailOutcome)
  (getGitInfoCached : string -> GitInfo) (now : Z)
  (w : WatcherState) (filepath : string) : WatcherState * list Effect :=
  let sessionId := extractSessionId filepath in
  let existingSession := sessions w !! sessionId in
  let fromByte :=
    match existingSession with Some s => bytePosition s | None => 0%nat end in
  match tailJSONL filepath fromByte with
  | TailENOENT => (w, [])
  | TailFailed => (w, [EmitError])
  | TailRead newEntries newPosition =>
      if Nat.eqb (List.length newEntries) 0 && bool_decide (is_Some existingSession)
      then (w, [])
      else
        let allEntries :=
          match existingSession with
          | Some s => entries s ++ newEntries
          | None => newEntries
          end in
        let metadata :=
          match existingSession with
          | Some s =>
              Some {| m_sessionId := Watcher.sessionId s; m_cwd := cwd s;
                      m_gitBranch := gitBranch s;
                      m_originalPrompt := originalPrompt s;
                      m_startedAt := startedAt s |}
          | None => extractMetadata allEntries
          end in
        match metadata with
        | None => (w, [])
        | Some metadata =>
            let gitInfo :=
              match existingSession with
              | Some s =>
                  {| repoUrl := gitRepoUrl s; repoId := gitRepoId s;
                     branch := gitBranch s;
                     isGitRepo := bool_decide (gitRepoUrl s <> None)
                                  || bool_decide (gitBranch s <> None) |}
              | None => getGitInfoCached (m_cwd metadata)
              end in
            let currentBranch := getGitInfoCached (m_cwd metadata) in
            let branchChanged :=
              match existingSession with
              | Some s => negb (option_string_eqb (branch currentBranch) (gitBranch s))
              | None => false
              end in
            let gitInfo := if branchChanged then currentBranch else gitInfo in
            let hasToolResult := existsb entryHasToolResult newEntries in
            let '(w1, cleared) :=
              if hasToolResult
                 && bool_decide (is_Some (pendingPermissions w !! sessionId))
              then clearPendingPermission w sessionId
              else (w, []) in
            let status := deriveStatus allEntries now in
            let previousStatus := Watcher.status <$> existingSession in
            let pendingPermission := pendingPermissions w1 !! sessionId in
            let status :=
              match pendingPermission with
              | Some _ => overrideStatus status
              | None => status
              end in
            let session :=
              {| sessionId := sessionId;
                 filepath := filepath;
                 encodedDir := extractEncodedDir filepath;
                 cwd := m_cwd metadata;
                 gitBranch := orElse (branch gitInfo) (m_gitBranch metadata);
                 originalPrompt := m_originalPrompt metadata;
                 startedAt := m_startedAt metadata;
                 status := status;
                 entries := allEntries;
                 bytePosition := newPosition;
                 gitRepoUrl := repoUrl gitInfo;
                 gitRepoId := repoId gitInfo;
                 branchChanged := Some branchChanged;
                 pendingPermission := pendingPermission |} in
            let w2 :=
              {| sessions := <[sessionId := session]> (sessions w1);
                 pendingPermissions := pendingPermissions w1 |} in
            let hasStatusChange := statusChanged previousStatus status in
            let hasNewMessages :=
              match existingSession with
              | Some s =>
                  r_messageCount (Watcher.status s) <? r_messageCount status
              | None => false
              end in
            match existingSession with
            | None =>
                (w2, cleared ++
                     [EmitSession {| type := created; session := session;
                                     previousStatus := None |}])
            | Some _ =>
                if hasStatusChange || hasNewMessages || branchChanged
                then (w2, cleared ++
                          [EmitSession {| type := updated; session := session;
                                          previousStatus := previousStatus |}])
                else (w2, cleared)
            end
        end
  end.

(** [session.status = st; session.pendingPermission = permission] *)
Definition updateSession (s : SessionState) (st : StatusResult)
  (permission : option PendingPermission) : SessionState :=
  {| sessionId := sessionId s; filepath := filepath s;
     encodedDir := encodedDir s; cwd := cwd s; gitBranch := gitBranch s;
     originalPrompt := originalPrompt s; startedAt := startedAt s;
     status := st; entries := entries s; bytePosition := bytePosition s;
     gitRepoUrl := gitRepoUrl s; gitRepoId := gitRepoId s;
     branchChanged := branchChanged s; pendingPermission := permission |}.

(** [handlePendingPermission(filepath)]; [readPermission] is the outcome of
    reading and parsing the file, [None] when either throws. *)
Definition handlePendingPermission
  (readPermission : string -> option PendingPermission)
  (w : WatcherState) (filepath : string) : WatcherState * list Effect :=
  match readPermission filepath with
  | None => (w, [])
  | Some permission =>
      let sessionId := session_id permission in
      if String.eqb sessionId "" then (w, [])
      else
        let pending := <[sessionId := permission]> (pendingPermissions w) in
        match sessions w !! sessionId with
        | Some session =>
            let previousStatus := status session in
            let session :=
              updateSession session (overrideStatus (status session))
                (Some permission) in
            ({| sessions := <[sessionId := session]> (sessions w);
                pendingPermissions := pending |},
             [EmitSession {| type := updated; session := session;
                             previousStatus := Some previousStatus |}])
        | None =>
            ({| sessions := sessions w; pendingPermissions := pending |}, [])
        end
  end.

(** [handlePendingPermissionRemoved(filepath)] *)
Definition handlePendingPermissionRemoved (now : Z)
  (w : WatcherState) (filepath : string) : WatcherState * list Effect :=
  let sessionId := permissionFileSessionId filepath in
  if String.eqb sessionId "" then (w, [])
  else
    let pending := delete sessionId (pendingPermissions w) in
    match sessions w !! sessionId with
    | Some session =>
        match pendingPermission session with
        | Some _ =>
            let previousStatus := status session in
            let session :=
              updateSession session (deriveStatus (entries session) now) None in
            ({| sessions := <[sessionId := session]> (sessions w);
                pendingPermissions := pending |},
             [EmitSession {| type := updated; session := session;
                             previousStatus := Some previousStatus |}])
        | None =>
            ({| sessions := sessions w; pendingPermissions := pending |}, [])
        end
    | None => ({| sessions := sessions w; pendingPermissions := pending |}, [])
    end.

(** The body of the loop of [checkStaleSessions] on one session: the session
    as updated, when it is. *)
Definition staleCheck (now : Z) (session : SessionState) : option SessionState :=
  if status_eqb (StatusMachine.status (status session)) st_working then
    let newStatus := deriveStatus (entries session) now in
    if statusChanged (Some (status session)) newStatus
    then Some (updateSession session newStatus (pendingPermission session))
    else None
  else None.

(** [checkStaleSessions()]; [clock] gives the clock reading at which each
    session is re-derived.  The order of the events among sessions is that
    of the map's listing. *)
Definition checkStaleSessions (clock : string -> Z) (w : WatcherState)
  : WatcherState * list Effect :=
  ({| sessions :=
        map_imap (fun id s => Some (default s (staleCheck (clock id) s)))
                 (sessions w);
      pendingPermissions := pendingPermissions w |},
   omap (fun '(id, s) =>
           (fun s' => EmitSession {| type := updated; session := s';
                                     previousStatus := Some (status s) |})
           <$> staleCheck (clock id) s)
        (map_to_list (sessions w))).

(** [handleDelete(filepath)] *)
Definition handleDelete (w : WatcherState) (filepath : string)
  : WatcherState * list Effect :=
  let sessionId := extractSessionId filepath in
  match sessions w !! sessionId with
  | Some session =>
      ({| sessions := delete sessionId (sessions w);
          pendingPermissions := pendingPermissions w |},
       [EmitSession {| type := deleted; session := session;
                       previousStatus := None |}])
  | None => (w, [])
  end.

(** The notifications [start()] subscribes the handlers to, each with what
    the outside answers while it is handled. *)
Inductive Notification : Type :=
| LogFileChanged (filepath : string)
    (tailJSONL : string -> nat -> TailOutcome)
    (getGitInfoCached : string -> GitInfo) (now : Z)
| LogFileRemoved (filepath : string)
| PermissionFileWritten (filepath : string)
    (readPermission : string -> option PendingPermission)
| PermissionFileRemoved (filepath : string) (now : Z)
| StaleCheckTick (clock : string -> Z).

(** Handlers run one at a time, each to completion. *)
Definition handle (w : WatcherState) (n : Notification)
  : WatcherState * list Effect :=
  match n with
  | LogFileChanged filepath tailJSONL getGitInfoCached now =>
      handleFile tailJSONL getGitInfoCached now w filepath
  | LogFileRemoved filepath => handleDelete w filepath
  | PermissionFileWritten filepath readPermission =>
      handlePendingPermission readPermission w filepath
  | PermissionFileRemoved filepath now =>
      handlePendingPermissionRemoved now w filepath
  | StaleCheckTick clock => checkStaleSessions clock w
  end.

Fixpoint run (w : WatcherState) (ns : list Notification)
  : WatcherState * list Effect :=
  match ns with
  | [] => (w, [])
  | n :: ns =>
      let '(w1, effects1) := handle w n in
      let '(w2, effects2) := run w1 ns in
      (w2, effects1 ++ effects2)
  end.

End Handlers.

End Watcher.

(** ** Properties of the status machine *)

Module StatusProps.
Import Log StatusMachine Status.

(** *** Scenarios B, C, E and F of the specification *)

Definition t0 : string := "2024-01-15T10:30:00.000Z".
Definition t1 : string := "2024-01-15T10:30:02.000Z".
Definition t2 : string := "2024-01-15T10:30:03.000Z".
Definition t3 : string := "2024-01-15T10:30:04.000Z".
Definition t0_ms : Z := 1705314600000.

Definition scenarioB : list LogEntry :=
  [UserEntry t0 (ContentString "fix the bug")].
Definition scenarioC : list LogEntry :=
  scenarioB ++ [AssistantEntry t1 [TextBlock "editing"; ToolUseBlock "toolu_01" "Edit"]].
Definition scenarioE : list LogEntry :=
  scenarioC ++ [UserEntry t2 (ContentBlocks [ToolResultBlock "toolu_01"])].
Definition scenarioF : list LogEntry :=
  scenarioE ++ [SystemEntry t3 "turn_duration"].

(** *** Pending-set consistency *)

Definition consistent (c : StatusContext) : Prop :=
  hasPendingToolUse c = true <-> pendingToolIds c <> [].

(** The events that the engine itself hands to an actor [a]: the classifier
    builds [ASSISTANT_TOOL_USE] only around a non-empty id list, and
    [deriveStatusFromMachine] sends [STALE_TIMEOUT] only while
    [hasPendingToolUse] is false. *)
Definition engineEvent (a : Actor) (e : StatusEvent) : bool :=
  match e with
  | ASSISTANT_TOOL_USE _ ids => 0 <? Z.of_nat (List.length ids)
  | STALE_TIMEOUT => negb (hasPendingToolUse (context a))
  | _ => true
  end.

Fixpoint engineEvents (a : Actor) (events : list StatusEvent) : bool :=
  match events with
  | [] => true
  | e :: events => engineEvent a e && engineEvents (send a e) events
  end.

Lemma positive_length_nonempty {A} (l : list A) :
  (0 <? Z.of_nat (List.length l)) = true <-> l <> [].
Proof.
  destruct l as [|x l]; cbn [List.length].
  - split; [discriminate | congruence].
  - split; [discriminate | intros _; apply Z.ltb_lt; lia].
Qed.

Lemma initial_consistent : consistent (context createActor).
Proof. split; [discriminate | intros Hne; now elim Hne]. Qed.

Lemma cleared_consistent ts n :
  consistent {| lastActivityAt := ts; messageCount := n;
                hasPendingToolUse := false; pendingToolIds := [] |}.
Proof. split; cbn; [discriminate | congruence]. Qed.

Lemma toolResult_consistent c ts ids : consistent (toolResult c ts ids).
Proof. unfold consistent, toolResult; cbn. apply positive_length_nonempty. Qed.

Lemma send_consistent a e :
  consistent (context a) -> engineEvent a e = true ->
  consistent (context (send a e)).
Proof.
  intros Hc Hev. unfold send.
  destruct (value a), e; cbn in *;
    try exact Hc; try apply cleared_consistent;
    try apply toolResult_consistent.
  - (* ASSISTANT_TOOL_USE in working *)
    unfold consistent; cbn. apply positive_length_nonempty in Hev. tauto.
  - (* STALE_TIMEOUT in working *)
    unfold consistent in *; cbn.
    apply negb_true_iff in Hev. rewrite Hev in Hc.
    split; [discriminate | intros Hne; apply Hc in Hne; discriminate].
Qed.

Lemma sendAll_consistent events : forall a,
  consistent (context a) -> engineEvents a events = true ->
  consistent (context (sendAll a events)).
Proof.
  induction events as [|e events IH]; intros a Hc Hev; cbn in *.
  - exact Hc.
  - apply andb_true_iff in Hev as [He Hrest].
    apply IH; [now apply send_consistent | exact Hrest].
Qed.

(** C1 (as amended).  For every sequence of events sent to the machine from
    its initial state in which each [ASSISTANT_TOOL_USE] carries at least one
    tool-use id and [STALE_TIMEOUT] is sent only while [hasPendingToolUse] is
    false, the resulting context has [hasPendingToolUse = true] exactly when
    [pendingToolIds] is non-empty. *)
Theorem pending_set_consistency (events : list StatusEvent) :
  engineEvents createActor events = true ->
  let c := context (sendAll createActor events) in
  hasPendingToolUse c = true <-> pendingToolIds c <> [].
Proof.
  intros Hev. apply (sendAll_consistent events createActor);
    [apply initial_consistent | exact Hev].
Qed.

Lemma pending_set_consistency_witness :
  engineEvents createActor
    [USER_PROMPT t0; ASSISTANT_TOOL_USE t1 ["toolu_01"; "toolu_02"];
     TOOL_RESULT t2 ["toolu_01"]; TOOL_RESULT t3 ["toolu_02"]; STALE_TIMEOUT] = true
  /\ (let c := context (sendAll createActor
        [USER_PROMPT t0; ASSISTANT_TOOL_USE t1 ["toolu_01"; "toolu_02"];
         TOOL_RESULT t2 ["toolu_01"]; TOOL_RESULT t3 ["toolu_02"]; STALE_TIMEOUT]) in
      hasPendingToolUse c = true <-> pendingToolIds c <> []).
Proof.
  split; [reflexivity |].
  apply (pending_set_consistency
    [USER_PROMPT t0; ASSISTANT_TOOL_USE t1 ["toolu_01"; "toolu_02"];
     TOOL_RESULT t2 ["toolu_01"]; TOOL_RESULT t3 ["toolu_02"]; STALE_TIMEOUT]).
  reflexivity.
Defined.

(** C1 (as stated) fails on arbitrary event sequences: [STALE_TIMEOUT] sent
    while a tool is pending clears the flag and keeps the ids, and an
    [ASSISTANT_TOOL_USE] with no id sets the flag over an empty list. *)
Lemma pending_set_consistency_counterexample :
  (let c := context (sendAll createActor
      [USER_PROMPT t0; ASSISTANT_TOOL_USE t1 ["toolu_01"]; STALE_TIMEOUT]) in
   hasPendingToolUse c = false /\ pendingToolIds c = ["toolu_01"])
  /\ (let c := context (sendAll createActor
      [USER_PROMPT t0; ASSISTANT_TOOL_USE t1 []]) in
      hasPendingToolUse c = true /\ pendingToolIds c = []).
Proof. repeat split. Qed.

(** *** The classifier, case by case *)

(** The ids referenced by the tool-result blocks of a block list, in order. *)
Fixpoint referencedIds (blocks : list ContentBlock) : list string :=
  match blocks with
  | [] => []
  | ToolResultBlock i :: blocks => i :: referencedIds blocks
  | _ :: blocks => referencedIds blocks
  end.

(** The ids of the tool-use blocks of a block list that are not named
    "Task", in order. *)
Fixpoint approvalIds (blocks : list ContentBlock) : list string :=
  match blocks with
  | [] => []
  | ToolUseBlock i name :: blocks =>
      if string_dec name "Task" then approvalIds blocks
      else i :: approvalIds blocks
  | _ :: blocks => approvalIds blocks
  end.

Definition hasToolResultBlock (blocks : list ContentBlock) : Prop :=
  exists i, In (ToolResultBlock i) blocks.

Definition hasTextBlock (blocks : list ContentBlock) : Prop :=
  exists text, In (TextBlock text) blocks.

Definition turnEndSubtype (subtype : string) : Prop :=
  subtype = "turn_duration" \/ subtype = "stop_hook_summary".

(** The case list of section 4.2 of the specification, as a relation between
    a record and what the classifier answers for it. *)
Inductive classifies : LogEntry -> option StatusEvent -> Prop :=
| classifies_prompt_string ts text :
    classifies (UserEntry ts (ContentString text)) (Some (USER_PROMPT ts))
| classifies_tool_result ts blocks :
    hasToolResultBlock blocks ->
    classifies (UserEntry ts (ContentBlocks blocks))
               (Some (TOOL_RESULT ts (referencedIds blocks)))
| classifies_prompt_blocks ts blocks :
    ~ hasToolResultBlock blocks -> hasTextBlock blocks ->
    classifies (UserEntry ts (ContentBlocks blocks)) (Some (USER_PROMPT ts))
| classifies_user_nothing ts blocks :
    ~ hasToolResultBlock blocks -> ~ hasTextBlock blocks ->
    classifies (UserEntry ts (ContentBlocks blocks)) None
| classifies_tool_use ts blocks :
    approvalIds blocks <> [] ->
    classifies (AssistantEntry ts blocks)
               (Some (ASSISTANT_TOOL_USE ts (approvalIds blocks)))
| classifies_streaming ts blocks :
    approvalIds blocks = [] ->
    classifies (AssistantEntry ts blocks) (Some (ASSISTANT_STREAMING ts))
| classifies_turn_end ts subtype :
    turnEndSubtype subtype ->
    classifies (SystemEntry ts subtype) (Some (TURN_END ts))
| classifies_system_nothing ts subtype :
    ~ turnEndSubtype subtype ->
    classifies (SystemEntry ts subtype) None
| classifies_other :
    classifies OtherEntry None.

Lemma referencedIds_filter blocks :
  map tool_result_id (List.filter is_tool_result blocks) = referencedIds blocks.
Proof.
  induction blocks as [|b blocks IH]; [reflexivity |].
  destruct b; cbn; rewrite ?IH; reflexivity.
Qed.

Lemma approvalIds_filter blocks :
  map tool_use_id_or_empty (List.filter approval_tool_use blocks)
  = approvalIds blocks.
Proof.
  induction blocks as [|b blocks IH]; [reflexivity |].
  destruct b as [text|i name|i|]; cbn; rewrite ?IH; try reflexivity.
  destruct (string_dec name "Task") as [->|Hne]; cbn.
  - exact IH.
  - apply String.eqb_neq in Hne. rewrite Hne. cbn. now rewrite IH.
Qed.

Lemma hasToolResultBlock_ids blocks :
  hasToolResultBlock blocks <-> referencedIds blocks <> [].
Proof.
  unfold hasToolResultBlock. induction blocks as [|b blocks IH].
  - split; [intros [i []] | intros Hne; now elim Hne].
  - destruct b as [text|i name|i|]; cbn [referencedIds];
      try (rewrite <- IH; split;
           [intros [j [Hj|Hj]]; [discriminate | eauto]
           | intros [j Hj]; exists j; now right]).
    split; [discriminate | intros _; exists i; now left].
Qed.

Lemma hasTextBlock_existsb blocks :
  hasTextBlock blocks <-> existsb is_text blocks = true.
Proof.
  unfold hasTextBlock. rewrite existsb_exists. split.
  - intros [text Hin]. exists (TextBlock text). now split.
  - intros [b [Hin Hb]]. destruct b; try discriminate. eauto.
Qed.

Lemma turnEndSubtype_eqb subtype :
  turnEndSubtype subtype <->
  (String.eqb subtype "turn_duration"
   || String.eqb subtype "stop_hook_summary")%bool = true.
Proof.
  unfold turnEndSubtype.
  rewrite orb_true_iff, !String.eqb_eq. reflexivity.
Qed.

Lemma logEntryToEvent_classifies entry : classifies entry (logEntryToEvent entry).
Proof.
  destruct entry as [ts [text|blocks]|ts blocks|ts subtype|]; cbn.
  - constructor.
  - rewrite referencedIds_filter.
    destruct (0 <? Z.of_nat (List.length (referencedIds blocks))) eqn:Hlen.
    + constructor. apply hasToolResultBlock_ids.
      now apply positive_length_nonempty.
    + assert (~ hasToolResultBlock blocks) as Hno.
      { rewrite hasToolResultBlock_ids, <- positive_length_nonempty. congruence. }
      destruct (existsb is_text blocks) eqn:Htext.
      * constructor; [exact Hno | now apply hasTextBlock_existsb].
      * constructor; [exact Hno |].
        rewrite hasTextBlock_existsb. congruence.
  - rewrite approvalIds_filter.
    destruct (0 <? Z.of_nat (List.length (List.filter approval_tool_use blocks)))
      eqn:Hlen.
    + constructor. rewrite <- approvalIds_filter. intros Hnil.
      apply map_eq_nil in Hnil. rewrite Hnil in Hlen. discriminate.
    + constructor. rewrite <- approvalIds_filter.
      destruct (List.filter approval_tool_use blocks); [reflexivity | discriminate].
  - destruct (String.eqb subtype "turn_duration"
              || String.eqb subtype "stop_hook_summary")%bool eqn:Hsub.
    + constructor. now apply turnEndSubtype_eqb.
    + constructor. rewrite turnEndSubtype_eqb. congruence.
  - constructor.
Qed.

Lemma classifies_functional entry r1 r2 :
  classifies entry r1 -> classifies entry r2 -> r1 = r2.
Proof.
  intros H1 H2.
  destruct H1; inversion H2; subst; try reflexivity; try contradiction;
    try congruence.
Qed.

(** C4.  The classifier answers with at most one event per record, and its
    answer is the one the case list gives: [TOOL_RESULT] with the referenced
    ids for a user record holding a tool-result block (text blocks or not),
    [ASSISTANT_TOOL_USE] with the non-"Task" tool-use ids of an assistant
    record when there are any and [ASSISTANT_STREAMING] otherwise, [TURN_END]
    for a system record exactly when its subtype is turn_duration or
    stop_hook_summary, and no event for any record outside the list. *)
Theorem classifier_case_analysis (entry : LogEntry) (r : option StatusEvent) :
  logEntryToEvent entry = r <-> classifies entry r.
Proof.
  split.
  - intros <-. apply logEntryToEvent_classifies.
  - intros Hr. eapply classifies_functional;
      [apply logEntryToEvent_classifies | exact Hr].
Qed.

Example classify_tool_result_with_text :
  logEntryToEvent
    (UserEntry t2 (ContentBlocks
       [TextBlock "done"; ToolResultBlock "toolu_01"; ToolResultBlock "toolu_02"]))
  = Some (TOOL_RESULT t2 ["toolu_01"; "toolu_02"]).
Proof. reflexivity. Qed.

Example classify_only_task :
  logEntryToEvent (AssistantEntry t1 [ToolUseBlock "toolu_09" "Task"])
  = Some (ASSISTANT_STREAMING t1).
Proof. reflexivity. Qed.

Example classify_task_and_edit :
  logEntryToEvent
    (AssistantEntry t1 [ToolUseBlock "toolu_09" "Task"; ToolUseBlock "toolu_10" "Edit"])
  = Some (ASSISTANT_TOOL_USE t1 ["toolu_10"]).
Proof. reflexivity. Qed.

Lemma classifier_turn_end ts subtype :
  subtype = "turn_duration" \/ subtype = "stop_hook_summary" ->
  logEntryToEvent (SystemEntry ts subtype) = Some (TURN_END ts).
Proof. intros [-> | ->]; reflexivity. Qed.

(** *** Replay *)

Lemma replay_app a entries entries' :
  replay a (entries ++ entries') = replay (replay a entries) entries'.
Proof. apply fold_left_app. Qed.

Lemma sent_send a e : sent (send a e) = sent a ++ [e].
Proof. unfold send. now destruct (transition (value a) (context a) e). Qed.

Lemma sent_replay entries : forall a,
  sent (replay a entries) = sent a ++ omap logEntryToEvent entries.
Proof.
  induction entries as [|entry entries IH]; intros a; cbn.
  - now rewrite app_nil_r.
  - fold (replay (match logEntryToEvent entry with
                  | Some event => send a event | None => a end) entries).
    rewrite IH. destruct (logEntryToEvent entry) as [event|]; [| reflexivity].
    now rewrite sent_send, <- app_assoc.
Qed.

(** *** The turn-end transition *)

(** C6.  In [working], a system record whose subtype is turn_duration or
    stop_hook_summary (a [TURN_END] event) moves the machine to
    [waiting_for_input], sets [lastActivityAt] to the record's timestamp and
    clears [hasPendingToolUse] and [pendingToolIds]; the projected status is
    waiting with [hasPendingToolUse = false]. *)
Theorem turn_end_transition (a : Actor) (ts subtype : string) :
  value a = working ->
  subtype = "turn_duration" \/ subtype = "stop_hook_summary" ->
  let a' := replay a [SystemEntry ts subtype] in
  let result := machineStatusToResult (value a') (context a') in
  logEntryToEvent (SystemEntry ts subtype) = Some (TURN_END ts)
  /\ value a' = waiting_for_input
  /\ lastActivityAt (context a') = ts
  /\ hasPendingToolUse (context a') = false
  /\ pendingToolIds (context a') = []
  /\ messageCount (context a') = messageCount (context a)
  /\ status result = st_waiting
  /\ r_hasPendingToolUse result = false.
Proof.
  intros Hworking Hsub.
  assert (logEntryToEvent (SystemEntry ts subtype) = Some (TURN_END ts)) as Hev.
  { apply classifier_turn_end. exact Hsub. }
  cbn [replay fold_left]. rewrite Hev. unfold send. rewrite Hworking. cbn.
  repeat split; reflexivity.
Qed.

Lemma turn_end_transition_witness :
  value (replay createActor scenarioE) = working
  /\ (let a' := replay (replay createActor scenarioE) [SystemEntry t3 "turn_duration"] in
      let result := machineStatusToResult (value a') (context a') in
      logEntryToEvent (SystemEntry t3 "turn_duration") = Some (TURN_END t3)
      /\ value a' = waiting_for_input
      /\ lastActivityAt (context a') = t3
      /\ hasPendingToolUse (context a') = false
      /\ pendingToolIds (context a') = []
      /\ messageCount (context a')
         = messageCount (context (replay createActor scenarioE))
      /\ status result = st_waiting
      /\ r_hasPendingToolUse result = false).
Proof.
  split; [reflexivity |].
  apply (turn_end_transition (replay createActor scenarioE) t3 "turn_duration");
    [reflexivity | left; reflexivity].
Defined.

(** *** Timeouts *)

Section Timeouts.
Context {parser : DateParser}.

Lemma timeSinceActivity_Some now c v :
  timeSinceActivity now c = Some v <->
  exists t, lastActivityTime c = Some t /\ v = now - t.
Proof.
  unfold timeSinceActivity. destruct (lastActivityTime c) as [t|]; split.
  - intros [= <-]. eauto.
  - intros [t' [[= <-] ->]]. reflexivity.
  - discriminate.
  - intros [t' [[=] _]].
Qed.

Lemma exceeds_Some v bound : exceeds (Some v) bound = true <-> bound < v.
Proof. apply Z.ltb_lt. Qed.

Lemma staleTimeout_idle c :
  hasPendingToolUse c = false -> staleTimeout c = c.
Proof. destruct c; cbn; now intros ->. Qed.

Lemma send_timeout_context a e :
  e = IDLE_TIMEOUT \/ e = APPROVAL_TIMEOUT
  \/ (e = STALE_TIMEOUT /\ hasPendingToolUse (context a) = false) ->
  context (send a e) = context a.
Proof.
  unfold send.
  intros [-> | [-> | [-> Hidle]]]; destruct (value a); cbn;
    try reflexivity.
  now apply staleTimeout_idle.
Qed.

(** The timeout check never changes the context. *)
Lemma applyTimeouts_context now a :
  context (applyTimeouts now a) = context a.
Proof.
  unfold applyTimeouts.
  destruct (exceeds _ IDLE_TIMEOUT_MS); [apply send_timeout_context; auto |].
  destruct (_ && _ && exceeds _ APPROVAL_TIMEOUT_MS);
    [apply send_timeout_context; auto |].
  destruct (_ && negb (hasPendingToolUse (context a)) && _) eqn:Hstale;
    [| reflexivity].
  apply send_timeout_context. right; right. split; [reflexivity |].
  apply andb_true_iff in Hstale as [Hstale _].
  apply andb_true_iff in Hstale as [_ Hstale].
  now apply negb_true_iff.
Qed.

(** What the timeout check sends, as a list. *)
Definition injectedTimeout (now : Z) (a : Actor) : list StatusEvent :=
  skipn (List.length (sent a)) (sent (applyTimeouts now a)).

Lemma sent_applyTimeouts now a :
  sent (applyTimeouts now a) = sent a ++ injectedTimeout now a.
Proof.
  unfold injectedTimeout, applyTimeouts.
  repeat match goal with
         | |- context [if ?b then _ else _] => destruct b
         end;
    rewrite ?sent_send, ?skipn_app, ?skipn_all, ?Nat.sub_diag, ?app_nil_r;
    reflexivity.
Qed.

Ltac timeout_cases a :=
  unfold injectedTimeout, applyTimeouts;
  destruct (value a) eqn:?; destruct (hasPendingToolUse (context a)) eqn:?;
  cbn [andb negb];
  repeat match goal with
         | |- context [exceeds ?x ?b] => destruct (exceeds x b) eqn:?
         end;
  rewrite ?sent_send, ?skipn_app, ?skipn_all, ?Nat.sub_diag;
  cbn [skipn app List.length].

Lemma injectedTimeout_cases now a :
  let elapsed := timeSinceActivity now (context a) in
  let isWorking := match value a with working => true | _ => false end in
  injectedTimeout now a =
    if exceeds elapsed IDLE_TIMEOUT_MS then [IDLE_TIMEOUT]
    else if isWorking && hasPendingToolUse (context a)
            && exceeds elapsed APPROVAL_TIMEOUT_MS then [APPROVAL_TIMEOUT]
    else if isWorking && negb (hasPendingToolUse (context a))
            && exceeds elapsed STALE_TIMEOUT_MS then [STALE_TIMEOUT]
    else [].
Proof. cbv zeta. timeout_cases a; reflexivity. Qed.

Lemma derive_idle_after_timeout entries now t :
  lastActivityTime (context (replay createActor entries)) = Some t ->
  300000 < now - t ->
  value (replay createActor entries) <> idle ->
  fst (deriveStatusFromMachine entries now) = idle.
Proof.
  intros Ht Hlate Hstate.
  unfold deriveStatusFromMachine, deriveActor, applyTimeouts, timeSinceActivity.
  rewrite Ht. cbn [exceeds fst].
  replace (IDLE_TIMEOUT_MS <? now - t) with true
    by (symmetry; apply Z.ltb_lt; unfold IDLE_TIMEOUT_MS; lia).
  unfold send. destruct (value (replay createActor entries)); cbn;
    congruence.
Qed.

(** C3.  After the replay the engine sends at most one synthetic timeout:
    [IDLE_TIMEOUT] whenever more than 5 minutes have elapsed since
    [lastActivityAt]; otherwise [APPROVAL_TIMEOUT] when the machine is in
    [working] with a pending tool use and more than 5 seconds have elapsed;
    otherwise [STALE_TIMEOUT] when it is in [working] with no pending tool use
    and more than 60 seconds have elapsed; and nothing in any other case.  A
    session in [working] with pending tools whose last activity is 6 minutes
    old is reported idle. *)
Theorem timeout_injection_priority (entries : list LogEntry) (now : Z) :
  let a := replay createActor entries in
  let elapsed := timeSinceActivity now (context a) in
  exists injected : list StatusEvent,
    sent (deriveActor entries now) = omap logEntryToEvent entries ++ injected
    /\ (List.length injected <= 1)%nat
    /\ (forall v, elapsed = Some v -> 300000 < v -> injected = [IDLE_TIMEOUT])
    /\ (forall v, elapsed = Some v -> v <= 300000 ->
          value a = working -> hasPendingToolUse (context a) = true ->
          5000 < v -> injected = [APPROVAL_TIMEOUT])
    /\ (forall v, elapsed = Some v -> v <= 300000 ->
          value a = working -> hasPendingToolUse (context a) = false ->
          60000 < v -> injected = [STALE_TIMEOUT])
    /\ (forall v, elapsed = Some v -> v <= 300000 ->
          (value a <> working
           \/ (hasPendingToolUse (context a) = true /\ v <= 5000)
           \/ (hasPendingToolUse (context a) = false /\ v <= 60000)) ->
          injected = [])
    /\ (elapsed = None -> injected = [])
    /\ (forall t, value a = working -> hasPendingToolUse (context a) = true ->
          lastActivityTime (context a) = Some t -> now - t = 6 * 60 * 1000 ->
          fst (deriveStatusFromMachine entries now) = idle
          /\ status (deriveStatus entries now) = st_idle).
Proof.
  cbv zeta. set (a := replay createActor entries).
  exists (injectedTimeout now a).
  split.
  { unfold deriveActor. fold a. rewrite sent_applyTimeouts. f_equal.
    unfold a. now rewrite sent_replay. }
  rewrite injectedTimeout_cases. cbv zeta.
  unfold IDLE_TIMEOUT_MS, APPROVAL_TIMEOUT_MS, STALE_TIMEOUT_MS.
  split.
  { repeat match goal with
           | |- context [if ?b then _ else _] => destruct b
           end; cbn; lia. }
  split; [| split; [| split; [| split; [| split]]]].
  - intros v -> Hv. cbn [exceeds].
    replace (5 * 60 * 1000 <? v) with true by (symmetry; apply Z.ltb_lt; lia).
    reflexivity.
  - intros v -> Hle Hw Hp Hv. rewrite Hw, Hp. cbn [exceeds andb].
    replace (5 * 60 * 1000 <? v) with false by (symmetry; apply Z.ltb_ge; lia).
    replace (5 * 1000 <? v) with true by (symmetry; apply Z.ltb_lt; lia).
    reflexivity.
  - intros v -> Hle Hw Hp Hv. rewrite Hw, Hp. cbn [exceeds andb negb].
    replace (5 * 60 * 1000 <? v) with false by (symmetry; apply Z.ltb_ge; lia).
    replace (60 * 1000 <? v) with true by (symmetry; apply Z.ltb_lt; lia).
    reflexivity.
  - intros v -> Hle Hcase. cbn [exceeds].
    replace (5 * 60 * 1000 <? v) with false by (symmetry; apply Z.ltb_ge; lia).
    destruct Hcase as [Hw | [[Hp Hv] | [Hp Hv]]].
    + destruct (value a); try congruence; reflexivity.
    + rewrite Hp. cbn [negb andb]. rewrite !andb_false_r.
      replace (5 * 1000 <? v) with false by (symmetry; apply Z.ltb_ge; lia).
      now rewrite andb_false_r.
    + rewrite Hp. cbn [negb andb]. rewrite !andb_false_r.
      replace (60 * 1000 <? v) with false by (symmetry; apply Z.ltb_ge; lia).
      now rewrite andb_false_r.
  - intros ->. cbn [exceeds]. now rewrite !andb_false_r.
  - intros t Hw Hp Ht Hnow.
    assert (fst (deriveStatusFromMachine entries now) = idle) as Hidle.
    { apply (derive_idle_after_timeout entries now t); fold a;
        [exact Ht | lia | congruence]. }
    split; [exact Hidle |].
    unfold deriveStatus. destruct (deriveStatusFromMachine entries now) as [s c].
    cbn in Hidle. now subst s.
Qed.

End Timeouts.

(** *** Determinism and the evaluation time *)

(** Where the elapsed time stands against the three thresholds; an
    unparsable [lastActivityAt] never passes any of them. *)
Inductive Band : Type := band_fresh | band_5s | band_60s | band_5min.

Definition band (elapsed : option Z) : Band :=
  match elapsed with
  | None => band_fresh
  | Some v =>
      if 300000 <? v then band_5min
      else if 60000 <? v then band_60s
      else if 5000 <? v then band_5s
      else band_fresh
  end.

Section Determinism.
Context {parser : DateParser}.

Lemma exceeds_band e1 e2 :
  band e1 = band e2 ->
  exceeds e1 IDLE_TIMEOUT_MS = exceeds e2 IDLE_TIMEOUT_MS
  /\ exceeds e1 APPROVAL_TIMEOUT_MS = exceeds e2 APPROVAL_TIMEOUT_MS
  /\ exceeds e1 STALE_TIMEOUT_MS = exceeds e2 STALE_TIMEOUT_MS.
Proof.
  unfold band, exceeds, IDLE_TIMEOUT_MS, APPROVAL_TIMEOUT_MS, STALE_TIMEOUT_MS.
  destruct e1 as [v1|], e2 as [v2|];
    repeat match goal with
           | |- context [?x <? ?y] => destruct (Z.ltb_spec x y)
           end;
    intros Hband; try discriminate Hband; repeat split; lia.
Qed.

Lemma applyTimeouts_band now1 now2 a :
  band (timeSinceActivity now1 (context a))
  = band (timeSinceActivity now2 (context a)) ->
  applyTimeouts now1 a = applyTimeouts now2 a.
Proof.
  intros Hband. apply exceeds_band in Hband as (Hidle & Happroval & Hstale).
  unfold applyTimeouts. now rewrite Hidle, Happroval, Hstale.
Qed.

(** C2 (as amended).  Replaying a log through the classifier and the state
    machine gives a context that depends on the log alone: at every
    evaluation time [deriveStatusFromMachine] returns the context the replay
    reached.  The returned state depends on the evaluation time only through
    the threshold band the elapsed time falls in: two evaluations in the same
    band (in particular, at the same time) return identical pairs. *)
Theorem replay_determinism (entries : list LogEntry) (now1 now2 : Z) :
  let c := context (replay createActor entries) in
  snd (deriveStatusFromMachine entries now1) = c
  /\ snd (deriveStatusFromMachine entries now2) = c
  /\ (band (timeSinceActivity now1 c) = band (timeSinceActivity now2 c) ->
      deriveStatusFromMachine entries now1 = deriveStatusFromMachine entries now2).
Proof.
  cbv zeta. unfold deriveStatusFromMachine, deriveActor. cbn [snd].
  rewrite !applyTimeouts_context. repeat split.
  intros Hband. now rewrite (applyTimeouts_band now1 now2).
Qed.

(** The events the engine produces are those [engineEvent] admits, so what
    [deriveStatusFromMachine] returns is always consistent. *)
Lemma classifier_engineEvent a entry e :
  logEntryToEvent entry = Some e -> engineEvent a e = true.
Proof.
  destruct entry as [ts [text|blocks]|ts blocks|ts subtype|]; cbn.
  - now intros [= <-].
  - destruct (0 <? _); [now intros [= <-] |].
    destruct (existsb is_text blocks); [now intros [= <-] | discriminate].
  - destruct (0 <? _) eqn:Hlen; intros [= <-]; [| reflexivity].
    cbn. now rewrite length_map.
  - destruct (_ || _)%bool; [now intros [= <-] | discriminate].
  - discriminate.
Qed.

Lemma replay_consistent entries : forall a,
  consistent (context a) -> consistent (context (replay a entries)).
Proof.
  induction entries as [|entry entries IH]; intros a Hc; [exact Hc |].
  cbn [replay fold_left]. apply IH.
  destruct (logEntryToEvent entry) as [e|] eqn:He; [| exact Hc].
  apply send_consistent; [exact Hc | now apply (classifier_engineEvent a entry)].
Qed.

Lemma deriveStatusFromMachine_consistent entries now :
  consistent (snd (deriveStatusFromMachine entries now)).
Proof.
  unfold deriveStatusFromMachine, deriveActor. cbn [snd].
  rewrite applyTimeouts_context.
  apply replay_consistent, initial_consistent.
Qed.

(** *** The empty log *)

(** C9.  On an empty list of entries [deriveStatus] answers idle, with
    [messageCount = 0], [hasPendingToolUse = false] and an empty
    [lastActivityAt]: the unset [lastActivityAt] counts as time 0, so at any
    clock reading later than 5 minutes past the epoch the idle threshold is
    passed and [IDLE_TIMEOUT] takes the initial [waiting_for_input] to
    [idle]. *)
Theorem deriveStatus_empty (now : Z) :
  300000 < now ->
  lastActivityTime (context createActor) = Some 0
  /\ sent (deriveActor [] now) = [IDLE_TIMEOUT]
  /\ fst (deriveStatusFromMachine [] now) = idle
  /\ deriveStatus [] now
     = {| status := st_idle; lastRole := role_assistant;
          r_hasPendingToolUse := false; r_lastActivityAt := "";
          r_messageCount := 0 |}.
Proof.
  intros Hnow.
  unfold deriveStatus, deriveStatusFromMachine, deriveActor, applyTimeouts,
    timeSinceActivity, lastActivityTime.
  cbn [replay fold_left createActor context value initialContext
       lastActivityAt String.eqb exceeds].
  replace (IDLE_TIMEOUT_MS <? now - 0) with true
    by (symmetry; apply Z.ltb_lt; unfold IDLE_TIMEOUT_MS; lia).
  repeat split.
Qed.

End Determinism.

(** At the clock of a running daemon (here 2023-11-14T22:13:20Z). *)
Lemma deriveStatus_empty_witness :
  300000 < 1700000000000
  /\ lastActivityTime (parser := IsoDate.isoParser) (context createActor) = Some 0
  /\ sent (deriveActor (parser := IsoDate.isoParser) [] 1700000000000) = [IDLE_TIMEOUT]
  /\ fst (deriveStatusFromMachine (parser := IsoDate.isoParser) [] 1700000000000) = idle
  /\ deriveStatus (parser := IsoDate.isoParser) [] 1700000000000
     = {| status := st_idle; lastRole := role_assistant;
          r_hasPendingToolUse := false; r_lastActivityAt := "";
          r_messageCount := 0 |}.
Proof.
  split; [lia |].
  apply (@deriveStatus_empty IsoDate.isoParser 1700000000000). lia.
Defined.

(** C2 (as stated) fails: the same one-record log evaluated one second and
    six minutes after its timestamp gives [working] and then [idle]. *)
Lemma replay_determinism_counterexample :
  deriveStatusFromMachine (parser := IsoDate.isoParser) scenarioB (t0_ms + 1000)
  = (working, {| lastActivityAt := t0; messageCount := 1;
                 hasPendingToolUse := false; pendingToolIds := [] |})
  /\ deriveStatusFromMachine (parser := IsoDate.isoParser) scenarioB (t0_ms + 360000)
     = (idle, {| lastActivityAt := t0; messageCount := 1;
                 hasPendingToolUse := false; pendingToolIds := [] |}).
Proof. split; vm_compute; reflexivity. Qed.

(** Two evaluations within five seconds of the last record agree. *)
Example same_band_same_result :
  deriveStatusFromMachine (parser := IsoDate.isoParser) scenarioB (t0_ms + 1000)
  = deriveStatusFromMachine (parser := IsoDate.isoParser) scenarioB (t0_ms + 4000).
Proof. vm_compute. reflexivity. Qed.

(** Scenarios B to F and the timeout priority, at concrete clock readings. *)
Example scenario_B :
  deriveStatus (parser := IsoDate.isoParser) scenarioB (t0_ms + 1000)
  = {| status := st_working; lastRole := role_assistant;
       r_hasPendingToolUse := false; r_lastActivityAt := t0;
       r_messageCount := 1 |}.
Proof. vm_compute. reflexivity. Qed.

Example scenario_C :
  deriveStatusFromMachine (parser := IsoDate.isoParser) scenarioC (t0_ms + 3000)
  = (working, {| lastActivityAt := t1; messageCount := 2;
                 hasPendingToolUse := true; pendingToolIds := ["toolu_01"] |}).
Proof. vm_compute. reflexivity. Qed.

Example scenario_D :
  deriveStatus (parser := IsoDate.isoParser) scenarioC (t0_ms + 2000 + 6000)
  = {| status := st_waiting; lastRole := role_assistant;
       r_hasPendingToolUse := true; r_lastActivityAt := t1;
       r_messageCount := 2 |}.
Proof. vm_compute. reflexivity. Qed.

Example scenario_E :
  deriveStatus (parser := IsoDate.isoParser) scenarioE (t0_ms + 4000)
  = {| status := st_working; lastRole := role_assistant;
       r_hasPendingToolUse := false; r_lastActivityAt := t2;
       r_messageCount := 3 |}.
Proof. vm_compute. reflexivity. Qed.

Example scenario_F :
  deriveStatus (parser := IsoDate.isoParser) scenarioF (t0_ms + 5000)
  = {| status := st_waiting; lastRole := role_assistant;
       r_hasPendingToolUse := false; r_lastActivityAt := t3;
       r_messageCount := 3 |}.
Proof. vm_compute. reflexivity. Qed.

Example timeout_priority_idle_wins :
  deriveStatus (parser := IsoDate.isoParser) scenarioC (t0_ms + 2000 + 360000)
  = {| status := st_idle; lastRole := role_assistant;
       r_hasPendingToolUse := true; r_lastActivityAt := t1;
       r_messageCount := 2 |}.
Proof. vm_compute. reflexivity. Qed.

End StatusProps.

(** ** Properties of the log reader *)

Module ParserProps.
Import Log Parser.

Section Reader.
Variable parseRecord : list byte -> option LogEntry.

Definition lineBytes (line : list byte) : Prop :=
  Forall (fun b => b <> newline) line.

Lemma is_newline_true b : is_newline b = true <-> b = newline.
Proof.
  unfold is_newline. split; [apply byte_dec_bl | apply byte_dec_lb].
Qed.

Lemma is_newline_false b : is_newline b = false <-> b <> newline.
Proof.
  rewrite <- is_newline_true. destruct (is_newline b); split; congruence.
Qed.

Lemma splitLines_line line rest :
  lineBytes line ->
  splitLines (line ++ newline :: rest)
  = (line :: fst (splitLines rest), snd (splitLines rest)).
Proof.
  induction 1 as [|b line Hb Hline IH]; cbn.
  - now destruct (splitLines rest).
  - rewrite IH. apply is_newline_false in Hb. now rewrite Hb.
Qed.

Lemma splitLines_partial tail :
  lineBytes tail -> splitLines tail = ([], tail).
Proof.
  induction 1 as [|b tail Hb Htail IH]; cbn; [reflexivity |].
  rewrite IH. apply is_newline_false in Hb. now rewrite Hb.
Qed.

Lemma joinLines_cons line lines :
  joinLines (line :: lines) = line ++ newline :: joinLines lines.
Proof. unfold joinLines. cbn. now rewrite <- app_assoc. Qed.

Lemma joinLines_app lines lines' :
  joinLines (lines ++ lines') = joinLines lines ++ joinLines lines'.
Proof. unfold joinLines. now rewrite map_app, concat_app. Qed.

Lemma splitLines_join lines rest :
  Forall lineBytes lines ->
  splitLines (joinLines lines ++ rest)
  = (lines ++ fst (splitLines rest), snd (splitLines rest)).
Proof.
  induction 1 as [|line lines Hline Hlines IH].
  - cbn. now destruct (splitLines rest).
  - rewrite joinLines_cons, <- app_assoc. cbn [app].
    rewrite splitLines_line by exact Hline. now rewrite IH.
Qed.

(** A buffer is its completed lines followed by its partial tail. *)
Lemma splitLines_spec bytes :
  joinLines (fst (splitLines bytes)) ++ snd (splitLines bytes) = bytes
  /\ Forall lineBytes (fst (splitLines bytes))
  /\ lineBytes (snd (splitLines bytes)).
Proof.
  induction bytes as [|b bytes (Hjoin & Hlines & Htail)]; cbn [splitLines].
  - repeat split; constructor.
  - destruct (splitLines bytes) as [lines tail]; cbn [fst snd] in *.
    destruct (is_newline b) eqn:Hb; cbn [fst snd].
    + apply is_newline_true in Hb as ->.
      rewrite joinLines_cons. cbn [app]. rewrite Hjoin.
      repeat split; [constructor; [constructor | exact Hlines] | exact Htail].
    + apply is_newline_false in Hb.
      destruct lines as [|line lines]; cbn [fst snd].
      * cbn in Hjoin. cbn. subst tail.
        repeat split; [constructor | constructor; assumption].
      * rewrite joinLines_cons in *. cbn [app]. rewrite Hjoin.
        inversion Hlines; subst.
        repeat split; [constructor; [constructor |]; assumption | exact Htail].
Qed.

(** What a read returns when it resumes at the end of the lines completed so
    far: the file is [joinLines done ++ rest], the offset is the length of
    [joinLines done]. *)
Lemma tailJSONL_resume done rest :
  tailJSONL parseRecord (joinLines done ++ rest) (List.length (joinLines done))
  = (recordsOf parseRecord rest,
     (List.length (joinLines done)
      + List.length (joinLines (fst (splitLines rest))))%nat).
Proof. unfold tailJSONL, recordsOf. now rewrite drop_app_length. Qed.

Lemma tailJSONL_whole done rest :
  Forall lineBytes done ->
  tailJSONL parseRecord (joinLines done ++ rest) 0
  = (omap parseRecord done ++ recordsOf parseRecord rest,
     (List.length (joinLines done)
      + List.length (joinLines (fst (splitLines rest))))%nat).
Proof.
  intros Hdone. unfold tailJSONL, recordsOf. rewrite skipn_O.
  rewrite (splitLines_join done rest Hdone). cbn [fst].
  now rewrite omap_app, joinLines_app, length_app.
Qed.

Lemma recordsOf_joinLines lines :
  Forall lineBytes lines ->
  recordsOf parseRecord (joinLines lines) = omap parseRecord lines.
Proof.
  intros Hlines. unfold recordsOf.
  rewrite <- (app_nil_r (joinLines lines)).
  rewrite (splitLines_join lines [] Hlines). cbn. now rewrite app_nil_r.
Qed.

Lemma recordsOf_partial tail :
  lineBytes tail -> recordsOf parseRecord tail = [].
Proof. intros Htail. unfold recordsOf. now rewrite splitLines_partial. Qed.

(** The bytes the completed lines of a buffer take. *)
Definition completed (bytes : list byte) : nat :=
  List.length (joinLines (fst (splitLines bytes))).

Lemma completed_partial tail : lineBytes tail -> completed tail = 0%nat.
Proof. intros Htail. unfold completed. now rewrite splitLines_partial. Qed.

(** Appending to a buffer only completes more of it. *)
Lemma completed_app bytes chunk :
  (completed bytes <= completed (bytes ++ chunk))%nat.
Proof.
  unfold completed.
  destruct (splitLines_spec bytes) as (Hjoin & Hlines & _).
  rewrite <- Hjoin at 2. rewrite <- app_assoc.
  rewrite (splitLines_join _ _ Hlines). cbn [fst].
  rewrite joinLines_app, length_app. lia.
Qed.

(** Each read returns a position that is not below the one before it
    ([floor] for the first). *)
Fixpoint ascending (floor : nat) (reads : list Read) : Prop :=
  match reads with
  | [] => True
  | r :: reads => (floor <= newPosition r)%nat /\ ascending (newPosition r) reads
  end.

(** Each read starts at the offset the watcher or the loop resumed at, and
    ends at or after it. *)
Fixpoint resumed (keepOnEmpty : bool) (offset : nat) (reads : list Read) : Prop :=
  match reads with
  | [] => True
  | r :: reads =>
      fromByte r = offset /\ (offset <= newPosition r)%nat
      /\ resumed keepOnEmpty
           (resumeAt keepOnEmpty offset (entries r) (newPosition r)) reads
  end.

(** The position the last read returned ([start] when there was none). *)
Definition lastPosition (start : nat) (reads : list Read) : nat :=
  fold_left (fun _ r => newPosition r) reads start.

Lemma ascending_next reads : forall floor i r r',
  ascending floor reads -> reads !! i = Some r -> reads !! S i = Some r' ->
  (newPosition r <= newPosition r')%nat.
Proof.
  induction reads as [|r0 reads IH]; intros floor i r r' Hasc Hi Hi';
    [easy |].
  destruct Hasc as (Hfloor & Hasc). destruct i as [|i].
  - cbn in Hi, Hi'. injection Hi as <-.
    destruct reads as [|r1 reads]; [easy |]. cbn in Hi'. injection Hi' as <-.
    now destruct Hasc.
  - cbn in Hi, Hi'. eapply IH; eauto.
Qed.

Lemma resumed_next keepOnEmpty reads : forall offset i r r',
  resumed keepOnEmpty offset reads ->
  reads !! i = Some r -> reads !! S i = Some r' ->
  fromByte r' = resumeAt keepOnEmpty (fromByte r) (entries r) (newPosition r).
Proof.
  induction reads as [|r0 reads IH]; intros offset i r r' Hres Hi Hi';
    [easy |].
  destruct Hres as (Hfrom & Hle & Hres). destruct i as [|i].
  - cbn in Hi, Hi'. injection Hi as <-.
    destruct reads as [|r1 reads]; [easy |]. cbn in Hi'. injection Hi' as <-.
    destruct Hres as (Hfrom' & _). now rewrite Hfrom.
  - cbn in Hi, Hi'. eapply IH; eauto.
Qed.

Lemma resumed_forward keepOnEmpty reads : forall offset r,
  resumed keepOnEmpty offset reads -> In r reads ->
  (fromByte r <= newPosition r)%nat.
Proof.
  induction reads as [|r0 reads IH]; intros offset r Hres Hin; [easy |].
  destruct Hres as (Hfrom & Hle & Hres). destruct Hin as [<- | Hin].
  - lia.
  - eapply IH; eauto.
Qed.

(** The reads of a file that so far is [joinLines done ++ rest], resumed at
    the end of [done], where [rest] holds no record yet. *)
Lemma incrementalReads_from keepOnEmpty appends :
  forall done rest content offset floor,
  Forall lineBytes done -> recordsOf parseRecord rest = [] ->
  content = joinLines done ++ rest ->
  offset = List.length (joinLines done) ->
  (floor <= offset + completed rest)%nat ->
  let reads := incrementalReads parseRecord keepOnEmpty content offset appends in
  let file := content ++ concat appends in
  ascending floor reads
  /\ resumed keepOnEmpty offset reads
  /\ omap parseRecord done ++ concat (map entries reads)
     = fst (tailJSONL parseRecord file 0)
  /\ lastPosition (offset + completed rest) reads
     = snd (tailJSONL parseRecord file 0)
  /\ Forall (fun r => entries r
                      = recordsOf parseRecord
                          (slice file (fromByte r) (newPosition r))) reads.
Proof.
  induction appends as [|chunk appends IH];
    intros done rest content offset floor Hdone Hrest -> -> Hfloor; cbv zeta.
  - cbn [incrementalReads concat map ascending resumed lastPosition fold_left].
    rewrite !app_nil_r, (tailJSONL_whole done rest Hdone), Hrest, app_nil_r.
    repeat split. constructor.
  - cbn [incrementalReads concat].
    rewrite <- (app_assoc (joinLines done) rest chunk).
    rewrite tailJSONL_resume.
    destruct (splitLines_spec (rest ++ chunk)) as (Hjoin & Hlines & Htail).
    fold (completed (rest ++ chunk)).
    set (lines := fst (splitLines (rest ++ chunk))) in *.
    set (tail := snd (splitLines (rest ++ chunk))) in *.
    set (batch := recordsOf parseRecord (rest ++ chunk)).
    set (position := (List.length (joinLines done) + completed (rest ++ chunk))%nat).
    assert (batch = omap parseRecord lines) as Hbatch by reflexivity.
    assert (completed (rest ++ chunk) = List.length (joinLines lines))
      as Hcompleted by reflexivity.
    pose proof (completed_app rest chunk) as Hgrow.
    (* the slice of this read, in the whole file *)
    assert (batch
            = recordsOf parseRecord
                (slice ((joinLines done ++ rest ++ chunk) ++ concat appends)
                   (List.length (joinLines done)) position)) as Hslice.
    { unfold slice, position. rewrite Hcompleted.
      replace (List.length (joinLines done) + List.length (joinLines lines)
               - List.length (joinLines done))%nat
        with (List.length (joinLines lines)) by lia.
      rewrite <- !app_assoc, drop_app_length, (app_assoc rest chunk), <- Hjoin.
      rewrite <- !app_assoc, take_app_length.
      now rewrite recordsOf_joinLines. }
    assert (resumeAt keepOnEmpty (List.length (joinLines done)) batch position
            = position
            \/ (batch = []
                /\ resumeAt keepOnEmpty (List.length (joinLines done)) batch
                     position = List.length (joinLines done))) as [Hadv | [Hempty Hkeep]].
    { unfold resumeAt. destruct batch; [| now left].
      destruct keepOnEmpty; [right | left]; auto. }
    + (* the next read resumes at the returned position *)
      rewrite Hadv.
      assert (Forall lineBytes (done ++ lines)) as Hdone'
        by (apply Forall_app; now split).
      assert (joinLines done ++ rest ++ chunk = joinLines (done ++ lines) ++ tail)
        as Hcontent by (now rewrite joinLines_app, <- app_assoc, Hjoin).
      assert (position = List.length (joinLines (done ++ lines))) as Hoffset
        by (unfold position; rewrite Hcompleted, joinLines_app, length_app; lia).
      specialize (IH (done ++ lines) tail (joinLines done ++ rest ++ chunk)
                    position position Hdone' (recordsOf_partial tail Htail)
                    Hcontent Hoffset ltac:(lia)).
      cbv zeta in IH. rewrite (completed_partial tail Htail), Nat.add_0_r in IH.
      destruct IH as (Hasc & Hres & Hall & Hlast & Hslices).
      repeat rewrite <- app_assoc in Hall.
      repeat rewrite <- app_assoc in Hlast.
      repeat rewrite <- app_assoc in Hslices.
      repeat rewrite <- app_assoc in Hslice.
      repeat rewrite <- app_assoc.
      cbn [ascending resumed map concat entries fromByte newPosition
           lastPosition fold_left].
      rewrite Hadv.
      repeat split; try assumption; try (unfold position; lia).
      * rewrite <- Hall, omap_app, <- app_assoc, Hbatch. reflexivity.
      * constructor; [exact Hslice | exact Hslices].
    + (* the read returned no entry and the offset is kept *)
      rewrite Hkeep.
      assert (joinLines done ++ rest ++ chunk = joinLines done ++ (rest ++ chunk))
        as Hcontent by reflexivity.
      specialize (IH done (rest ++ chunk) (joinLines done ++ rest ++ chunk)
                    (List.length (joinLines done)) position Hdone Hempty
                    Hcontent eq_refl ltac:(unfold position; lia)).
      cbv zeta in IH. destruct IH as (Hasc & Hres & Hall & Hlast & Hslices).
      repeat rewrite <- app_assoc in Hall.
      repeat rewrite <- app_assoc in Hlast.
      repeat rewrite <- app_assoc in Hslices.
      repeat rewrite <- app_assoc in Hslice.
      repeat rewrite <- app_assoc.
      cbn [ascending resumed map concat entries fromByte newPosition
           lastPosition fold_left].
      rewrite Hkeep.
      repeat split; try assumption; try (unfold position; lia).
      * rewrite Hempty. exact Hall.
      * constructor; [exact Hslice | exact Hslices].
Qed.

(** C7.  Over any sequence of appends to a log file, read after each append
    from offset 0 at first and then from where the reads resume (the offset
    the previous read returned or, as the watcher does, the offset it started
    from when it returned no entry): the offset every read returns is not
    below the offset the read before it returned, nor below the offset it
    started from; each read's batch is the parse of exactly the bytes between
    its two offsets; the batches, concatenated, are the records of a single
    pass over the whole file from offset 0, so that no record is returned
    twice; and the last offset returned is the offset of that single pass. *)
Theorem offset_monotonicity_split_invariance
  (keepOnEmpty : bool) (appends : list (list byte)) :
  let reads := incrementalReads parseRecord keepOnEmpty [] 0 appends in
  let file := concat appends in
  (forall i r r', reads !! i = Some r -> reads !! S i = Some r' ->
     (newPosition r <= newPosition r')%nat
     /\ fromByte r'
        = resumeAt keepOnEmpty (fromByte r) (entries r) (newPosition r))
  /\ Forall (fun r => (fromByte r <= newPosition r)%nat
                      /\ entries r
                         = recordsOf parseRecord
                             (slice file (fromByte r) (newPosition r))) reads
  /\ concat (map entries reads) = fst (tailJSONL parseRecord file 0)
  /\ lastPosition 0 reads = snd (tailJSONL parseRecord file 0).
Proof.
  cbv zeta.
  pose proof (incrementalReads_from keepOnEmpty appends [] [] [] 0%nat 0%nat
                (List.Forall_nil _) eq_refl eq_refl eq_refl (Nat.le_0_l _))
    as (Hasc & Hres & Hall & Hlast & Hslices).
  cbv zeta in *. cbn [app omap] in *.
  split; [| split; [| split]].
  - intros i r r' Hi Hi'. split.
    + eapply ascending_next; eauto.
    + eapply resumed_next; eauto.
  - apply List.Forall_forall. intros r Hr. split.
    + eapply resumed_forward; eauto.
    + rewrite List.Forall_forall in Hslices. now apply Hslices.
  - exact Hall.
  - exact Hlast.
Qed.

End Reader.

(** *** A file written in three pieces

    For the example a line is a record when it is [{}], the empty object. *)

Definition emptyObject (line : list byte) : option LogEntry :=
  match line with
  | [b1; b2] => if Byte.eqb b1 x7b && Byte.eqb b2 x7d then Some OtherEntry else None
  | _ => None
  end.

Definition text (s : string) : list byte := list_byte_of_string s.

(** A record and the start of the next; its end, a malformed line and a
    third record without its newline; the newline. *)
Definition threeAppends : list (list byte) :=
  [text "{}" ++ [newline] ++ text "{";
   text "}" ++ [newline] ++ text "oops" ++ [newline] ++ text "{}";
   [newline]].

Example reads_of_threeAppends :
  incrementalReads emptyObject false [] 0 threeAppends
  = [{| fromByte := 0; entries := [OtherEntry]; newPosition := 3 |};
     {| fromByte := 3; entries := [OtherEntry]; newPosition := 11 |};
     {| fromByte := 11; entries := [OtherEntry]; newPosition := 14 |}].
Proof. reflexivity. Qed.

Example single_pass_of_threeAppends :
  tailJSONL emptyObject (concat threeAppends) 0
  = ([OtherEntry; OtherEntry; OtherEntry], 14%nat).
Proof. reflexivity. Qed.

(** With the watcher's policy a read without entries does not move the
    offset: the malformed line is read again, the records are not. *)
Example reads_keeping_offset :
  incrementalReads emptyObject true [] 0
    [text "{}" ++ [newline]; text "oops" ++ [newline]; text "{}" ++ [newline]]
  = [{| fromByte := 0; entries := [OtherEntry]; newPosition := 3 |};
     {| fromByte := 3; entries := []; newPosition := 8 |};
     {| fromByte := 3; entries := [OtherEntry]; newPosition := 11 |}].
Proof. reflexivity. Qed.

End ParserProps.

(** ** Properties of the watcher *)

Module WatcherProps.
Import Log StatusMachine Status Watcher.

Section Handlers.
Context {parser : DateParser}.
Variable extractSessionId : string -> string.
Variable extractEncodedDir : string -> string.
Variable extractMetadata : list LogEntry -> option SessionMetadata.
Variable PENDING_PERMISSIONS_DIR : string.

Local Abbreviation handleFile :=
  (Watcher.handleFile extractSessionId extractEncodedDir extractMetadata
     PENDING_PERMISSIONS_DIR).
Local Abbreviation handle :=
  (Watcher.handle extractSessionId extractEncodedDir extractMetadata
     PENDING_PERMISSIONS_DIR).
Local Abbreviation run :=
  (Watcher.run extractSessionId extractEncodedDir extractMetadata
     PENDING_PERMISSIONS_DIR).

(** The pending permissions a pass of [handleFile] leaves: the session's
    entry is dropped when a new entry holds a tool result. *)
Definition pendingAfter (w : WatcherState) (id : string)
  (newEntries : list LogEntry) : gmap string PendingPermission :=
  if existsb entryHasToolResult newEntries
  then delete id (pendingPermissions w)
  else pendingPermissions w.

(** The status a pass of [handleFile] stores: the derived one, overridden
    when a permission is still pending for the session. *)
Definition storedStatus (pending : gmap string PendingPermission) (id : string)
  (allEntries : list LogEntry) (now : Z) : StatusResult :=
  match pending !! id with
  | Some _ => overrideStatus (deriveStatus allEntries now)
  | None => deriveStatus allEntries now
  end.

(** The entries a pass of [handleFile] accumulates. *)
Definition allEntriesOf (w : WatcherState) (id : string)
  (newEntries : list LogEntry) : list LogEntry :=
  match sessions w !! id with
  | Some s => entries s ++ newEntries
  | None => newEntries
  end.

(** What a pass of [handleFile] that gets as far as storing a session does. *)
Record Stored (w : WatcherState) (filepath : string) (now : Z)
  (getGitInfoCached : string -> GitInfo)
  (newEntries : list LogEntry) (newPosition : nat)
  (w' : WatcherState) (effects : list Effect)
  (stored : SessionState) : Prop := mkStored {
  stored_fresh :
    sessions w !! extractSessionId filepath = None \/ newEntries <> [];
  stored_state :
    w' = {| sessions := <[extractSessionId filepath := stored]> (sessions w);
            pendingPermissions :=
              pendingAfter w (extractSessionId filepath) newEntries |};
  stored_sessionId : sessionId stored = extractSessionId filepath;
  stored_entries :
    entries stored = allEntriesOf w (extractSessionId filepath) newEntries;
  stored_position : bytePosition stored = newPosition;
  stored_permission :
    pendingPermission stored
    = pendingAfter w (extractSessionId filepath) newEntries
        !! extractSessionId filepath;
  stored_status :
    status stored
    = storedStatus (pendingAfter w (extractSessionId filepath) newEntries)
        (extractSessionId filepath)
        (allEntriesOf w (extractSessionId filepath) newEntries) now;
  stored_published :
    published effects =
      match sessions w !! extractSessionId filepath with
      | None =>
          [{| type := created; session := stored; previousStatus := None |}]
      | Some s =>
          if statusChanged (Some (status s)) (status stored)
             || (r_messageCount (status s) <? r_messageCount (status stored))
             || negb (option_string_eqb
                        (branch (getGitInfoCached (cwd s))) (gitBranch s))
          then [{| type := updated; session := stored;
                   previousStatus := Some (status s) |}]
          else []
      end
}.

Lemma delete_absent (pending : gmap string PendingPermission) id :
  pending !! id = None -> delete id pending = pending.
Proof. apply delete_id. Qed.

Lemma published_app effects effects' :
  published (effects ++ effects') = published effects ++ published effects'.
Proof. apply omap_app. Qed.

(** A pass of [handleFile] either leaves the watcher as it was and publishes
    nothing, or stores a session as [Stored] says. *)
Lemma handleFile_cases tailJSONL getGitInfoCached now w filepath :
  let id := extractSessionId filepath in
  let fromByte :=
    match sessions w !! id with Some s => bytePosition s | None => 0%nat end in
  let result := handleFile tailJSONL getGitInfoCached now w filepath in
  (result.1 = w /\ published result.2 = []
   /\ (tailJSONL filepath fromByte = TailENOENT
       \/ tailJSONL filepath fromByte = TailFailed
       \/ (exists newPosition,
             tailJSONL filepath fromByte = TailRead [] newPosition
             /\ is_Some (sessions w !! id))
       \/ (exists newEntries newPosition,
             tailJSONL filepath fromByte = TailRead newEntries newPosition
             /\ sessions w !! id = None
             /\ extractMetadata newEntries = None)))
  \/ (exists newEntries newPosition,
        tailJSONL filepath fromByte = TailRead newEntries newPosition
        /\ (is_Some (sessions w !! id) \/ is_Some (extractMetadata newEntries))
        /\ exists session,
             Stored w filepath now getGitInfoCached newEntries newPosition
               result.1 result.2 session).
Proof.
  cbv zeta. unfold Watcher.handleFile.
  set (id := extractSessionId filepath).
  destruct (tailJSONL filepath _) as [newEntries newPosition| |] eqn:Htail;
    [| left; cbn; auto | left; cbn; auto 6].
  destruct (sessions w !! id) as [s|] eqn:Hs.
  - (* an existing session *)
    destruct newEntries as [|entry newEntries].
    { left. cbn. repeat split. right; right; left. eauto. }
    right. exists (entry :: newEntries), newPosition.
    split; [reflexivity |]. split; [left; eauto |].
    cbn [List.length Nat.eqb andb].
    set (newEntries' := entry :: newEntries).
    unfold clearPendingPermission.
    destruct (existsb entryHasToolResult newEntries') eqn:Htool;
      destruct (pendingPermissions w !! id) as [p|] eqn:Hp; cbn [andb];
      rewrite ?bool_decide_eq_true_2 by eauto;
      rewrite ?bool_decide_eq_false_2 by (intros [? [=]]);
      cbn [andb fst snd pendingPermissions sessions];
      rewrite ?lookup_delete_eq, ?Hp;
      match goal with
      | |- context [if ?b then (_, ?eff ++ _) else (_, ?eff)] =>
          destruct b eqn:Hemit
      end;
      cbn [fst snd];
      (eexists; eapply mkStored;
       [ right; discriminate
       | unfold pendingAfter; fold id; rewrite Htool;
         rewrite ?(delete_absent _ _ Hp); reflexivity
       | reflexivity
       | unfold allEntriesOf; fold id; rewrite Hs; reflexivity
       | reflexivity
       | unfold pendingAfter; fold id; rewrite Htool;
         rewrite ?lookup_delete_eq, ?Hp; reflexivity
       | unfold storedStatus, pendingAfter, allEntriesOf; fold id;
         rewrite Htool, Hs;
         rewrite ?lookup_delete_eq, ?Hp; reflexivity
       | fold id; rewrite Hs; rewrite ?published_app; cbn;
         cbn in Hemit; rewrite Hemit; reflexivity ]).
  - (* no session yet *)
    cbn [bool_decide andb].
    rewrite bool_decide_eq_false_2 by (intros [? [=]]).
    rewrite andb_false_r.
    destruct (extractMetadata newEntries) as [metadata|] eqn:Hmeta.
    2:{ left. cbn. repeat split. right; right; right. eauto. }
    right. exists newEntries, newPosition.
    split; [reflexivity |]. split; [right; eauto |].
    unfold clearPendingPermission.
    destruct (existsb entryHasToolResult newEntries) eqn:Htool;
      destruct (pendingPermissions w !! id) as [p|] eqn:Hp; cbn [andb];
      rewrite ?bool_decide_eq_true_2 by eauto;
      rewrite ?bool_decide_eq_false_2 by (intros [? [=]]);
      cbn [andb fst snd pendingPermissions sessions];
      rewrite ?lookup_delete_eq, ?Hp;
      (eexists; eapply mkStored;
       [ left; fold id; exact Hs
       | unfold pendingAfter; fold id; rewrite Htool;
         rewrite ?(delete_absent _ _ Hp); reflexivity
       | reflexivity
       | unfold allEntriesOf; fold id; rewrite Hs; reflexivity
       | reflexivity
       | unfold pendingAfter; fold id; rewrite Htool;
         rewrite ?lookup_delete_eq, ?Hp; reflexivity
       | unfold storedStatus, pendingAfter, allEntriesOf; fold id;
         rewrite Htool, Hs;
         rewrite ?lookup_delete_eq, ?Hp; reflexivity
       | fold id; rewrite Hs; rewrite ?published_app; reflexivity ]).
Qed.

(** *** The overlay invariant *)

(** The overlaid status: waiting, with a pending tool use. *)
Definition overlaid (st : StatusResult) : Prop :=
  StatusMachine.status st = st_waiting /\ r_hasPendingToolUse st = true.

(** Every session carries the permission the watcher holds for its id, and
    is shown overlaid while there is one. *)
Definition coherent (w : WatcherState) : Prop :=
  forall id s, sessions w !! id = Some s ->
    pendingPermission s = pendingPermissions w !! id
    /\ (is_Some (pendingPermissions w !! id) -> overlaid (status s)).

Lemma overrideStatus_overlaid st : overlaid (overrideStatus st).
Proof. split; reflexivity. Qed.

Lemma coherent_new : coherent newWatcher.
Proof. intros id s Hs. cbn in Hs. now rewrite lookup_empty in Hs. Qed.

Lemma pendingAfter_other w id id' newEntries :
  id <> id' -> pendingAfter w id newEntries !! id' = pendingPermissions w !! id'.
Proof.
  intros Hne. unfold pendingAfter.
  destruct (existsb entryHasToolResult newEntries); [| reflexivity].
  now apply lookup_delete_ne.
Qed.

Lemma storedStatus_overlaid pending id allEntries now :
  is_Some (pending !! id) -> overlaid (storedStatus pending id allEntries now).
Proof.
  intros [p Hp]. unfold storedStatus. rewrite Hp. apply overrideStatus_overlaid.
Qed.

Lemma handleFile_coherent tailJSONL getGitInfoCached now w filepath :
  coherent w ->
  coherent (handleFile tailJSONL getGitInfoCached now w filepath).1.
Proof.
  intros Hw.
  destruct (handleFile_cases tailJSONL getGitInfoCached now w filepath)
    as [(-> & _) | (newEntries & newPosition & _ & _ & session & Hst)];
    [exact Hw |].
  destruct Hst as [_ Hstate _ _ _ Hperm Hstatus _]. rewrite Hstate.
  intros id s. cbn [sessions pendingPermissions].
  destruct (decide (extractSessionId filepath = id)) as [<- | Hne].
  - rewrite lookup_insert_eq. intros [= <-]. split; [exact Hperm |].
    rewrite Hstatus. apply storedStatus_overlaid.
  - rewrite lookup_insert_ne by exact Hne.
    rewrite pendingAfter_other by exact Hne. apply Hw.
Qed.

Lemma handlePendingPermission_coherent readPermission w filepath :
  coherent w ->
  coherent (handlePendingPermission readPermission w filepath).1.
Proof.
  intros Hw. unfold handlePendingPermission.
  destruct (readPermission filepath) as [permission|]; [| exact Hw].
  destruct (String.eqb (session_id permission) ""); [exact Hw |].
  destruct (sessions w !! session_id permission) as [session|] eqn:Hsession;
    intros id s; cbn [fst sessions pendingPermissions].
  - destruct (decide (session_id permission = id)) as [<- | Hne].
    + rewrite !lookup_insert_eq. intros [= <-]. cbn.
      split; [reflexivity | intros _; apply overrideStatus_overlaid].
    + rewrite !lookup_insert_ne by exact Hne. apply Hw.
  - destruct (decide (session_id permission = id)) as [<- | Hne].
    + congruence.
    + rewrite lookup_insert_ne by exact Hne. apply Hw.
Qed.

Lemma handlePendingPermissionRemoved_coherent now w filepath :
  coherent w ->
  coherent (handlePendingPermissionRemoved now w filepath).1.
Proof.
  intros Hw. unfold handlePendingPermissionRemoved.
  set (removed := permissionFileSessionId filepath).
  destruct (String.eqb removed ""); [exact Hw |].
  destruct (sessions w !! removed) as [session|] eqn:Hsession.
  - destruct (pendingPermission session) as [p|] eqn:Hp;
      intros id s; cbn [fst sessions pendingPermissions];
      (destruct (decide (removed = id)) as [<- | Hne];
       [ rewrite ?lookup_insert_eq, lookup_delete_eq
       | rewrite ?lookup_insert_ne, lookup_delete_ne by exact Hne; apply Hw ]).
    + intros [= <-]. cbn. split; [reflexivity | intros [? [=]]].
    + rewrite Hsession. intros [= <-]. split; [exact Hp | intros [? [=]]].
  - intros id s; cbn [fst sessions pendingPermissions].
    destruct (decide (removed = id)) as [<- | Hne]; [congruence |].
    rewrite lookup_delete_ne by exact Hne. apply Hw.
Qed.

Lemma status_eqb_eq a b : status_eqb a b = true <-> a = b.
Proof. destruct a, b; cbn; split; congruence. Qed.

Lemma staleCheck_working now s s' :
  staleCheck now s = Some s' ->
  StatusMachine.status (status s) = st_working
  /\ s' = updateSession s (deriveStatus (entries s) now) (pendingPermission s).
Proof.
  unfold staleCheck.
  destruct (status_eqb _ st_working) eqn:Hworking; [| discriminate].
  destruct (statusChanged _ _); [| discriminate].
  intros [= <-]. split; [now apply status_eqb_eq | reflexivity].
Qed.

Lemma checkStaleSessions_coherent clock w :
  coherent w -> coherent (checkStaleSessions clock w).1.
Proof.
  intros Hw id s'. cbn [fst checkStaleSessions sessions pendingPermissions].
  rewrite map_lookup_imap.
  destruct (sessions w !! id) as [s|] eqn:Hs; [| discriminate].
  cbn. intros [= <-]. destruct (Hw id s Hs) as [Hperm Hover].
  destruct (staleCheck (clock id) s) as [s'|] eqn:Hstale; cbn;
    [| now split].
  apply staleCheck_working in Hstale as [Hworking ->]. cbn.
  split; [exact Hperm |].
  intros Hsome. destruct (Hover Hsome) as [Hwaiting _]. congruence.
Qed.

Lemma handleDelete_coherent w filepath :
  coherent w -> coherent (handleDelete extractSessionId w filepath).1.
Proof.
  intros Hw. unfold handleDelete.
  destruct (sessions w !! extractSessionId filepath) as [session|];
    [| exact Hw].
  intros id s. cbn [fst sessions pendingPermissions].
  destruct (decide (extractSessionId filepath = id)) as [<- | Hne].
  - now rewrite lookup_delete_eq.
  - rewrite lookup_delete_ne by exact Hne. apply Hw.
Qed.

Lemma handle_coherent w n : coherent w -> coherent (handle w n).1.
Proof.
  destruct n; cbn [Watcher.handle].
  - apply handleFile_coherent.
  - apply handleDelete_coherent.
  - apply handlePendingPermission_coherent.
  - apply handlePendingPermissionRemoved_coherent.
  - apply checkStaleSessions_coherent.
Qed.

Lemma run_coherent ns : forall w, coherent w -> coherent (run w ns).1.
Proof.
  induction ns as [|n ns IH]; intros w Hw; cbn [Watcher.run].
  - exact Hw.
  - pose proof (handle_coherent w n Hw) as Hstep.
    destruct (handle w n) as [w1 effects1]. cbn [fst] in Hstep.
    specialize (IH w1 Hstep).
    destruct (run w1 ns) as [w2 effects2]. exact IH.
Qed.

(** *** Permission overlay *)

Lemma existsb_filter {A} (f : A -> bool) (l : list A) :
  existsb f l = true <-> List.filter f l <> [].
Proof.
  induction l as [|x l IH]; cbn.
  - split; [discriminate | congruence].
  - destruct (f x); cbn; [split; [discriminate | reflexivity] | exact IH].
Qed.

(** The watcher's own test for a tool result agrees with the classifier. *)
Lemma entryHasToolResult_event entry :
  entryHasToolResult entry = true <->
  exists ts ids, logEntryToEvent entry = Some (TOOL_RESULT ts ids).
Proof.
  destruct entry as [ts [text|blocks]|ts blocks|ts subtype|]; cbn;
    try (split; [discriminate | intros (? & ? & ?); discriminate]).
  - rewrite length_map.
    destruct (List.filter is_tool_result blocks) as [|b bs] eqn:Hfilter.
    + assert (existsb is_tool_result blocks = false) as ->.
      { destruct (existsb is_tool_result blocks) eqn:Hex; [| reflexivity].
        apply existsb_filter in Hex. congruence. }
      cbn. split; [discriminate |].
      destruct (existsb is_text blocks); intros (? & ? & ?); discriminate.
    + assert (existsb is_tool_result blocks = true) as ->.
      { apply existsb_filter. congruence. }
      cbn. split; [eauto | reflexivity].
  - destruct (0 <? _); split; try discriminate;
      intros (? & ? & ?); discriminate.
  - destruct (_ || _)%bool; split; try discriminate;
      intros (? & ? & ?); discriminate.
Qed.

(** C5.  In every state the watcher reaches, a session for which a
    permission is pending is shown waiting with [hasPendingToolUse = true],
    whatever the machine derives.  Removing the permission file, or a pass of
    [handleFile] whose new entries hold a [TOOL_RESULT] event, drops the
    pending permission and stores the machine-derived status again. *)
Theorem permission_overlay_precedence (ns : list Notification) :
  let w := (run newWatcher ns).1 in
  (forall id s p,
     sessions w !! id = Some s -> pendingPermissions w !! id = Some p ->
     pendingPermission s = Some p
     /\ StatusMachine.status (status s) = st_waiting
     /\ r_hasPendingToolUse (status s) = true)
  /\ (forall filepath now id s p,
        permissionFileSessionId filepath = id -> id <> "" ->
        sessions w !! id = Some s -> pendingPermissions w !! id = Some p ->
        let result := handlePendingPermissionRemoved now w filepath in
        pendingPermissions result.1 !! id = None
        /\ exists s',
             sessions result.1 !! id = Some s'
             /\ pendingPermission s' = None
             /\ status s' = deriveStatus (entries s) now
             /\ published result.2
                = [{| type := updated; session := s';
                      previousStatus := Some (status s) |}])
  /\ (forall filepath tailJSONL getGitInfoCached now s newEntries newPosition
             entry ts ids,
        let id := extractSessionId filepath in
        sessions w !! id = Some s ->
        tailJSONL filepath (bytePosition s) = TailRead newEntries newPosition ->
        In entry newEntries ->
        logEntryToEvent entry = Some (TOOL_RESULT ts ids) ->
        let result := handleFile tailJSONL getGitInfoCached now w filepath in
        pendingPermissions result.1 !! id = None
        /\ exists s',
             sessions result.1 !! id = Some s'
             /\ pendingPermission s' = None
             /\ status s' = deriveStatus (entries s ++ newEntries) now).
Proof.
  cbv zeta. pose proof (run_coherent ns newWatcher coherent_new) as Hw.
  set (w := (run newWatcher ns).1) in *.
  split; [| split].
  - intros id s p Hs Hp. destruct (Hw id s Hs) as [Hperm Hover].
    rewrite Hperm, Hp. split; [reflexivity |]. apply Hover. eauto.
  - intros filepath now id s p <- Hne Hs Hp.
    destruct (Hw _ s Hs) as [Hperm _]. rewrite Hp in Hperm.
    unfold handlePendingPermissionRemoved.
    apply String.eqb_neq in Hne. rewrite Hne, Hs, Hperm.
    cbn [fst snd sessions pendingPermissions].
    rewrite lookup_delete_eq, lookup_insert_eq.
    split; [reflexivity |]. eexists. repeat split.
  - intros filepath tailJSONL getGitInfoCached now s newEntries newPosition
      entry ts ids Hs Htail Hin Hevent.
    assert (existsb entryHasToolResult newEntries = true) as Htool.
    { apply existsb_exists. exists entry. split; [exact Hin |].
      apply entryHasToolResult_event. eauto. }
    destruct (handleFile_cases tailJSONL getGitInfoCached now w filepath)
      as [(_ & _ & Hnoop) | (newEntries' & newPosition' & Htail' & _ & s' & Hst)];
      cbv zeta in *; rewrite Hs in *.
    + exfalso. rewrite Htail in Hnoop.
      destruct Hnoop
        as [Hn | [Hn | [(pos & Hn & _) | (es & pos & _ & Hn & _)]]];
        try discriminate Hn.
      injection Hn as -> _. destruct Hin.
    + rewrite Htail in Htail'. injection Htail' as <- <-.
      destruct Hst as [_ Hstate _ Hentries _ Hperm Hstatus _].
      unfold pendingAfter in *. rewrite Htool in *.
      rewrite lookup_delete_eq in Hperm.
      unfold storedStatus in Hstatus. rewrite lookup_delete_eq in Hstatus.
      unfold allEntriesOf in Hstatus. rewrite Hs in Hstatus.
      rewrite Hstate. cbn [sessions pendingPermissions].
      rewrite lookup_delete_eq, lookup_insert_eq.
      split; [reflexivity |]. exists s'. repeat split; assumption.
Qed.

(** *** Notifications *)

(** A change [statusChanged] counts as meaningful. *)
Definition statusDiffers (prev next : StatusResult) : Prop :=
  StatusMachine.status prev <> StatusMachine.status next
  \/ lastRole prev <> lastRole next
  \/ r_hasPendingToolUse prev <> r_hasPendingToolUse next.

Lemma role_eqb_eq a b : role_eqb a b = true <-> a = b.
Proof. destruct a, b; cbn; split; congruence. Qed.

Lemma statusChanged_differs prev next :
  statusChanged (Some prev) next = true <-> statusDiffers prev next.
Proof.
  unfold statusChanged, statusDiffers.
  rewrite !orb_true_iff, !negb_true_iff.
  rewrite <- !not_true_iff_false, status_eqb_eq, role_eqb_eq, Bool.eqb_true_iff.
  tauto.
Qed.

Lemma option_string_eqb_eq a b : option_string_eqb a b = true <-> a = b.
Proof.
  destruct a as [x|], b as [y|]; cbn; try (split; congruence).
  rewrite String.eqb_eq. split; congruence.
Qed.

(** The condition under which [handleFile] publishes an update. *)
Definition worthPublishing (getGitInfoCached : string -> GitInfo)
  (s s' : SessionState) : Prop :=
  statusDiffers (status s) (status s')
  \/ r_messageCount (status s) < r_messageCount (status s')
  \/ branch (getGitInfoCached (cwd s)) <> gitBranch s.

Lemma worthPublishing_bool getGitInfoCached s s' :
  statusChanged (Some (status s)) (status s')
  || (r_messageCount (status s) <? r_messageCount (status s'))
  || negb (option_string_eqb (branch (getGitInfoCached (cwd s))) (gitBranch s))
  = true
  <-> worthPublishing getGitInfoCached s s'.
Proof.
  unfold worthPublishing.
  rewrite !orb_true_iff, statusChanged_differs, Z.ltb_lt, negb_true_iff.
  rewrite <- not_true_iff_false, option_string_eqb_eq. tauto.
Qed.

(** C8.  A pass of [handleFile] over an existing session that reads no new
    entry changes nothing and has no effect; one that reads new entries
    publishes exactly one updated event when the status changed, the message
    count grew or the branch changed, and nothing otherwise; and a created
    event is published exactly when the pass adds a session that was not in
    the registry. *)
Theorem notification_suppression
  (tailJSONL : string -> nat -> TailOutcome)
  (getGitInfoCached : string -> GitInfo) (now : Z)
  (w : WatcherState) (filepath : string) :
  let id := extractSessionId filepath in
  let result := handleFile tailJSONL getGitInfoCached now w filepath in
  (forall s newPosition,
     sessions w !! id = Some s ->
     tailJSONL filepath (bytePosition s) = TailRead [] newPosition ->
     result = (w, []))
  /\ (forall s newEntries newPosition,
        sessions w !! id = Some s ->
        tailJSONL filepath (bytePosition s) = TailRead newEntries newPosition ->
        newEntries <> [] ->
        exists s',
          sessions result.1 !! id = Some s'
          /\ ((worthPublishing getGitInfoCached s s'
               /\ published result.2
                  = [{| type := updated; session := s';
                        previousStatus := Some (status s) |}])
              \/ (~ worthPublishing getGitInfoCached s s'
                  /\ published result.2 = [])))
  /\ ((exists ev, In ev (published result.2) /\ type ev = created)
      <-> (sessions w !! id = None /\ is_Some (sessions result.1 !! id)))
  /\ (forall ev, In ev (published result.2) ->
        type ev = created \/ type ev = updated).
Proof.
  cbv zeta.
  pose proof (handleFile_cases tailJSONL getGitInfoCached now w filepath)
    as Hcases. cbv zeta in Hcases.
  set (id := extractSessionId filepath) in *.
  split; [| split; [| split]].
  - intros s newPosition Hs Htail. unfold Watcher.handleFile. fold id.
    rewrite Hs, Htail. reflexivity.
  - intros s newEntries newPosition Hs Htail Hne. rewrite Hs in Hcases.
    destruct Hcases
      as [(_ & _ & Hnoop) | (newEntries' & newPosition' & Htail' & _ & s' & Hst)].
    + exfalso. rewrite Htail in Hnoop.
      destruct Hnoop
        as [Hn | [Hn | [(pos & Hn & _) | (es & pos & _ & Hn & _)]]];
        try discriminate Hn.
      injection Hn as -> _. now apply Hne.
    + destruct Hst as [_ Hstate _ _ _ _ _ Hpub]. fold id in Hstate, Hpub.
      exists s'. rewrite Hstate. cbn [sessions]. rewrite lookup_insert_eq.
      split; [reflexivity |]. rewrite Hs in Hpub. rewrite Hpub.
      destruct (_ || _ || _) eqn:Hworth.
      * left. split; [now apply worthPublishing_bool | reflexivity].
      * right. split; [| reflexivity].
        rewrite <- worthPublishing_bool. congruence.
  - destruct Hcases
      as [(Hsame & Hpub & _) | (newEntries & newPosition & _ & _ & s' & Hst)].
    + rewrite Hsame, Hpub. split.
      * intros (ev & [] & _).
      * intros [Hnone [s Hs]]. congruence.
    + destruct Hst as [_ Hstate _ _ _ _ _ Hpub]. fold id in Hstate, Hpub.
      rewrite Hpub, Hstate. cbn [sessions]. rewrite lookup_insert_eq.
      destruct (sessions w !! id) as [s|] eqn:Hs.
      * split; [| intros [[=] _]].
        destruct (_ || _ || _); intros (ev & Hin & Hcreated);
          [destruct Hin as [<- | []]; discriminate | destruct Hin].
      * split; [intros _; split; eauto |].
        intros _. eexists. split; [now left | reflexivity].
  - destruct Hcases
      as [(_ & Hpub & _) | (newEntries & newPosition & _ & _ & s' & Hst)].
    + rewrite Hpub. intros ev [].
    + destruct Hst as [_ _ _ _ _ _ _ Hpub]. rewrite Hpub.
      destruct (sessions w !! extractSessionId filepath) as [s|].
      * destruct (_ || _ || _); intros ev Hin;
          [destruct Hin as [<- | []]; now right | destruct Hin].
      * intros ev [<- | []]. now left.
Qed.

(** *** The frame of the overlay *)

(** A status overridden from [base]: forced to waiting with a pending tool
    use, every other field as in [base]. *)
Definition overlayOf (base st : StatusResult) : Prop :=
  StatusMachine.status st = st_waiting
  /\ r_hasPendingToolUse st = true
  /\ r_lastActivityAt st = r_lastActivityAt base
  /\ r_messageCount st = r_messageCount base
  /\ lastRole st = lastRole base.

Lemma overrideStatus_overlayOf base : overlayOf base (overrideStatus base).
Proof. repeat split. Qed.

(** C10.  Where the watcher applies the overlay - in a pass of [handleFile]
    that stores a session while a permission is pending for it, and in
    [handlePendingPermission] on an existing session - the stored status has
    [status] forced to waiting and [hasPendingToolUse] forced to true, and
    its [lastActivityAt], [messageCount] and [lastRole] are those of the
    status it overrides: the one just derived from the accumulated entries,
    respectively the one the session had. *)
Theorem overlay_frame_condition (w : WatcherState) (filepath : string) :
  (forall tailJSONL getGitInfoCached now newEntries newPosition p,
     let id := extractSessionId filepath in
     let result := handleFile tailJSONL getGitInfoCached now w filepath in
     tailJSONL filepath
       (match sessions w !! id with Some s => bytePosition s | None => 0%nat end)
     = TailRead newEntries newPosition ->
     (is_Some (sessions w !! id) /\ newEntries <> []
      \/ sessions w !! id = None /\ is_Some (extractMetadata newEntries)) ->
     pendingPermissions result.1 !! id = Some p ->
     exists s',
       sessions result.1 !! id = Some s'
       /\ pendingPermission s' = Some p
       /\ entries s' = allEntriesOf w id newEntries
       /\ overlayOf (deriveStatus (allEntriesOf w id newEntries) now) (status s'))
  /\ (forall readPermission permission s,
        let id := session_id permission in
        let result := handlePendingPermission readPermission w filepath in
        readPermission filepath = Some permission ->
        id <> "" ->
        sessions w !! id = Some s ->
        pendingPermissions result.1 !! id = Some permission
        /\ exists s',
             sessions result.1 !! id = Some s'
             /\ pendingPermission s' = Some permission
             /\ entries s' = entries s
             /\ overlayOf (status s) (status s')
             /\ published result.2
                = [{| type := updated; session := s';
                      previousStatus := Some (status s) |}]).
Proof.
  split.
  - intros tailJSONL getGitInfoCached now newEntries newPosition p.
    cbv zeta. intros Htail Hstores Hp.
    destruct (handleFile_cases tailJSONL getGitInfoCached now w filepath)
      as [(_ & _ & Hnoop) | (newEntries' & newPosition' & Htail' & _ & s' & Hst)];
      cbv zeta in *.
    + exfalso. rewrite Htail in Hnoop.
      destruct Hnoop
        as [Hn | [Hn | [(pos & Hn & Hsome) | (es & pos & Hn & Hnone & Hmeta)]]];
        try discriminate Hn; injection Hn as -> _.
      * destruct Hstores as [[_ Hne] | [Hnone _]];
          [now apply Hne | rewrite Hnone in Hsome; now destruct Hsome].
      * destruct Hstores as [[Hsome _] | [_ Hmeta']];
          [rewrite Hnone in Hsome; now destruct Hsome
          | rewrite Hmeta in Hmeta'; now destruct Hmeta'].
    + rewrite Htail in Htail'. injection Htail' as <- <-.
      destruct Hst as [_ Hstate _ Hentries _ Hperm Hstatus _].
      rewrite Hstate in Hp |- *. cbn [sessions pendingPermissions] in Hp |- *.
      rewrite lookup_insert_eq. exists s'.
      unfold storedStatus in Hstatus. rewrite Hp in Hperm, Hstatus.
      rewrite Hstatus.
      repeat split; try assumption.
  - intros readPermission permission s. cbv zeta. intros Hread Hne Hs.
    unfold handlePendingPermission. apply String.eqb_neq in Hne.
    rewrite Hread, Hne, Hs. cbn [fst snd sessions pendingPermissions].
    rewrite !lookup_insert_eq. split; [reflexivity |].
    eexists. repeat split.
Qed.

End Handlers.

End WatcherProps.

(** ** A session followed through the watcher

    One log file, one permission file, and stand-ins for what parser.ts and
    git.ts answer about them. *)

Module WatcherScenario.
Import Log StatusMachine Status Watcher StatusProps WatcherProps.

Definition logPath : string :=
  "/home/dev/.claude/projects/-home-dev-app/abc.jsonl".
Definition permissionPath : string :=
  "/home/dev/.claude/pending-permissions/abc.json".
Definition permissionsDir : string := "/home/dev/.claude/pending-permissions".

Definition sessionIdOf (path : string) : string :=
  removeFirst ".jsonl" (lastSegment path).
Definition encodedDirOf (path : string) : string := "-home-dev-app".
Definition metadataOf (entries : list LogEntry) : option SessionMetadata :=
  match entries with
  | UserEntry ts (ContentString text) :: _ =>
      Some {| m_sessionId := "abc"; m_cwd := "/home/dev/app";
              m_gitBranch := Some "main"; m_originalPrompt := text;
              m_startedAt := ts |}
  | _ => None
  end.
Definition onMain (cwd : string) : GitInfo :=
  {| repoUrl := Some "https://github.com/dev/app"; repoId := Some "dev/app";
     branch := Some "main"; isGitRepo := true |}.

Definition toolResultEntry : LogEntry :=
  UserEntry t2 (ContentBlocks [ToolResultBlock "toolu_01"]).
Definition streamingEntry : LogEntry :=
  AssistantEntry t2 [TextBlock "still waiting for the edit"].

(** The file holds Scenario C in its first 420 bytes. *)
Definition readScenarioC (path : string) (fromByte : nat) : TailOutcome :=
  if Nat.eqb fromByte 0 then TailRead scenarioC 420 else TailRead [] fromByte.
(** Later reads, from byte 420: a tool result, a streamed text, nothing. *)
Definition readToolResult (path : string) (fromByte : nat) : TailOutcome :=
  if Nat.eqb fromByte 420 then TailRead [toolResultEntry] 600
  else TailRead [] fromByte.
Definition readStreaming (path : string) (fromByte : nat) : TailOutcome :=
  if Nat.eqb fromByte 420 then TailRead [streamingEntry] 560
  else TailRead [] fromByte.
Definition readNothing (path : string) (fromByte : nat) : TailOutcome :=
  TailRead [] fromByte.

Definition editPermission : PendingPermission :=
  {| session_id := "abc"; tool_name := "Edit"; tool_input := None;
     pending_since := "1705314603000" |}.

Definition created_then_pending : list Notification :=
  [LogFileChanged logPath readScenarioC onMain (t0_ms + 3000);
   PermissionFileWritten permissionPath (fun _ => Some editPermission)].

(** The watcher after the session was created from Scenario C. *)
Definition afterCreation : WatcherState :=
  (run (parser := IsoDate.isoParser) sessionIdOf encodedDirOf metadataOf
     permissionsDir newWatcher
     [LogFileChanged logPath readScenarioC onMain (t0_ms + 3000)]).1.

(** The watcher after the permission request for the Edit was signalled. *)
Definition afterPermission : WatcherState :=
  (run (parser := IsoDate.isoParser) sessionIdOf encodedDirOf metadataOf
     permissionsDir newWatcher created_then_pending).1.

Definition workingStatus : StatusResult :=
  {| StatusMachine.status := st_working; lastRole := role_assistant;
     r_hasPendingToolUse := true; r_lastActivityAt := t1;
     r_messageCount := 2 |}.

Definition createdSession : SessionState :=
  {| sessionId := "abc"; filepath := logPath; encodedDir := "-home-dev-app";
     cwd := "/home/dev/app"; gitBranch := Some "main";
     originalPrompt := "fix the bug"; startedAt := t0;
     status := workingStatus; entries := scenarioC; bytePosition := 420;
     gitRepoUrl := Some "https://github.com/dev/app";
     gitRepoId := Some "dev/app"; branchChanged := Some false;
     pendingPermission := None |}.

Definition pendingSession : SessionState :=
  updateSession createdSession (overrideStatus workingStatus)
    (Some editPermission).

Example sessionIdOf_logPath : sessionIdOf logPath = "abc".
Proof. reflexivity. Qed.

Example permissionFileSessionId_permissionPath :
  permissionFileSessionId permissionPath = "abc".
Proof. reflexivity. Qed.

Lemma afterCreation_session : sessions afterCreation !! "abc" = Some createdSession.
Proof. vm_compute. reflexivity. Qed.

Lemma afterPermission_session :
  sessions afterPermission !! "abc" = Some pendingSession.
Proof. vm_compute. reflexivity. Qed.

Lemma afterPermission_pending :
  pendingPermissions afterPermission !! "abc" = Some editPermission.
Proof. vm_compute. reflexivity. Qed.

(** The overlay is shown while the permission is pending, and goes with the
    permission file or with the tool result. *)
Lemma permission_overlay_precedence_witness :
  (StatusMachine.status (status pendingSession) = st_waiting
   /\ r_hasPendingToolUse (status pendingSession) = true)
  /\ (let result :=
        handlePendingPermissionRemoved (parser := IsoDate.isoParser)
          (t0_ms + 4000) afterPermission permissionPath in
      pendingPermissions result.1 !! "abc" = None
      /\ exists s',
           sessions result.1 !! "abc" = Some s'
           /\ pendingPermission s' = None
           /\ status s'
              = deriveStatus (parser := IsoDate.isoParser)
                  (entries pendingSession) (t0_ms + 4000)
           /\ published result.2
              = [{| type := updated; session := s';
                    previousStatus := Some (status pendingSession) |}])
  /\ (let result :=
        handleFile (parser := IsoDate.isoParser) sessionIdOf encodedDirOf
          metadataOf permissionsDir readToolResult onMain (t0_ms + 4000)
          afterPermission logPath in
      pendingPermissions result.1 !! sessionIdOf logPath = None
      /\ exists s',
           sessions result.1 !! sessionIdOf logPath = Some s'
           /\ pendingPermission s' = None
           /\ status s'
              = deriveStatus (parser := IsoDate.isoParser)
                  (entries pendingSession ++ [toolResultEntry]) (t0_ms + 4000)).
Proof.
  pose proof (permission_overlay_precedence (parser := IsoDate.isoParser)
                sessionIdOf encodedDirOf metadataOf permissionsDir
                created_then_pending) as Hclaim.
  cbv zeta in Hclaim. fold afterPermission in Hclaim.
  destruct Hclaim as (Hshown & Hremoved & Hresult).
  split; [| split].
  - destruct (Hshown "abc" pendingSession editPermission
                afterPermission_session afterPermission_pending)
      as (_ & Hwaiting & Hpending).
    split; assumption.
  - apply (Hremoved permissionPath (t0_ms + 4000) "abc" pendingSession
             editPermission);
      [reflexivity | discriminate
      | exact afterPermission_session | exact afterPermission_pending].
  - apply (Hresult logPath readToolResult onMain (t0_ms + 4000) pendingSession
             [toolResultEntry] 600%nat toolResultEntry t2 ["toolu_01"]);
      [exact afterPermission_session | reflexivity | now left | reflexivity].
Defined.

(** A pass that reads nothing is silent; one that reads a tool result
    publishes the update. *)
Lemma notification_suppression_witness :
  handleFile (parser := IsoDate.isoParser) sessionIdOf encodedDirOf metadataOf
    permissionsDir readNothing onMain (t0_ms + 4000) afterCreation logPath
  = (afterCreation, [])
  /\ (let result :=
        handleFile (parser := IsoDate.isoParser) sessionIdOf encodedDirOf
          metadataOf permissionsDir readToolResult onMain (t0_ms + 4000)
          afterCreation logPath in
      exists s',
        sessions result.1 !! sessionIdOf logPath = Some s'
        /\ ((worthPublishing onMain createdSession s'
             /\ published result.2
                = [{| type := updated; session := s';
                      previousStatus := Some (status createdSession) |}])
            \/ (~ worthPublishing onMain createdSession s'
                /\ published result.2 = []))).
Proof.
  split.
  - pose proof (notification_suppression (parser := IsoDate.isoParser)
                  sessionIdOf encodedDirOf metadataOf permissionsDir
                  readNothing onMain (t0_ms + 4000) afterCreation logPath)
      as Hclaim.
    cbv zeta in Hclaim. destruct Hclaim as (Hnoop & _).
    apply (Hnoop createdSession 420%nat);
      [exact afterCreation_session | reflexivity].
  - pose proof (notification_suppression (parser := IsoDate.isoParser)
                  sessionIdOf encodedDirOf metadataOf permissionsDir
                  readToolResult onMain (t0_ms + 4000) afterCreation logPath)
      as Hclaim.
    cbv zeta in Hclaim. destruct Hclaim as (_ & Hupdate & _).
    apply (Hupdate createdSession [toolResultEntry] 600%nat);
      [exact afterCreation_session | reflexivity | discriminate].
Defined.

Example tool_result_pass_publishes :
  published
    (handleFile (parser := IsoDate.isoParser) sessionIdOf encodedDirOf
       metadataOf permissionsDir readToolResult onMain (t0_ms + 4000)
       afterCreation logPath).2
  = [{| type := updated;
        session :=
          {| sessionId := "abc"; filepath := logPath;
             encodedDir := "-home-dev-app"; cwd := "/home/dev/app";
             gitBranch := Some "main"; originalPrompt := "fix the bug";
             startedAt := t0;
             status :=
               {| StatusMachine.status := st_working;
                  lastRole := role_assistant; r_hasPendingToolUse := false;
                  r_lastActivityAt := t2; r_messageCount := 3 |};
             entries := scenarioE; bytePosition := 600;
             gitRepoUrl := Some "https://github.com/dev/app";
             gitRepoId := Some "dev/app"; branchChanged := Some false;
             pendingPermission := None |};
        previousStatus := Some workingStatus |}].
Proof. vm_compute. reflexivity. Qed.

(** The overlay keeps what the machine derived, and what the session had. *)
Lemma overlay_frame_condition_witness :
  (let result :=
     handleFile (parser := IsoDate.isoParser) sessionIdOf encodedDirOf
       metadataOf permissionsDir readStreaming onMain (t0_ms + 4000)
       afterPermission logPath in
   exists s',
     sessions result.1 !! sessionIdOf logPath = Some s'
     /\ pendingPermission s' = Some editPermission
     /\ entries s'
        = allEntriesOf afterPermission (sessionIdOf logPath) [streamingEntry]
     /\ overlayOf
          (deriveStatus (parser := IsoDate.isoParser)
             (allEntriesOf afterPermission (sessionIdOf logPath)
                [streamingEntry]) (t0_ms + 4000))
          (status s'))
  /\ (let result :=
        handlePendingPermission (fun _ => Some editPermission) afterCreation
          permissionPath in
      pendingPermissions result.1 !! "abc" = Some editPermission
      /\ exists s',
           sessions result.1 !! "abc" = Some s'
           /\ pendingPermission s' = Some editPermission
           /\ entries s' = entries createdSession
           /\ overlayOf (status createdSession) (status s')
           /\ published result.2
              = [{| type := updated; session := s';
                    previousStatus := Some (status createdSession) |}]).
Proof.
  destruct (overlay_frame_condition (parser := IsoDate.isoParser)
              sessionIdOf encodedDirOf metadataOf permissionsDir
              afterPermission logPath) as (Hfile & _).
  destruct (overlay_frame_condition (parser := IsoDate.isoParser)
              sessionIdOf encodedDirOf metadataOf permissionsDir
              afterCreation permissionPath) as (_ & Hsignal).
  split.
  - apply (Hfile readStreaming onMain (t0_ms + 4000) [streamingEntry] 560%nat
             editPermission).
    + vm_compute. reflexivity.
    + left. split; [exists pendingSession; exact afterPermission_session
                   | discriminate].
    + vm_compute. reflexivity.
  - apply (Hsignal (fun _ => Some editPermission) editPermission createdSession);
      [reflexivity | discriminate | exact afterCreation_session].
Defined.

End WatcherScenario.

(** ** Further properties of the status machine *)

Module MachineFacts.
Import Log StatusMachine Status StatusProps.

(** The replay loop is the machine fed with the events of the records. *)
Lemma replay_sendAll entries : forall a,
  replay a entries = sendAll a (omap logEntryToEvent entries).
Proof.
  unfold replay, sendAll.
  induction entries as [|entry entries IH]; intros a; [reflexivity |].
  cbn. destruct (logEntryToEvent entry); cbn; apply IH.
Qed.

Lemma context_send a e :
  context (send a e) = snd (transition (value a) (context a) e).
Proof. unfold send. now destruct (transition (value a) (context a) e). Qed.

Lemma value_send a e :
  value (send a e) = fst (transition (value a) (context a) e).
Proof. unfold send. now destruct (transition (value a) (context a) e). Qed.

(** One event adds at most one to the message count and never lowers it. *)
Lemma messageCount_send a e :
  messageCount (context a) <= messageCount (context (send a e))
  <= messageCount (context a) + 1.
Proof. rewrite context_send. destruct (value a), e; cbn; lia. Qed.

Lemma messageCount_sendAll events : forall a,
  messageCount (context a) <= messageCount (context (sendAll a events))
  <= messageCount (context a) + Z.of_nat (List.length events).
Proof.
  induction events as [|e events IH]; intros a; cbn [sendAll fold_left List.length].
  - lia.
  - pose proof (messageCount_send a e). specialize (IH (send a e)).
    unfold sendAll in IH. lia.
Qed.

Lemma length_omap_le {A B} (f : A -> option B) (l : list A) :
  (List.length (omap f l) <= List.length l)%nat.
Proof.
  induction l as [|x l IH]; cbn; [lia |]. destruct (f x); cbn; lia.
Qed.

Section Counting.
Context {parser : DateParser}.

Lemma messageCount_deriveStatus entries now :
  r_messageCount (deriveStatus entries now)
  = messageCount (context (replay createActor entries)).
Proof.
  unfold deriveStatus, deriveStatusFromMachine, deriveActor. cbn.
  now rewrite applyTimeouts_context.
Qed.

(** X1.  The message count a log gives never goes down when records are
    appended to the log, at whatever clock readings the two statuses are
    derived, and it goes up by at most the number of appended records. *)
Theorem messageCount_grows_with_log
  (entries more : list LogEntry) (now1 now2 : Z) :
  0 <= r_messageCount (deriveStatus entries now1)
  /\ r_messageCount (deriveStatus entries now1)
     <= r_messageCount (deriveStatus (entries ++ more) now2)
     <= r_messageCount (deriveStatus entries now1) + Z.of_nat (List.length more).
Proof.
  rewrite !messageCount_deriveStatus, replay_app.
  rewrite (replay_sendAll more), (replay_sendAll entries).
  pose proof (messageCount_sendAll (omap logEntryToEvent entries) createActor).
  pose proof (messageCount_sendAll (omap logEntryToEvent more)
                (sendAll createActor (omap logEntryToEvent entries))).
  pose proof (length_omap_le logEntryToEvent more).
  cbn in *. lia.
Qed.

End Counting.

(** *** Before the first prompt *)

(** A record the classifier reads as a user prompt. *)
Definition isPrompt (entry : LogEntry) : bool :=
  match logEntryToEvent entry with
  | Some (USER_PROMPT _) => true
  | _ => false
  end.

(** The classifier never builds a timeout. *)
Definition fromLog (e : StatusEvent) : bool :=
  match e with
  | IDLE_TIMEOUT | APPROVAL_TIMEOUT | STALE_TIMEOUT => false
  | _ => true
  end.

Lemma classifier_fromLog entry e :
  logEntryToEvent entry = Some e -> fromLog e = true.
Proof.
  destruct entry as [ts [text|blocks]|ts blocks|ts subtype|]; cbn.
  - now intros [= <-].
  - destruct (0 <? _); [now intros [= <-] |].
    destruct (existsb is_text blocks); [now intros [= <-] | discriminate].
  - destruct (0 <? _); now intros [= <-].
  - destruct (_ || _)%bool; [now intros [= <-] | discriminate].
  - discriminate.
Qed.

(** The step of the replay loop on one record. *)
Definition feed (a : Actor) (entry : LogEntry) : Actor :=
  match logEntryToEvent entry with
  | Some event => send a event
  | None => a
  end.

Lemma replay_cons a entry entries :
  replay a (entry :: entries) = replay (feed a entry) entries.
Proof. reflexivity. Qed.

Lemma feed_ignored a entry :
  value a = waiting_for_input -> isPrompt entry = false ->
  value (feed a entry) = waiting_for_input
  /\ context (feed a entry) = context a.
Proof.
  intros Hvalue Hprompt. unfold feed, isPrompt in *.
  destruct (logEntryToEvent entry) as [e|] eqn:He; [| now split].
  apply classifier_fromLog in He.
  rewrite value_send, context_send, Hvalue.
  destruct e; try discriminate; now split.
Qed.

Lemma feed_prompt a entry :
  value a = waiting_for_input -> isPrompt entry = true ->
  messageCount (context (feed a entry)) = messageCount (context a) + 1.
Proof.
  intros Hvalue Hprompt. unfold feed, isPrompt in *.
  destruct (logEntryToEvent entry) as [[]|]; try discriminate.
  now rewrite context_send, Hvalue.
Qed.

Lemma messageCount_replay entries a :
  messageCount (context a) <= messageCount (context (replay a entries)).
Proof. rewrite replay_sendAll. apply messageCount_sendAll. Qed.

Lemma replay_without_prompt entries : forall a,
  value a = waiting_for_input -> existsb isPrompt entries = false ->
  value (replay a entries) = waiting_for_input
  /\ context (replay a entries) = context a.
Proof.
  induction entries as [|entry entries IH]; intros a Hvalue Hnone;
    [now split |].
  cbn [existsb] in Hnone. apply orb_false_iff in Hnone as [Hentry Hnone].
  destruct (feed_ignored a entry Hvalue Hentry) as [Hvalue' Hcontext].
  rewrite replay_cons.
  destruct (IH (feed a entry) Hvalue' Hnone) as [-> ->]. now split.
Qed.

Lemma replay_with_prompt entries : forall a,
  value a = waiting_for_input -> existsb isPrompt entries = true ->
  messageCount (context a) < messageCount (context (replay a entries)).
Proof.
  induction entries as [|entry entries IH]; intros a Hvalue Hsome;
    [discriminate |].
  rewrite replay_cons. cbn [existsb] in Hsome.
  destruct (isPrompt entry) eqn:Hentry.
  - pose proof (feed_prompt a entry Hvalue Hentry).
    pose proof (messageCount_replay entries (feed a entry)). lia.
  - destruct (feed_ignored a entry Hvalue Hentry) as [Hvalue' Hcontext].
    rewrite <- Hcontext. now apply IH.
Qed.

(** X2.  Until a record is read as a user prompt nothing in the log counts:
    the message count of a replay is 0 exactly when no record of the log is
    a user prompt, and then the machine is still in [waiting_for_input] with
    its initial context, whatever assistant, tool-result or system records
    the log holds. *)
Theorem nothing_counts_before_first_prompt (entries : list LogEntry) :
  let a := replay createActor entries in
  (messageCount (context a) = 0 <->
   forall entry ts, In entry entries ->
     logEntryToEvent entry <> Some (USER_PROMPT ts))
  /\ (messageCount (context a) = 0 ->
      value a = waiting_for_input /\ context a = initialContext).
Proof.
  cbv zeta.
  assert ((forall entry ts, In entry entries ->
             logEntryToEvent entry <> Some (USER_PROMPT ts))
          <-> existsb isPrompt entries = false) as Hnone.
  { rewrite <- not_true_iff_false, existsb_exists. unfold isPrompt. split.
    - intros Hall (entry & Hin & Hprompt).
      destruct (logEntryToEvent entry) as [[]|] eqn:He; try discriminate.
      now apply (Hall entry timestamp Hin).
    - intros Hno entry ts Hin He. apply Hno. exists entry. now rewrite He. }
  assert (messageCount (context (replay createActor entries)) = 0
          <-> existsb isPrompt entries = false) as Hcount.
  { destruct (existsb isPrompt entries) eqn:Hex.
    - pose proof (replay_with_prompt entries createActor eq_refl Hex) as Hlt.
      cbn in Hlt. split; [lia | discriminate].
    - destruct (replay_without_prompt entries createActor eq_refl Hex)
        as [_ ->]. now split. }
  split.
  - now rewrite Hcount, Hnone.
  - intros Hzero. apply Hcount in Hzero.
    now apply (replay_without_prompt entries createActor eq_refl).
Qed.

Example assistant_records_before_any_prompt :
  let a := replay createActor
             [AssistantEntry t0 [ToolUseBlock "toolu_01" "Edit"];
              UserEntry t1 (ContentBlocks [ToolResultBlock "toolu_01"]);
              SystemEntry t2 "turn_duration"] in
  value a = waiting_for_input /\ context a = initialContext.
Proof. split; reflexivity. Qed.

(** *** What the three-valued status tells *)

(** Where a replay can stop: in [working], or in [waiting_for_input] with
    no pending tool use. *)
Definition settled (a : Actor) : Prop :=
  value a = working
  \/ (value a = waiting_for_input /\ hasPendingToolUse (context a) = false).

Lemma feed_settled a entry : settled a -> settled (feed a entry).
Proof.
  unfold feed. destruct (logEntryToEvent entry) as [e|] eqn:He; [| easy].
  apply classifier_fromLog in He. unfold settled.
  rewrite value_send, context_send.
  intros [-> | [-> Hpending]]; destruct e; try discriminate; cbn; auto.
Qed.

Lemma replay_settled entries : forall a, settled a -> settled (replay a entries).
Proof.
  induction entries as [|entry entries IH]; intros a Ha; [exact Ha |].
  rewrite replay_cons. now apply IH, feed_settled.
Qed.

Lemma createActor_settled : settled createActor.
Proof. right. now split. Qed.

Section Projection.
Context {parser : DateParser}.

Lemma exceeds_true elapsed bound :
  exceeds elapsed bound = true <-> exists v, elapsed = Some v /\ bound < v.
Proof.
  destruct elapsed as [v|]; cbn.
  - rewrite Z.ltb_lt. split; [eauto | now intros (? & [= <-] & ?)].
  - split; [discriminate | now intros (? & [=] & _)].
Qed.

Ltac decide_projection :=
  repeat split; intros;
  repeat match goal with H : _ /\ _ |- _ => destruct H end;
  first [ reflexivity | discriminate | congruence ].

(** X3.  What [deriveStatus] reports is exact: it says idle exactly when
    more than 5 minutes have passed since the last activity; it says
    waiting with [hasPendingToolUse] exactly when the machine is in
    [waiting_for_approval], and waiting without it exactly when the machine
    is in [waiting_for_input].  A replay alone never ends in [idle] or
    [waiting_for_approval]: only the timeout check leads there. *)
Theorem projection_is_exact (entries : list LogEntry) (now : Z) :
  let a := replay createActor entries in
  let elapsed := timeSinceActivity now (context a) in
  let machine := fst (deriveStatusFromMachine entries now) in
  let r := deriveStatus entries now in
  (value a = working \/ value a = waiting_for_input)
  /\ (StatusMachine.status r = st_idle
      <-> exists v, elapsed = Some v /\ 300000 < v)
  /\ (StatusMachine.status r = st_waiting /\ r_hasPendingToolUse r = true
      <-> machine = waiting_for_approval)
  /\ (StatusMachine.status r = st_waiting /\ r_hasPendingToolUse r = false
      <-> machine = waiting_for_input).
Proof.
  cbv zeta.
  pose proof (replay_settled entries createActor createActor_settled) as Ha.
  rewrite <- (exceeds_true _ 300000).
  change 300000 with IDLE_TIMEOUT_MS.
  unfold deriveStatus, deriveStatusFromMachine, deriveActor, applyTimeouts.
  set (a := replay createActor entries) in *.
  set (elapsed := timeSinceActivity now (context a)).
  split; [destruct Ha as [? | [? _]]; auto |].
  destruct (exceeds elapsed IDLE_TIMEOUT_MS) eqn:Hidle.
  - rewrite value_send, context_send.
    destruct Ha as [-> | [-> Hpending]]; cbn; decide_projection.
  - destruct Ha as [Hworking | [Hinput Hpending]].
    + rewrite Hworking. cbn [andb].
      destruct (hasPendingToolUse (context a)) eqn:Hpending; cbn [andb negb].
      * destruct (exceeds elapsed APPROVAL_TIMEOUT_MS);
          rewrite ?value_send, ?context_send, ?Hworking; cbn;
          rewrite ?Hpending; decide_projection.
      * destruct (exceeds elapsed STALE_TIMEOUT_MS);
          rewrite ?value_send, ?context_send, ?Hworking; cbn;
          rewrite ?Hpending; decide_projection.
    + rewrite Hinput. cbn. rewrite ?Hinput, Hpending. decide_projection.
Qed.

End Projection.

(** *** Where pending ids come from *)

(** A non-Task tool-use block of an assistant record of the log. *)
Definition requestedIn (entries : list LogEntry) (id : string) : Prop :=
  exists ts blocks name,
    In (AssistantEntry ts blocks) entries
    /\ In (ToolUseBlock id name) blocks
    /\ name <> "Task".

Lemma approvalIds_In blocks id :
  In id (approvalIds blocks) ->
  exists name, In (ToolUseBlock id name) blocks /\ name <> "Task".
Proof.
  induction blocks as [|b blocks IH]; [intros [] |].
  destruct b as [text|i name|i|]; cbn;
    try (intros Hin; destruct (IH Hin) as (n & ? & ?); eauto).
  destruct (string_dec name "Task") as [-> | Hne].
  - intros Hin. destruct (IH Hin) as (n & ? & ?). eauto.
  - intros [<- | Hin]; [eauto |]. destruct (IH Hin) as (n & ? & ?). eauto.
Qed.

Lemma classifier_tool_use entry ts ids :
  logEntryToEvent entry = Some (ASSISTANT_TOOL_USE ts ids) ->
  exists blocks, entry = AssistantEntry ts blocks /\ ids = approvalIds blocks.
Proof.
  destruct entry as [ts' [text|blocks]|ts' blocks|ts' subtype|]; cbn;
    try discriminate.
  - destruct (0 <? _); [discriminate |].
    destruct (existsb is_text blocks); discriminate.
  - rewrite approvalIds_filter.
    destruct (0 <? _); intros [= <- <-]. eauto.
  - destruct (_ || _)%bool; discriminate.
Qed.

Lemma pending_send a e id :
  In id (pendingToolIds (context (send a e))) ->
  In id (pendingToolIds (context a))
  \/ exists ts ids, e = ASSISTANT_TOOL_USE ts ids /\ In id ids.
Proof.
  rewrite context_send.
  destruct (value a), e; cbn; intros Hin;
    first [ now left
          | destruct Hin
          | apply filter_In in Hin as [? _]; now left
          | right; eauto ].
Qed.

Lemma pending_replay entries : forall a id,
  In id (pendingToolIds (context (replay a entries))) ->
  In id (pendingToolIds (context a)) \/ requestedIn entries id.
Proof.
  induction entries as [|entry entries IH]; intros a id Hin; [now left |].
  rewrite replay_cons in Hin. destruct (IH _ _ Hin) as [Hfeed | Hrest].
  - unfold feed in Hfeed.
    destruct (logEntryToEvent entry) as [e|] eqn:He; [| now left].
    destruct (pending_send a e id Hfeed) as [? | (ts & ids & -> & Hids)];
      [now left | right].
    apply classifier_tool_use in He as (blocks & -> & ->).
    apply approvalIds_In in Hids as (name & Hblock & Hname).
    exists ts, blocks, name. repeat split; [now left | assumption..].
  - right. destruct Hrest as (ts & blocks & name & Hentry & Hblock & Hname).
    exists ts, blocks, name. repeat split; [now right | assumption..].
Qed.

(** X4.  Every id the machine holds as pending after a replay is the id of
    a tool-use block of an assistant record of the log, and of one that is
    not named "Task": the machine never waits on a sub-agent spawn and never
    on an id the log does not hold. *)
Theorem pending_ids_come_from_the_log (entries : list LogEntry) :
  Forall (requestedIn entries)
    (pendingToolIds (context (replay createActor entries))).
Proof.
  apply List.Forall_forall. intros id Hin.
  destruct (pending_replay entries createActor id Hin) as [[] | Hrequested].
  exact Hrequested.
Qed.

(** *** The passing of time *)

Section Decay.
Context {parser : DateParser}.

(** The reported status as a function of the replay and the time elapsed. *)
Lemma deriveStatus_status entries now :
  let a := replay createActor entries in
  let elapsed := timeSinceActivity now (context a) in
  StatusMachine.status (deriveStatus entries now)
  = if exceeds elapsed IDLE_TIMEOUT_MS then st_idle
    else match value a with
         | working =>
             if hasPendingToolUse (context a)
             then if exceeds elapsed APPROVAL_TIMEOUT_MS
                  then st_waiting else st_working
             else if exceeds elapsed STALE_TIMEOUT_MS
                  then st_waiting else st_working
         | _ => st_waiting
         end.
Proof.
  cbv zeta.
  pose proof (replay_settled entries createActor createActor_settled) as Ha.
  unfold deriveStatus, deriveStatusFromMachine, deriveActor, applyTimeouts.
  set (a := replay createActor entries) in *.
  set (elapsed := timeSinceActivity now (context a)).
  destruct (exceeds elapsed IDLE_TIMEOUT_MS).
  - cbn. rewrite value_send.
    destruct Ha as [-> | [-> _]]; reflexivity.
  - destruct Ha as [Hworking | [Hinput Hpending]].
    + rewrite Hworking. cbn [andb].
      destruct (hasPendingToolUse (context a)); cbn [andb negb].
      * destruct (exceeds elapsed APPROVAL_TIMEOUT_MS); cbn;
          rewrite ?value_send, Hworking; reflexivity.
      * destruct (exceeds elapsed STALE_TIMEOUT_MS); cbn;
          rewrite ?value_send, Hworking; reflexivity.
    + rewrite Hinput. cbn. now rewrite Hinput.
Qed.

Lemma exceeds_later now1 now2 c bound :
  now1 <= now2 ->
  exceeds (timeSinceActivity now1 c) bound = true ->
  exceeds (timeSinceActivity now2 c) bound = true.
Proof.
  intros Hlater. unfold timeSinceActivity.
  destruct (lastActivityTime c) as [t|]; cbn; [| discriminate].
  rewrite !Z.ltb_lt. lia.
Qed.

(** X30.  Time alone never revives a session.  For the same entries read
    at a later clock reading, a status that was idle is idle, a status that
    is working was working, and [hasPendingToolUse], [messageCount] and
    [lastActivityAt] are what they were: without new entries a session only
    goes from working to waiting to idle. *)
Theorem time_alone_never_revives_a_session
  (entries : list LogEntry) (now later : Z) :
  now <= later ->
  let before := deriveStatus entries now in
  let after := deriveStatus entries later in
  (StatusMachine.status before = st_idle ->
   StatusMachine.status after = st_idle)
  /\ (StatusMachine.status after = st_working ->
      StatusMachine.status before = st_working)
  /\ r_hasPendingToolUse after = r_hasPendingToolUse before
  /\ r_messageCount after = r_messageCount before
  /\ r_lastActivityAt after = r_lastActivityAt before.
Proof.
  intros Hlater. cbv zeta.
  rewrite !deriveStatus_status.
  set (a := replay createActor entries).
  pose proof (exceeds_later now later (context a) IDLE_TIMEOUT_MS Hlater)
    as Hidle.
  pose proof (exceeds_later now later (context a) APPROVAL_TIMEOUT_MS Hlater)
    as Happroval.
  pose proof (exceeds_later now later (context a) STALE_TIMEOUT_MS Hlater)
    as Hstale.
  split; [| split].
  - destruct (exceeds (timeSinceActivity now (context a)) IDLE_TIMEOUT_MS);
      [now rewrite Hidle |].
    destruct (value a); try discriminate.
    destruct (hasPendingToolUse (context a)),
      (exceeds (timeSinceActivity now (context a)) APPROVAL_TIMEOUT_MS),
      (exceeds (timeSinceActivity now (context a)) STALE_TIMEOUT_MS);
      discriminate.
  - destruct (exceeds (timeSinceActivity later (context a)) IDLE_TIMEOUT_MS);
      [discriminate |].
    destruct (exceeds (timeSinceActivity now (context a)) IDLE_TIMEOUT_MS);
      [now specialize (Hidle eq_refl) |].
    destruct (value a); try discriminate.
    destruct (hasPendingToolUse (context a)).
    + destruct (exceeds (timeSinceActivity later (context a))
                  APPROVAL_TIMEOUT_MS); [discriminate |].
      destruct (exceeds (timeSinceActivity now (context a))
                  APPROVAL_TIMEOUT_MS);
        [now specialize (Happroval eq_refl) | reflexivity].
    + destruct (exceeds (timeSinceActivity later (context a))
                  STALE_TIMEOUT_MS); [discriminate |].
      destruct (exceeds (timeSinceActivity now (context a))
                  STALE_TIMEOUT_MS);
        [now specialize (Hstale eq_refl) | reflexivity].
  - unfold deriveStatus, deriveStatusFromMachine, deriveActor. cbn.
    now rewrite !applyTimeouts_context.
Qed.

End Decay.

(** Scenario C read two seconds and two hours after the tool was asked
    for. *)
Lemma time_alone_never_revives_a_session_witness :
  let before :=
    deriveStatus (parser := IsoDate.isoParser) scenarioC (t0_ms + 4000) in
  let after :=
    deriveStatus (parser := IsoDate.isoParser) scenarioC (t0_ms + 7200000) in
  (StatusMachine.status before = st_idle ->
   StatusMachine.status after = st_idle)
  /\ (StatusMachine.status after = st_working ->
      StatusMachine.status before = st_working)
  /\ r_hasPendingToolUse after = r_hasPendingToolUse before
  /\ r_messageCount after = r_messageCount before
  /\ r_lastActivityAt after = r_lastActivityAt before.
Proof.
  apply (time_alone_never_revives_a_session (parser := IsoDate.isoParser)
           scenarioC (t0_ms + 4000) (t0_ms + 7200000)).
  unfold t0_ms. lia.
Defined.

End MachineFacts.

(** ** status.ts: the status key *)

Module StatusKey.
Import Log StatusMachine Status.

(** The string a [SessionStatus] is at run time. *)
Definition statusName (s : SessionStatus) : string :=
  match s with
  | st_working => "working"
  | st_waiting => "waiting"
  | st_idle => "idle"
  end.

(** [getStatusKey(result)] *)
Definition getStatusKey (result : StatusResult) : string :=
  if status_eqb (StatusMachine.status result) st_waiting
     && r_hasPendingToolUse result
  then "waiting:tool"
  else statusName (StatusMachine.status result).

(** X5.  [getStatusKey] tells apart exactly the four columns: two results
    have the same key when and only when they have the same status and, if
    that status is waiting, the same [hasPendingToolUse].  So a change that
    [statusChanged] ignores never changes the key, while a change it reports
    may leave the key as it was (a tool becoming pending while working). *)
Theorem getStatusKey_columns (r1 r2 : StatusResult) :
  (getStatusKey r1 = getStatusKey r2
   <-> StatusMachine.status r1 = StatusMachine.status r2
       /\ (StatusMachine.status r1 = st_waiting ->
           r_hasPendingToolUse r1 = r_hasPendingToolUse r2))
  /\ (statusChanged (Some r1) r2 = false -> getStatusKey r1 = getStatusKey r2)
  /\ (StatusMachine.status r1 = st_working ->
      StatusMachine.status r2 = st_working ->
      getStatusKey r1 = getStatusKey r2).
Proof.
  unfold getStatusKey, statusChanged.
  destruct r1 as [s1 role1 p1 at1 n1], r2 as [s2 role2 p2 at2 n2]; cbn.
  destruct s1, s2, p1, p2, role1, role2; cbn;
    repeat split; intros;
    repeat match goal with
           | H : _ /\ _ |- _ => destruct H
           | H : ?x = ?x -> _ |- _ => specialize (H eq_refl)
           end;
    first [ reflexivity | discriminate | congruence ].
Qed.

End StatusKey.

(** ** Further properties of the watcher *)

Module WatcherFacts.
Import Log StatusMachine Status Watcher StatusProps WatcherProps.

Section Handlers.
Context {parser : DateParser}.
Variable extractSessionId : string -> string.
Variable extractEncodedDir : string -> string.
Variable extractMetadata : list LogEntry -> option SessionMetadata.
Variable PENDING_PERMISSIONS_DIR : string.

Local Abbreviation handleFile :=
  (Watcher.handleFile extractSessionId extractEncodedDir extractMetadata
     PENDING_PERMISSIONS_DIR).
Local Abbreviation handle :=
  (Watcher.handle extractSessionId extractEncodedDir extractMetadata
     PENDING_PERMISSIONS_DIR).
Local Abbreviation run :=
  (Watcher.run extractSessionId extractEncodedDir extractMetadata
     PENDING_PERMISSIONS_DIR).
Local Abbreviation handleFile_cases :=
  (WatcherProps.handleFile_cases extractSessionId extractEncodedDir
     extractMetadata PENDING_PERMISSIONS_DIR).
Local Abbreviation statusChanged_differs :=
  (WatcherProps.statusChanged_differs extractSessionId extractEncodedDir
     PENDING_PERMISSIONS_DIR).

(** *** The registry *)

(** The status a session shows is the one derived from its entries at some
    clock reading, as it is or overridden by a pending permission. *)
Definition derivedFrom (s : SessionState) : Prop :=
  exists now,
    status s = deriveStatus (entries s) now
    \/ status s = overrideStatus (deriveStatus (entries s) now).

Definition registered (w : WatcherState) : Prop :=
  forall id s, sessions w !! id = Some s -> sessionId s = id /\ derivedFrom s.

Lemma overrideStatus_twice st :
  overrideStatus (overrideStatus st) = overrideStatus st.
Proof. reflexivity. Qed.

Lemma storedStatus_derived pending id allEntries now :
  storedStatus pending id allEntries now = deriveStatus allEntries now
  \/ storedStatus pending id allEntries now
     = overrideStatus (deriveStatus allEntries now).
Proof. unfold storedStatus. destruct (pending !! id); auto. Qed.

Lemma registered_new : registered newWatcher.
Proof. intros id s Hs. cbn in Hs. now rewrite lookup_empty in Hs. Qed.

Lemma handleFile_registered tailJSONL getGitInfoCached now w filepath :
  registered w ->
  registered (handleFile tailJSONL getGitInfoCached now w filepath).1.
Proof.
  intros Hw.
  destruct (handleFile_cases tailJSONL getGitInfoCached now w filepath)
    as [(-> & _) | (newEntries & newPosition & _ & _ & session & Hst)];
    [exact Hw |].
  destruct Hst as [_ Hstate Hid Hentries _ _ Hstatus _]. rewrite Hstate.
  intros id s. cbn [sessions].
  destruct (decide (extractSessionId filepath = id)) as [<- | Hne].
  - rewrite lookup_insert_eq. intros [= <-]. split; [exact Hid |].
    exists now. rewrite Hstatus, Hentries. apply storedStatus_derived.
  - rewrite lookup_insert_ne by exact Hne. apply Hw.
Qed.

Lemma handlePendingPermission_registered readPermission w filepath :
  registered w ->
  registered (handlePendingPermission readPermission w filepath).1.
Proof.
  intros Hw. unfold handlePendingPermission.
  destruct (readPermission filepath) as [permission|]; [| exact Hw].
  destruct (String.eqb (session_id permission) ""); [exact Hw |].
  destruct (sessions w !! session_id permission) as [session|] eqn:Hsession;
    [| exact Hw].
  intros id s. cbn [fst sessions].
  destruct (decide (session_id permission = id)) as [<- | Hne].
  - rewrite lookup_insert_eq. intros [= <-]. cbn.
    destruct (Hw _ _ Hsession) as [Hid (now & [Hst | Hst])];
      (split; [exact Hid | exists now; right; rewrite Hst; reflexivity]).
  - rewrite lookup_insert_ne by exact Hne. apply Hw.
Qed.

Lemma handlePendingPermissionRemoved_registered now w filepath :
  registered w ->
  registered (handlePendingPermissionRemoved now w filepath).1.
Proof.
  intros Hw. unfold handlePendingPermissionRemoved.
  set (removed := permissionFileSessionId filepath).
  destruct (String.eqb removed ""); [exact Hw |].
  destruct (sessions w !! removed) as [session|] eqn:Hsession; [| exact Hw].
  destruct (pendingPermission session); [| exact Hw].
  intros id s. cbn [fst sessions].
  destruct (decide (removed = id)) as [<- | Hne].
  - rewrite lookup_insert_eq. intros [= <-]. cbn.
    destruct (Hw _ _ Hsession) as [Hid _].
    split; [exact Hid | exists now; now left].
  - rewrite lookup_insert_ne by exact Hne. apply Hw.
Qed.

Lemma checkStaleSessions_registered clock w :
  registered w -> registered (checkStaleSessions clock w).1.
Proof.
  intros Hw id s'. cbn [fst checkStaleSessions sessions].
  rewrite map_lookup_imap.
  destruct (sessions w !! id) as [s|] eqn:Hs; [| discriminate].
  cbn. intros [= <-]. destruct (Hw id s Hs) as [Hid Hderived].
  destruct (staleCheck (clock id) s) as [s'|] eqn:Hstale; cbn;
    [| now split].
  apply staleCheck_working in Hstale as [_ ->]. cbn.
  split; [exact Hid | exists (clock id); now left].
Qed.

Lemma handleDelete_registered w filepath :
  registered w -> registered (handleDelete extractSessionId w filepath).1.
Proof.
  intros Hw. unfold handleDelete.
  destruct (sessions w !! extractSessionId filepath) as [session|];
    [| exact Hw].
  intros id s. cbn [fst sessions].
  destruct (decide (extractSessionId filepath = id)) as [<- | Hne].
  - now rewrite lookup_delete_eq.
  - rewrite lookup_delete_ne by exact Hne. apply Hw.
Qed.

Lemma handle_registered w n : registered w -> registered (handle w n).1.
Proof.
  destruct n; cbn [Watcher.handle].
  - apply handleFile_registered.
  - apply handleDelete_registered.
  - apply handlePendingPermission_registered.
  - apply handlePendingPermissionRemoved_registered.
  - apply checkStaleSessions_registered.
Qed.

Lemma run_registered ns : forall w, registered w -> registered (run w ns).1.
Proof.
  induction ns as [|n ns IH]; intros w Hw; cbn [Watcher.run].
  - exact Hw.
  - pose proof (handle_registered w n Hw) as Hstep.
    destruct (handle w n) as [w1 effects1]. cbn [fst] in Hstep.
    specialize (IH w1 Hstep).
    destruct (run w1 ns) as [w2 effects2]. exact IH.
Qed.

Lemma deriveStatus_fields entries now :
  r_messageCount (deriveStatus entries now)
  = messageCount (context (replay createActor entries))
  /\ r_lastActivityAt (deriveStatus entries now)
     = lastActivityAt (context (replay createActor entries))
  /\ lastRole (deriveStatus entries now) = role_assistant.
Proof.
  unfold deriveStatus, deriveStatusFromMachine, deriveActor. cbn.
  now rewrite applyTimeouts_context.
Qed.

(** X6.  In every state the watcher reaches, each session sits in the
    registry under its own [sessionId], and the status it shows is never
    stale with respect to its entries: it is the status derived from exactly
    those entries at some clock reading, overridden or not, so that its
    [messageCount] and [lastActivityAt] are those of the replay of the
    stored entries. *)
Theorem stored_status_follows_entries (ns : list Notification) :
  let w := (run newWatcher ns).1 in
  map_Forall
    (fun id s =>
       sessionId s = id
       /\ derivedFrom s
       /\ r_messageCount (status s)
          = messageCount (context (replay createActor (entries s)))
       /\ r_lastActivityAt (status s)
          = lastActivityAt (context (replay createActor (entries s)))
       /\ lastRole (status s) = role_assistant)
    (sessions w).
Proof.
  cbv zeta. intros id s Hs.
  destruct (run_registered ns newWatcher registered_new id s Hs)
    as [Hid Hderived].
  split; [exact Hid |]. split; [exact Hderived |].
  destruct Hderived as (now & Hstatus).
  destruct (deriveStatus_fields (entries s) now) as (Hcount & Hlast & Hrole).
  destruct Hstatus as [-> | ->]; unfold overrideStatus;
    cbn [r_messageCount r_lastActivityAt lastRole]; auto.
Qed.

(** *** What a pass keeps of a session *)

(** What never changes while a session stays registered, and how its
    entries change. *)
Definition continues (s s' : SessionState) : Prop :=
  sessionId s' = sessionId s
  /\ cwd s' = cwd s
  /\ originalPrompt s' = originalPrompt s
  /\ startedAt s' = startedAt s
  /\ exists more, entries s' = entries s ++ more.

Lemma continues_refl s : continues s s.
Proof. repeat split. exists []. now rewrite app_nil_r. Qed.

Lemma continues_updateSession s st permission :
  continues s (updateSession s st permission).
Proof. repeat split. exists []. cbn. now rewrite app_nil_r. Qed.

Lemma handleFile_continues tailJSONL getGitInfoCached now w filepath s s' :
  sessionId s = extractSessionId filepath ->
  sessions w !! extractSessionId filepath = Some s ->
  sessions (handleFile tailJSONL getGitInfoCached now w filepath).1
    !! extractSessionId filepath = Some s' ->
  continues s s'.
Proof.
  intros Hid Hs. unfold Watcher.handleFile. rewrite Hs.
  destruct (tailJSONL filepath (bytePosition s)) as [newEntries newPosition| |];
    cbn [fst]; try (rewrite Hs; intros [= <-]; apply continues_refl).
  destruct newEntries as [|entry newEntries];
    [cbn; rewrite Hs; intros [= <-]; apply continues_refl |].
  cbn [List.length Nat.eqb andb].
  unfold clearPendingPermission.
  destruct (existsb entryHasToolResult (entry :: newEntries));
    destruct (pendingPermissions w !! extractSessionId filepath);
    cbn [andb bool_decide fst snd pendingPermissions sessions];
    rewrite ?bool_decide_eq_true_2 by eauto;
    rewrite ?bool_decide_eq_false_2 by (intros [? [=]]);
    cbn [andb fst snd pendingPermissions sessions];
    match goal with
    | |- context [if ?b then (_, ?eff ++ _) else (_, ?eff)] => destruct b
    end;
    cbn [fst sessions]; rewrite lookup_insert_eq; intros [= <-];
    (repeat split; [symmetry; exact Hid | eexists; reflexivity]).
Qed.

(** The session a notification is about. *)
Definition concerns (n : Notification) (id : string) : Prop :=
  match n with
  | LogFileChanged filepath _ _ _ | LogFileRemoved filepath =>
      extractSessionId filepath = id
  | PermissionFileWritten filepath readPermission =>
      exists permission,
        readPermission filepath = Some permission
        /\ session_id permission = id
  | PermissionFileRemoved filepath _ => permissionFileSessionId filepath = id
  | StaleCheckTick _ => True
  end.

Lemma handle_frame w n id :
  ~ concerns n id ->
  sessions (handle w n).1 !! id = sessions w !! id
  /\ pendingPermissions (handle w n).1 !! id = pendingPermissions w !! id.
Proof.
  destruct n as [filepath tailJSONL getGitInfoCached now | filepath
                 | filepath readPermission | filepath now | clock];
    cbn [Watcher.handle concerns]; intros Hne.
  - destruct (handleFile_cases tailJSONL getGitInfoCached now w filepath)
      as [(-> & _) | (newEntries & newPosition & _ & _ & session & Hst)];
      [now split |].
    destruct Hst as [_ -> _ _ _ _ _ _]. cbn [sessions pendingPermissions].
    rewrite lookup_insert_ne by exact Hne.
    now rewrite pendingAfter_other by exact Hne.
  - unfold handleDelete.
    destruct (sessions w !! extractSessionId filepath); [| now split].
    cbn. now rewrite lookup_delete_ne by exact Hne.
  - unfold handlePendingPermission.
    destruct (readPermission filepath) as [permission|] eqn:Hread;
      [| now split].
    assert (session_id permission <> id) as Hne' by (intros <-; eauto).
    destruct (String.eqb (session_id permission) ""); [now split |].
    destruct (sessions w !! session_id permission); cbn;
      rewrite ?lookup_insert_ne by exact Hne'; now split.
  - unfold handlePendingPermissionRemoved.
    destruct (String.eqb (permissionFileSessionId filepath) ""); [now split |].
    destruct (sessions w !! permissionFileSessionId filepath) as [session|];
      [destruct (pendingPermission session) |]; cbn;
      rewrite ?lookup_insert_ne, ?lookup_delete_ne by exact Hne; now split.
  - now elim Hne.
Qed.

Lemma handle_continues w n id s s' :
  registered w ->
  sessions w !! id = Some s -> sessions (handle w n).1 !! id = Some s' ->
  continues s s'.
Proof.
  intros Hw Hs.
  destruct n as [filepath tailJSONL getGitInfoCached now | filepath
                 | filepath readPermission | filepath now | clock];
    cbn [Watcher.handle].
  - destruct (decide (extractSessionId filepath = id)) as [<- | Hne].
    + apply handleFile_continues; [now apply Hw | exact Hs].
    + destruct (handle_frame w (LogFileChanged filepath tailJSONL
                                  getGitInfoCached now) id Hne) as [Hframe _].
      cbn [Watcher.handle] in Hframe. rewrite Hframe, Hs.
      intros [= <-]. apply continues_refl.
  - unfold handleDelete.
    destruct (sessions w !! extractSessionId filepath) eqn:Hdel;
      [| cbn [fst]; rewrite Hs; intros [= <-]; apply continues_refl].
    cbn. destruct (decide (extractSessionId filepath = id)) as [<- | Hne].
    + now rewrite lookup_delete_eq.
    + rewrite lookup_delete_ne, Hs by exact Hne. intros [= <-].
      apply continues_refl.
  - unfold handlePendingPermission.
    destruct (readPermission filepath) as [permission|];
      [| cbn [fst]; rewrite Hs; intros [= <-]; apply continues_refl].
    destruct (String.eqb (session_id permission) "");
      [cbn [fst]; rewrite Hs; intros [= <-]; apply continues_refl |].
    destruct (sessions w !! session_id permission) as [session|] eqn:Hsession;
      cbn; [| cbn [fst]; rewrite Hs; intros [= <-]; apply continues_refl].
    destruct (decide (session_id permission = id)) as [<- | Hne].
    + rewrite lookup_insert_eq. intros [= <-].
      rewrite Hsession in Hs. injection Hs as <-.
      apply continues_updateSession.
    + rewrite lookup_insert_ne, Hs by exact Hne. intros [= <-].
      apply continues_refl.
  - unfold handlePendingPermissionRemoved.
    destruct (String.eqb (permissionFileSessionId filepath) "");
      [cbn [fst]; rewrite Hs; intros [= <-]; apply continues_refl |].
    destruct (sessions w !! permissionFileSessionId filepath)
      as [session|] eqn:Hsession;
      [destruct (pendingPermission session) |]; cbn;
      try (cbn [fst]; rewrite Hs; intros [= <-]; apply continues_refl).
    destruct (decide (permissionFileSessionId filepath = id)) as [<- | Hne].
    + rewrite lookup_insert_eq. intros [= <-].
      rewrite Hsession in Hs. injection Hs as <-.
      apply continues_updateSession.
    + rewrite lookup_insert_ne, Hs by exact Hne. intros [= <-].
      apply continues_refl.
  - cbn. rewrite map_lookup_imap, Hs. cbn. intros [= <-].
    destruct (staleCheck (clock id) s) as [s'|] eqn:Hstale; cbn;
      [| apply continues_refl].
    apply staleCheck_working in Hstale as [_ ->].
    apply continues_updateSession.
Qed.

(** X7.  Whatever a reachable watcher handles next, a session that is in
    the registry before and after keeps its [sessionId], [cwd],
    [originalPrompt] and [startedAt], and its entries are the old entries
    with, at most, new ones appended: no handler rewrites or drops what was
    read. *)
Theorem session_identity_is_kept
  (ns : list Notification) (n : Notification)
  (id : string) (s s' : SessionState) :
  let w := (run newWatcher ns).1 in
  sessions w !! id = Some s ->
  sessions (handle w n).1 !! id = Some s' ->
  sessionId s' = sessionId s
  /\ cwd s' = cwd s
  /\ originalPrompt s' = originalPrompt s
  /\ startedAt s' = startedAt s
  /\ exists more, entries s' = entries s ++ more.
Proof.
  cbv zeta. intros Hs Hs'.
  exact (handle_continues _ n id s s'
           (run_registered ns newWatcher registered_new) Hs Hs').
Qed.

(** *** One session at a time *)

Lemma published_concern w n ev :
  registered w -> In ev (published (handle w n).2) ->
  concerns n (sessionId (session ev)).
Proof.
  intros Hw.
  destruct n as [filepath tailJSONL getGitInfoCached now | filepath
                 | filepath readPermission | filepath now | clock];
    cbn [Watcher.handle concerns]; [| | | | easy].
  - destruct (handleFile_cases tailJSONL getGitInfoCached now w filepath)
      as [(_ & -> & _) | (newEntries & newPosition & _ & _ & stored & Hst)];
      [intros [] |].
    destruct Hst as [_ _ Hid _ _ _ _ ->].
    destruct (sessions w !! extractSessionId filepath);
      [destruct (_ || _ || _) |]; cbn;
      intros Hin; repeat destruct Hin as [<- | Hin]; try destruct Hin;
      cbn; now symmetry.
  - unfold handleDelete.
    destruct (sessions w !! extractSessionId filepath) as [s|] eqn:Hs;
      unfold published; cbn; [| intros []].
    intros [Hev | Hnone]; [subst ev | destruct Hnone].
    cbn. symmetry. now apply Hw.
  - unfold handlePendingPermission.
    destruct (readPermission filepath) as [permission|] eqn:Hread;
      [| intros []].
    destruct (String.eqb (session_id permission) ""); [intros [] |].
    destruct (sessions w !! session_id permission) as [s|] eqn:Hs;
      unfold published; cbn; [| intros []].
    intros [Hev | Hnone]; [subst ev | destruct Hnone].
    cbn. exists permission. split; [reflexivity |].
    symmetry. now apply Hw.
  - unfold handlePendingPermissionRemoved.
    destruct (String.eqb (permissionFileSessionId filepath) "");
      [intros [] |].
    destruct (sessions w !! permissionFileSessionId filepath) as [s|] eqn:Hs;
      [destruct (pendingPermission s) |]; unfold published; cbn;
      [| intros [] | intros []].
    intros [Hev | Hnone]; [subst ev | destruct Hnone].
    cbn. symmetry. now apply Hw.
Qed.

(** X8.  A notification about one log file or one permission file touches
    one session only: every other session and every other pending
    permission is as before, and every event the reachable watcher publishes
    while handling it carries the session the notification is about. *)
Theorem one_session_per_notification
  (ns : list Notification) (n : Notification) :
  let w := (run newWatcher ns).1 in
  (forall id, ~ concerns n id ->
     sessions (handle w n).1 !! id = sessions w !! id
     /\ pendingPermissions (handle w n).1 !! id = pendingPermissions w !! id)
  /\ Forall (fun ev => concerns n (sessionId (session ev)))
       (published (handle w n).2).
Proof.
  cbv zeta. split.
  - intros id Hne. now apply handle_frame.
  - apply List.Forall_forall. intros ev Hin.
    apply (published_concern (run newWatcher ns).1 n ev); [| exact Hin].
    apply run_registered, registered_new.
Qed.

(** *** The stale sweep *)

Lemma updateSession_same s :
  updateSession s (status s) (pendingPermission s) = s.
Proof. now destruct s. Qed.

Lemma statusChanged_same st : statusChanged (Some st) st = false.
Proof.
  destruct st as [[] [] [] ? ?]; reflexivity.
Qed.

(** What the sweep publishes for a session it changes. *)
Definition sweepEvent (clock : string -> Z) (entry : string * SessionState)
  : option Effect :=
  (fun s' => EmitSession {| type := updated; session := s';
                            previousStatus := Some (status entry.2) |})
  <$> staleCheck (clock entry.1) entry.2.

Lemma checkStaleSessions_effects clock w :
  (checkStaleSessions clock w).2
  = omap (sweepEvent clock) (map_to_list (sessions w)).
Proof.
  unfold checkStaleSessions. cbn [snd].
  induction (map_to_list (sessions w)) as [| [id s] rest IH]; [reflexivity |].
  cbn. unfold sweepEvent at 1. cbn. now rewrite IH.
Qed.

Lemma checkStaleSessions_lookup clock w id :
  sessions (checkStaleSessions clock w).1 !! id
  = (fun s => default s (staleCheck (clock id) s)) <$> sessions w !! id.
Proof.
  cbn. rewrite map_lookup_imap. now destruct (sessions w !! id).
Qed.

Lemma published_sweep clock w ev :
  In ev (published (checkStaleSessions clock w).2) <->
  exists id s s',
    sessions w !! id = Some s
    /\ staleCheck (clock id) s = Some s'
    /\ ev = {| type := updated; session := s';
               previousStatus := Some (status s) |}.
Proof.
  rewrite checkStaleSessions_effects. unfold published.
  rewrite <- list_elem_of_In, list_elem_of_omap. split.
  - intros (eff & Heff & Hev).
    apply list_elem_of_omap in Heff as ([id s] & Hin & Hsweep).
    apply elem_of_map_to_list in Hin. unfold sweepEvent in Hsweep. cbn in Hsweep.
    destruct (staleCheck (clock id) s) as [s'|] eqn:Hstale; [| discriminate].
    cbn in Hsweep. injection Hsweep as <-. injection Hev as <-.
    now exists id, s, s'.
  - intros (id & s & s' & Hs & Hstale & ->).
    exists (EmitSession {| type := updated; session := s';
                           previousStatus := Some (status s) |}).
    split; [| reflexivity].
    apply list_elem_of_omap. exists (id, s). split.
    + now apply elem_of_map_to_list.
    + unfold sweepEvent. cbn. now rewrite Hstale.
Qed.

Lemma staleCheck_changes now s s' :
  staleCheck now s = Some s' ->
  StatusMachine.status (status s) = st_working
  /\ s' = updateSession s (deriveStatus (entries s) now) (pendingPermission s)
  /\ statusDiffers (status s) (status s').
Proof.
  unfold staleCheck.
  destruct (status_eqb _ st_working) eqn:Hworking; [| discriminate].
  destruct (statusChanged _ _) eqn:Hchanged; [| discriminate].
  intros [= <-]. split; [now apply status_eqb_eq |]. split; [reflexivity |].
  now apply statusChanged_differs.
Qed.

Lemma staleCheck_keeps now s :
  staleCheck now s = None ->
  StatusMachine.status (status s) <> st_working
  \/ ~ statusDiffers (status s) (deriveStatus (entries s) now).
Proof.
  unfold staleCheck.
  destruct (status_eqb _ st_working) eqn:Hworking.
  - destruct (statusChanged _ _) eqn:Hchanged; [discriminate |].
    intros _. right. intros Hdiffers.
    apply statusChanged_differs in Hdiffers. cbv zeta in Hchanged. congruence.
  - intros _. left. intros Hstatus.
    apply status_eqb_eq in Hstatus. congruence.
Qed.

(** X9.  The periodic sweep adds and removes no session and no pending
    permission.  A session is changed exactly when it is shown as working
    and the status re-derived from its entries differs from the shown one in
    the sense of [statusChanged]; then only its [status] is replaced, by the
    re-derived one, and one updated event carrying the previous status is
    published.  Every other session is kept as it is, and every event the
    sweep publishes is the event of a session changed in this way. *)
Theorem stale_sweep_touches_working_only
  (clock : string -> Z) (w : WatcherState) :
  let result := checkStaleSessions clock w in
  pendingPermissions result.1 = pendingPermissions w
  /\ (forall id, sessions w !! id = None -> sessions result.1 !! id = None)
  /\ map_Forall
       (fun id s =>
          exists s',
            sessions result.1 !! id = Some s'
            /\ s' = updateSession s (status s') (pendingPermission s)
            /\ (s' = s
                /\ (StatusMachine.status (status s) <> st_working
                    \/ ~ statusDiffers (status s)
                           (deriveStatus (entries s) (clock id)))
                \/ StatusMachine.status (status s) = st_working
                   /\ status s' = deriveStatus (entries s) (clock id)
                   /\ statusDiffers (status s) (status s')
                   /\ In {| type := updated; session := s';
                            previousStatus := Some (status s) |}
                        (published result.2)))
       (sessions w)
  /\ Forall
       (fun ev =>
          type ev = updated
          /\ exists id s,
               sessions w !! id = Some s
               /\ sessions result.1 !! id = Some (session ev)
               /\ previousStatus ev = Some (status s)
               /\ StatusMachine.status (status s) = st_working
               /\ statusDiffers (status s) (status (session ev)))
       (published result.2).
Proof.
  cbv zeta. split; [reflexivity |]. split; [| split].
  - intros id Hnone. now rewrite checkStaleSessions_lookup, Hnone.
  - intros id s Hs. rewrite checkStaleSessions_lookup, Hs. cbn.
    destruct (staleCheck (clock id) s) as [s'|] eqn:Hstale; cbn.
    + exists s'. split; [reflexivity |].
      destruct (staleCheck_changes _ _ _ Hstale) as (Hworking & Hs' & Hdiff).
      split; [rewrite Hs' at 1; now rewrite Hs' |].
      right. split; [exact Hworking |]. split; [now rewrite Hs' |].
      split; [exact Hdiff |].
      apply published_sweep. now exists id, s, s'.
    + exists s. split; [reflexivity |].
      split; [symmetry; apply updateSession_same |].
      left. split; [reflexivity |]. now apply staleCheck_keeps.
  - apply List.Forall_forall. intros ev Hin.
    apply published_sweep in Hin as (id & s & s' & Hs & Hstale & ->).
    split; [reflexivity |]. exists id, s.
    destruct (staleCheck_changes _ _ _ Hstale) as (Hworking & Hs' & Hdiff).
    rewrite checkStaleSessions_lookup, Hs. cbn. rewrite Hstale. cbn.
    repeat split; assumption.
Qed.

Lemma staleCheck_settles now s :
  staleCheck now (default s (staleCheck now s)) = None.
Proof.
  destruct (staleCheck now s) as [s'|] eqn:Hstale; cbn; [| exact Hstale].
  apply staleCheck_working in Hstale as [_ ->].
  unfold staleCheck. cbv zeta.
  cbn [updateSession Watcher.status Watcher.entries].
  destruct (status_eqb _ st_working); [| reflexivity].
  now rewrite statusChanged_same.
Qed.

Lemma omap_none {A B} (f : A -> option B) (l : list A) :
  (forall x, In x l -> f x = None) -> omap f l = [].
Proof.
  induction l as [| x l IH]; intros Hnone; [reflexivity |].
  cbn. rewrite (Hnone x) by now left. apply IH. intros y Hy. apply Hnone. now right.
Qed.

(** X10.  A sweep settles: sweeping again at the same clock readings changes
    no session and publishes nothing, whatever the state swept. *)
Theorem stale_sweep_settles (clock : string -> Z) (w : WatcherState) :
  checkStaleSessions clock (checkStaleSessions clock w).1
  = ((checkStaleSessions clock w).1, []).
Proof.
  assert (Hsessions :
    sessions (checkStaleSessions clock (checkStaleSessions clock w).1).1
    = sessions (checkStaleSessions clock w).1).
  { apply map_eq. intros id. rewrite !checkStaleSessions_lookup.
    destruct (sessions w !! id) as [s|]; [| reflexivity]. cbn.
    now rewrite staleCheck_settles. }
  assert (Heffects :
    (checkStaleSessions clock (checkStaleSessions clock w).1).2 = []).
  { rewrite checkStaleSessions_effects. apply omap_none.
    intros [id s'] Hin. apply list_elem_of_In, elem_of_map_to_list in Hin.
    rewrite checkStaleSessions_lookup in Hin. unfold sweepEvent. cbn.
    destruct (sessions w !! id) as [s|]; [| discriminate].
    cbn in Hin. injection Hin as <-. now rewrite staleCheck_settles. }
  destruct (checkStaleSessions clock (checkStaleSessions clock w).1)
    as [w2 effects2] eqn:Hsecond.
  cbn [fst snd] in Hsessions, Heffects. subst effects2. f_equal.
  destruct w2 as [sessions2 pending2].
  apply (f_equal fst) in Hsecond. cbn in Hsecond.
  injection Hsecond as _ <-. cbn in Hsessions. now subst sessions2.
Qed.

(** *** Permission files *)

Local Abbreviation coherent_run :=
  (WatcherProps.run_coherent extractSessionId extractEncodedDir
     extractMetadata PENDING_PERMISSIONS_DIR).


Lemma updateSession_updateSession s st permission st' permission' :
  updateSession (updateSession s st permission) st' permission'
  = updateSession s st' permission'.
Proof. reflexivity. Qed.

(** X12.  A permission signalled and withdrawn leaves no trace.  From any
    state the watcher reaches in which no permission is pending for the
    session, handling the permission file and then its removal restores the
    pending permissions and the registry, except that the session - if there
    is one - has had its status re-derived from its entries at the clock
    reading of the removal; where the status shown was that one already, the
    watcher is back in the state it started from. *)
Theorem permission_round_trip
  (ns : list Notification)
  (readPermission : string -> option PendingPermission)
  (written removed : string) (permission : PendingPermission) (now : Z) :
  let w := (run newWatcher ns).1 in
  let id := session_id permission in
  let after :=
    (handlePendingPermissionRemoved now
       (handlePendingPermission readPermission w written).1 removed).1 in
  readPermission written = Some permission ->
  id <> "" ->
  permissionFileSessionId removed = id ->
  pendingPermissions w !! id = None ->
  pendingPermissions after = pendingPermissions w
  /\ sessions after
     = match sessions w !! id with
       | Some s =>
           <[id := updateSession s (deriveStatus (entries s) now) None]>
             (sessions w)
       | None => sessions w
       end
  /\ ((forall s, sessions w !! id = Some s ->
                 status s = deriveStatus (entries s) now) ->
      after = w).
Proof.
  cbv zeta. intros Hread Hid Hremoved Hnone.
  pose proof (coherent_run ns newWatcher
                ltac:(apply coherent_new)) as Hcoherent.
  set (w := (run newWatcher ns).1) in *.
  apply String.eqb_neq in Hid.
  unfold handlePendingPermission. rewrite Hread, Hid.
  unfold handlePendingPermissionRemoved. rewrite Hremoved, Hid.
  destruct (sessions w !! session_id permission) as [s|] eqn:Hs;
    cbn [fst snd sessions pendingPermissions].
  - rewrite lookup_insert_eq. cbn [updateSession pendingPermission fst].
    cbn [sessions pendingPermissions entries status].
    rewrite insert_insert_eq, delete_insert_id by exact Hnone.
    split; [reflexivity |]. split; [reflexivity |].
    intros Hstatus. destruct (Hcoherent _ _ Hs) as [Hpermission _].
    rewrite Hnone in Hpermission.
    rewrite updateSession_updateSession.
    change (entries (updateSession s (overrideStatus (status s))
                       (Some permission))) with (entries s).
    rewrite <- (Hstatus s eq_refl), <- Hpermission.
    rewrite updateSession_same, insert_id by exact Hs. now destruct w.
  - rewrite Hs. cbn [fst sessions pendingPermissions].
    rewrite delete_insert_id by exact Hnone.
    split; [reflexivity |]. split; [reflexivity |]. intros _. now destruct w.
Qed.

(** *** The file a pass unlinks *)

(** The files a handler unlinks, in order. *)
Definition unlinked (effects : list Effect) : list string :=
  omap (fun e => match e with Unlink file => Some file | _ => None end) effects.

(** Whether a character occurs in a string. *)
Fixpoint mentions (c : ascii) (s : string) : bool :=
  match s with
  | EmptyString => false
  | String c' rest => Ascii.eqb c c' || mentions c rest
  end.

Lemma append_String c s s' : String c s +:+ s' = String c (s +:+ s').
Proof. reflexivity. Qed.

Lemma append_empty_r s : s +:+ EmptyString = s.
Proof. induction s as [| c s IH]; [reflexivity |]. now rewrite append_String, IH. Qed.

Lemma append_assoc s1 s2 s3 : (s1 +:+ s2) +:+ s3 = s1 +:+ (s2 +:+ s3).
Proof.
  induction s1 as [| c s1 IH]; [reflexivity |]. now rewrite !append_String, IH.
Qed.

Lemma mentions_app c s s' :
  mentions c (s +:+ s') = mentions c s || mentions c s'.
Proof.
  induction s as [| c' s IH]; [reflexivity |].
  rewrite append_String. cbn [mentions]. now rewrite IH, orb_assoc.
Qed.

Lemma lastSegmentFrom_plain name : forall acc,
  mentions "/" name = false -> lastSegmentFrom acc name = acc +:+ name.
Proof.
  induction name as [| c name IH]; intros acc Hname; cbn [lastSegmentFrom].
  - now rewrite append_empty_r.
  - cbn [mentions] in Hname. apply orb_false_iff in Hname as [Hc Hname].
    rewrite Ascii.eqb_sym, Hc. rewrite IH by exact Hname.
    now rewrite append_assoc.
Qed.

Lemma lastSegmentFrom_in_directory dir name : forall acc,
  mentions "/" name = false ->
  lastSegmentFrom acc (dir +:+ "/" +:+ name) = name.
Proof.
  induction dir as [| c dir IH]; intros acc Hname.
  - change (lastSegmentFrom acc (EmptyString +:+ "/" +:+ name))
      with (lastSegmentFrom EmptyString name).
    now apply lastSegmentFrom_plain.
  - rewrite append_String. cbn [lastSegmentFrom].
    destruct (Ascii.eqb c "/"); now apply IH.
Qed.

Lemma lastSegment_in_directory dir name :
  mentions "/" name = false -> lastSegment (dir +:+ "/" +:+ name) = name.
Proof. apply lastSegmentFrom_in_directory. Qed.

Lemma removeFirst_extension id :
  mentions "." id = false -> removeFirst ".json" (id +:+ ".json") = id.
Proof.
  induction id as [| c id IH]; intros Hid; [reflexivity |].
  cbn [mentions] in Hid. apply orb_false_iff in Hid as [Hc Hid].
  rewrite append_String. cbn [removeFirst String.prefix].
  destruct (Ascii.ascii_dec "." c) as [<- | _]; [discriminate |].
  now rewrite IH.
Qed.

Lemma permissionFileSessionId_of_file dir id :
  mentions "/" id = false -> mentions "." id = false ->
  permissionFileSessionId (dir +:+ "/" +:+ id +:+ ".json") = id.
Proof.
  intros Hslash Hdot. unfold permissionFileSessionId.
  rewrite lastSegment_in_directory.
  - now apply removeFirst_extension.
  - rewrite mentions_app, Hslash. reflexivity.
Qed.

Lemma unlinked_app effects effects' :
  unlinked (effects ++ effects') = unlinked effects ++ unlinked effects'.
Proof. apply omap_app. Qed.

(** A pass of [handleFile] drops a pending permission exactly when it unlinks
    the permission file, and then it stores the session without it. *)
Lemma handleFile_unlinked tailJSONL getGitInfoCached now w filepath :
  let id := extractSessionId filepath in
  let fromByte :=
    match sessions w !! id with Some s => bytePosition s | None => 0%nat end in
  let result := handleFile tailJSONL getGitInfoCached now w filepath in
  (unlinked result.2 = []
   /\ pendingPermissions result.1 = pendingPermissions w)
  \/ (unlinked result.2 = [PENDING_PERMISSIONS_DIR +:+ "/" +:+ id +:+ ".json"]
      /\ is_Some (pendingPermissions w !! id)
      /\ pendingPermissions result.1 = delete id (pendingPermissions w)
      /\ (exists newEntries newPosition,
            tailJSONL filepath fromByte = TailRead newEntries newPosition
            /\ existsb entryHasToolResult newEntries = true)
      /\ exists s, sessions result.1 !! id = Some s
                   /\ pendingPermission s = None).
Proof.
  cbv zeta. unfold Watcher.handleFile.
  set (id := extractSessionId filepath).
  destruct (tailJSONL filepath _) as [newEntries newPosition| |] eqn:Htail;
    [| left; cbn; auto | left; cbn; auto].
  destruct (Nat.eqb (List.length newEntries) 0
            && bool_decide (is_Some (sessions w !! id)));
    [left; cbn; auto |].
  match goal with
  | |- context [match ?m with Some _ => _ | None => (w, [])  end] =>
      destruct m as [metadata|]; [| left; cbn; auto]
  end.
  unfold clearPendingPermission.
  destruct (existsb entryHasToolResult newEntries) eqn:Htool;
    destruct (pendingPermissions w !! id) as [p|] eqn:Hp; cbn [andb];
    rewrite ?bool_decide_eq_true_2 by eauto;
    rewrite ?bool_decide_eq_false_2 by (intros [? [=]]);
    cbn [andb fst snd pendingPermissions sessions];
    rewrite ?lookup_delete_eq, ?Hp.
  1: right.
  2-4: left.
  all: destruct (sessions w !! id) as [s|];
    repeat match goal with
           | |- context [if ?b then (_, ?eff ++ _) else (_, ?eff)] =>
               destruct b
           end;
    cbn [fst snd sessions pendingPermissions];
    rewrite ?unlinked_app; cbn [unlinked omap app];
    rewrite ?lookup_insert_eq; eauto 10.
Qed.

(** X13.  The watcher unlinks at most one file per notification, only in a
    pass over a log file whose new entries carry a tool result while a
    permission is held for the session, and the file is the one named after
    that session in the permissions directory.  A held permission leaves the
    watcher in exactly two ways: the watcher unlinks its file in such a pass,
    or a file with the name of the session is reported removed. *)
Theorem unlink_only_on_tool_result (w : WatcherState) (n : Notification) :
  let result := handle w n in
  Forall
    (fun file =>
       exists filepath tailJSONL getGitInfoCached now newEntries newPosition,
         n = LogFileChanged filepath tailJSONL getGitInfoCached now
         /\ file = PENDING_PERMISSIONS_DIR +:+ "/"
                   +:+ extractSessionId filepath +:+ ".json"
         /\ is_Some (pendingPermissions w !! extractSessionId filepath)
         /\ pendingPermissions result.1 !! extractSessionId filepath = None
         /\ tailJSONL filepath
              match sessions w !! extractSessionId filepath with
              | Some s => bytePosition s
              | None => 0%nat
              end
            = TailRead newEntries newPosition
         /\ existsb entryHasToolResult newEntries = true)
    (unlinked result.2)
  /\ (length (unlinked result.2) <= 1)%nat
  /\ forall id,
       is_Some (pendingPermissions w !! id) ->
       pendingPermissions result.1 !! id = None ->
       unlinked result.2 = [PENDING_PERMISSIONS_DIR +:+ "/" +:+ id +:+ ".json"]
       \/ exists filepath now,
            n = PermissionFileRemoved filepath now
            /\ permissionFileSessionId filepath = id.
Proof.
  cbv zeta.
  destruct n as [filepath tailJSONL getGitInfoCached now | filepath
                 | filepath readPermission | filepath now | clock];
    cbn [Watcher.handle].
  - destruct (handleFile_unlinked tailJSONL getGitInfoCached now w filepath)
      as [(-> & Hpending)
         | (-> & Hheld & Hpending & (newEntries & newPosition & Htail & Htool)
            & _)];
      rewrite Hpending.
    + split; [apply List.Forall_nil |]. split; [cbn; lia |].
      intros id [held Hid] Hnone. congruence.
    + split; [| split; [cbn; lia |]].
      * constructor; [| constructor].
        exists filepath, tailJSONL, getGitInfoCached, now, newEntries,
          newPosition.
        rewrite lookup_delete_eq. auto 10.
      * intros id [held Hid] Hnone. left.
        destruct (decide (extractSessionId filepath = id)) as [<- | Hne];
          [reflexivity |].
        rewrite lookup_delete_ne in Hnone by exact Hne. congruence.
  - unfold handleDelete. destruct (sessions w !! _); cbn;
      (split; [apply List.Forall_nil |]; split; [lia |]);
      intros id [held Hid] Hnone; congruence.
  - unfold handlePendingPermission.
    destruct (readPermission filepath) as [permission|]; cbn;
      [destruct (String.eqb _ _); [| destruct (sessions w !! _)] |]; cbn;
      (split; [apply List.Forall_nil |]; split; [lia |]);
      intros id [held Hid] Hnone; try congruence.
    all: destruct (decide (session_id permission = id)) as [<- | Hne];
      [rewrite lookup_insert_eq in Hnone; discriminate
      | rewrite lookup_insert_ne in Hnone by exact Hne; congruence].
  - unfold handlePendingPermissionRemoved.
    destruct (String.eqb _ _);
      [| destruct (sessions w !! _) as [s|]; [destruct (pendingPermission s) |]];
      cbn; (split; [apply List.Forall_nil |]; split; [lia |]);
      intros id [held Hid] Hnone; try congruence.
    all: right; exists filepath, now; split; [reflexivity |];
      destruct (decide (permissionFileSessionId filepath = id)) as [<- | Hne];
      [reflexivity
      | rewrite lookup_delete_ne in Hnone by exact Hne; congruence].
  - rewrite checkStaleSessions_effects.
    cbn [fst checkStaleSessions pendingPermissions].
    assert (Hnone : unlinked (omap (sweepEvent clock)
                                (map_to_list (sessions w))) = []).
    { induction (map_to_list (sessions w)) as [| [id s] rest IH];
        [reflexivity |].
      cbn. unfold sweepEvent at 1. cbn.
      destruct (staleCheck (clock id) s); cbn; exact IH. }
    rewrite Hnone. split; [apply List.Forall_nil |]. split; [cbn; lia |].
    intros id [held Hid] Hnone'. congruence.
Qed.

(** X14.  The removal the watcher causes itself is silent.  When a pass
    unlinks a permission file and the session id contains neither a slash nor
    a dot, the name of the unlinked file yields that session id again, and
    handling the report of its removal changes nothing and publishes
    nothing. *)
Theorem own_unlink_is_silent
  (tailJSONL : string -> nat -> TailOutcome)
  (getGitInfoCached : string -> GitInfo) (now later : Z)
  (w : WatcherState) (filepath file : string) :
  let id := extractSessionId filepath in
  let result := handleFile tailJSONL getGitInfoCached now w filepath in
  In file (unlinked result.2) ->
  mentions "/" id = false ->
  mentions "." id = false ->
  permissionFileSessionId file = id
  /\ handlePendingPermissionRemoved later result.1 file = (result.1, []).
Proof.
  cbv zeta. intros Hfile Hslash Hdot.
  destruct (handleFile_unlinked tailJSONL getGitInfoCached now w filepath)
    as [(Hnone & _) | (Hunlinked & _ & Hpending & _ & s & Hs & Hpermission)].
  { rewrite Hnone in Hfile. destruct Hfile. }
  rewrite Hunlinked in Hfile. destruct Hfile as [<- | []].
  pose proof (permissionFileSessionId_of_file PENDING_PERMISSIONS_DIR _
                Hslash Hdot) as Hname.
  split; [exact Hname |].
  unfold handlePendingPermissionRemoved. rewrite Hname.
  destruct (String.eqb _ _); [reflexivity |].
  rewrite Hs, Hpermission, Hpending.
  rewrite delete_id by apply lookup_delete_eq.
  rewrite <- Hpending.
  now destruct (handleFile tailJSONL getGitInfoCached now w filepath).1.
Qed.

(** *** The keys of the pending permissions *)

Definition keyed (w : WatcherState) : Prop :=
  map_Forall (fun id permission => session_id permission = id /\ id <> "")
    (pendingPermissions w).

Lemma handle_pending w n id permission :
  pendingPermissions (handle w n).1 !! id = Some permission ->
  pendingPermissions w !! id = Some permission
  \/ exists filepath readPermission,
       n = PermissionFileWritten filepath readPermission
       /\ readPermission filepath = Some permission
       /\ session_id permission = id /\ id <> "".
Proof.
  destruct n as [filepath tailJSONL getGitInfoCached now | filepath
                 | filepath readPermission | filepath now | clock];
    cbn [Watcher.handle].
  - destruct (handleFile_unlinked tailJSONL getGitInfoCached now w filepath)
      as [(_ & ->) | (_ & _ & -> & _)]; [now left |].
    intros Hid. left.
    destruct (decide (extractSessionId filepath = id)) as [<- | Hne].
    + now rewrite lookup_delete_eq in Hid.
    + now rewrite lookup_delete_ne in Hid.
  - unfold handleDelete. destruct (sessions w !! _); now left.
  - unfold handlePendingPermission.
    destruct (readPermission filepath) as [written|] eqn:Hread; [| now left].
    destruct (String.eqb _ _) eqn:Hempty; [now left |].
    apply String.eqb_neq in Hempty.
    assert (Hcases :
      <[session_id written := written]> (pendingPermissions w) !! id
      = Some permission ->
      pendingPermissions w !! id = Some permission
      \/ exists filepath' readPermission',
           PermissionFileWritten filepath readPermission
           = PermissionFileWritten filepath' readPermission'
           /\ readPermission' filepath' = Some permission
           /\ session_id permission = id /\ id <> "").
    { destruct (decide (session_id written = id)) as [<- | Hne].
      - rewrite lookup_insert_eq. intros [= <-]. right. eauto 6.
      - rewrite lookup_insert_ne by exact Hne. now left. }
    destruct (sessions w !! _); exact Hcases.
  - unfold handlePendingPermissionRemoved.
    destruct (String.eqb _ _); [now left |].
    assert (Hcases :
      delete (permissionFileSessionId filepath) (pendingPermissions w) !! id
      = Some permission -> pendingPermissions w !! id = Some permission).
    { destruct (decide (permissionFileSessionId filepath = id)) as [<- | Hne].
      - now rewrite lookup_delete_eq.
      - now rewrite lookup_delete_ne. }
    destruct (sessions w !! _) as [s|]; [destruct (pendingPermission s) |];
      cbn [fst pendingPermissions]; intros Hid; left; now apply Hcases.
  - now left.
Qed.

Lemma handle_keyed w n : keyed w -> keyed (handle w n).1.
Proof.
  intros Hw id permission Hid.
  destruct (handle_pending w n id permission Hid)
    as [Hbefore | (_ & _ & _ & _ & Hkey & Hne)]; [| now split].
  exact (Hw id permission Hbefore).
Qed.

Lemma run_keyed ns : forall w, keyed w -> keyed (run w ns).1.
Proof.
  induction ns as [|n ns IH]; intros w Hw; cbn [Watcher.run].
  - exact Hw.
  - pose proof (handle_keyed w n Hw) as Hstep.
    destruct (handle w n) as [w1 effects1]. cbn [fst] in Hstep.
    specialize (IH w1 Hstep).
    destruct (run w1 ns) as [w2 effects2]. exact IH.
Qed.

(** X15.  In every state the watcher reaches, a pending permission is held
    under the [session_id] it carries, which is never the empty string; and
    the permission a session carries is the one held for the session's own
    id, so that it names that session. *)
Theorem permissions_are_keyed_by_session (ns : list Notification) :
  let w := (run newWatcher ns).1 in
  map_Forall (fun id permission => session_id permission = id /\ id <> "")
    (pendingPermissions w)
  /\ map_Forall
       (fun id s =>
          pendingPermission s = pendingPermissions w !! sessionId s
          /\ forall permission,
               pendingPermission s = Some permission ->
               session_id permission = sessionId s)
       (sessions w).
Proof.
  cbv zeta.
  assert (Hkeyed : keyed (run newWatcher ns).1).
  { apply run_keyed. intros id permission Hid. cbn in Hid.
    now rewrite lookup_empty in Hid. }
  split; [exact Hkeyed |].
  intros id s Hs.
  destruct (coherent_run ns newWatcher ltac:(apply coherent_new) id s Hs)
    as [Hpermission _].
  destruct (run_registered ns newWatcher registered_new id s Hs) as [-> _].
  split; [exact Hpermission |].
  intros permission Hcarried. rewrite Hpermission in Hcarried.
  now destruct (Hkeyed _ _ Hcarried).
Qed.

(** *** Removed log files *)

(** X16.  When a log file is removed its session leaves the registry, and
    the deleted event carries the session as it was stored; a second removal
    is silent.  The pending permissions are not touched: a permission held
    for the session outlives it, and a session created again from a file of
    the same id whose entries carry no tool result starts overlaid with that
    permission. *)
Theorem delete_keeps_permission (w : WatcherState) (filepath : string) :
  let id := extractSessionId filepath in
  let result := handleDelete extractSessionId w filepath in
  sessions result.1 !! id = None
  /\ pendingPermissions result.1 = pendingPermissions w
  /\ published result.2
     = match sessions w !! id with
       | Some s => [{| type := deleted; session := s; previousStatus := None |}]
       | None => []
       end
  /\ handleDelete extractSessionId result.1 filepath = (result.1, [])
  /\ forall tailJSONL getGitInfoCached now newEntries newPosition permission,
       pendingPermissions w !! id = Some permission ->
       tailJSONL filepath 0%nat = TailRead newEntries newPosition ->
       existsb entryHasToolResult newEntries = false ->
       is_Some (extractMetadata newEntries) ->
       let again := handleFile tailJSONL getGitInfoCached now result.1 filepath in
       exists s',
         sessions again.1 !! id = Some s'
         /\ pendingPermission s' = Some permission
         /\ status s' = overrideStatus (deriveStatus newEntries now)
         /\ published again.2
            = [{| type := created; session := s'; previousStatus := None |}].
Proof.
  cbv zeta.
  assert (Hgone :
    sessions (handleDelete extractSessionId w filepath).1
      !! extractSessionId filepath = None).
  { unfold handleDelete.
    destruct (sessions w !! extractSessionId filepath) eqn:Hs; cbn.
    - apply lookup_delete_eq.
    - exact Hs. }
  assert (Hpending :
    pendingPermissions (handleDelete extractSessionId w filepath).1
    = pendingPermissions w).
  { unfold handleDelete. now destruct (sessions w !! _). }
  split; [exact Hgone |]. split; [exact Hpending |]. split; [| split].
  - unfold handleDelete. now destruct (sessions w !! _).
  - unfold handleDelete at 1. now rewrite Hgone.
  - intros tailJSONL getGitInfoCached now newEntries newPosition permission
      Hheld Htail Htool [metadata Hmetadata].
    set (w1 := (handleDelete extractSessionId w filepath).1) in *.
    destruct (handleFile_cases tailJSONL getGitInfoCached now w1 filepath)
      as [(_ & _ & Hwhy)
         | (newEntries' & newPosition' & Htail' & _ & s' & Hstored)];
      rewrite Hgone in *.
    + destruct Hwhy as [Hwhy | [Hwhy | [(? & _ & [? [=]])
                                        | (? & ? & Hwhy & _ & Hnone)]]];
        congruence.
    + rewrite Htail in Htail'. injection Htail' as <- <-.
      destruct Hstored as [_ Hstate _ Hentries _ Hpermission Hstatus Hpublished].
      unfold pendingAfter in *. rewrite Htool, Hpending in *.
      unfold allEntriesOf, storedStatus in *. rewrite Hgone, Hheld in *.
      exists s'. rewrite Hstate. cbn [sessions]. rewrite lookup_insert_eq.
      auto.
Qed.

(** *** The overlay and the permission go together *)

(** The status a session shows is the one derived from its entries at some
    clock reading: overridden when the session carries a pending permission,
    and as it is when it carries none. *)
Definition exactStatus (s : SessionState) : Prop :=
  exists now,
    status s
    = match pendingPermission s with
      | Some _ => overrideStatus (deriveStatus (entries s) now)
      | None => deriveStatus (entries s) now
      end.

Definition exact (w : WatcherState) : Prop :=
  forall id s, sessions w !! id = Some s -> exactStatus s.

Lemma handle_exact w n : exact w -> exact (handle w n).1.
Proof.
  intros Hw.
  destruct n as [filepath tailJSONL getGitInfoCached now | filepath
                 | filepath readPermission | filepath now | clock];
    cbn [Watcher.handle].
  - destruct (handleFile_cases tailJSONL getGitInfoCached now w filepath)
      as [(-> & _) | (newEntries & newPosition & _ & _ & session & Hstored)];
      [exact Hw |].
    destruct Hstored as [_ -> _ Hentries _ Hpermission Hstatus _].
    intros id s. cbn [sessions].
    destruct (decide (extractSessionId filepath = id)) as [<- | Hne].
    + rewrite lookup_insert_eq. intros [= <-]. exists now.
      rewrite Hstatus, Hpermission, Hentries. reflexivity.
    + rewrite lookup_insert_ne by exact Hne. apply Hw.
  - unfold handleDelete.
    destruct (sessions w !! extractSessionId filepath) as [removed|];
      [| exact Hw].
    intros id s. cbn [fst sessions].
    destruct (decide (extractSessionId filepath = id)) as [<- | Hne].
    + now rewrite lookup_delete_eq.
    + rewrite lookup_delete_ne by exact Hne. apply Hw.
  - unfold handlePendingPermission.
    destruct (readPermission filepath) as [permission|]; [| exact Hw].
    destruct (String.eqb (session_id permission) ""); [exact Hw |].
    destruct (sessions w !! session_id permission) as [session|] eqn:Hsession;
      [| exact Hw].
    intros id s. cbn [fst sessions].
    destruct (decide (session_id permission = id)) as [<- | Hne].
    + rewrite lookup_insert_eq. intros [= <-].
      destruct (Hw _ _ Hsession) as (now & Hst). exists now. cbn.
      rewrite Hst. now destruct (pendingPermission session).
    + rewrite lookup_insert_ne by exact Hne. apply Hw.
  - unfold handlePendingPermissionRemoved.
    set (removed := permissionFileSessionId filepath).
    destruct (String.eqb removed ""); [exact Hw |].
    destruct (sessions w !! removed) as [session|] eqn:Hsession; [| exact Hw].
    destruct (pendingPermission session); [| exact Hw].
    intros id s. cbn [fst sessions].
    destruct (decide (removed = id)) as [<- | Hne].
    + rewrite lookup_insert_eq. intros [= <-]. now exists now.
    + rewrite lookup_insert_ne by exact Hne. apply Hw.
  - intros id swept. rewrite checkStaleSessions_lookup.
    destruct (sessions w !! id) as [s|] eqn:Hs; [| discriminate].
    cbn. intros [= <-].
    destruct (staleCheck (clock id) s) as [s'|] eqn:Hstale; cbn;
      [| now apply (Hw id)].
    apply staleCheck_working in Hstale as [Hworking ->].
    destruct (Hw _ _ Hs) as (now & Hst).
    destruct (pendingPermission s) eqn:Hpermission.
    + rewrite Hst in Hworking. discriminate.
    + now exists (clock id).
Qed.

Lemma run_exact ns : forall w, exact w -> exact (run w ns).1.
Proof.
  induction ns as [|n ns IH]; intros w Hw; cbn [Watcher.run].
  - exact Hw.
  - pose proof (handle_exact w n Hw) as Hstep.
    destruct (handle w n) as [w1 effects1]. cbn [fst] in Hstep.
    specialize (IH w1 Hstep).
    destruct (run w1 ns) as [w2 effects2]. exact IH.
Qed.

(** X29.  In every state the watcher reaches, the overlay is on a session
    exactly while the session carries a pending permission: a session with
    one shows the overridden status of its entries, and a session with none
    shows the status derived from its entries, as some clock reading gave
    it - no overlay outlives its permission, and the sweep never replaces an
    overlaid status. *)
Theorem overlay_lasts_as_long_as_the_permission (ns : list Notification) :
  map_Forall
    (fun id s =>
       exists now,
         status s
         = match pendingPermission s with
           | Some _ => overrideStatus (deriveStatus (entries s) now)
           | None => deriveStatus (entries s) now
           end)
    (sessions (run newWatcher ns).1).
Proof.
  intros id s Hs.
  apply (run_exact ns newWatcher) with (id := id); [| exact Hs].
  intros id' s' Hs'. cbn in Hs'. now rewrite lookup_empty in Hs'.
Qed.

End Handlers.

End WatcherFacts.

(** ** The watcher facts on the scenario of the Edit request *)

Module WatcherFactsScenario.
Import Log StatusMachine Status Watcher StatusProps WatcherProps.
Import WatcherScenario WatcherFacts.

(** The session created from Scenario C keeps its identity and its entries
    when the tool result is read. *)
Lemma session_identity_is_kept_witness :
  exists s',
    sessions
      (handle (parser := IsoDate.isoParser) sessionIdOf encodedDirOf
         metadataOf permissionsDir afterCreation
         (LogFileChanged logPath readToolResult onMain (t0_ms + 4000))).1
      !! "abc" = Some s'
    /\ sessionId s' = sessionId createdSession
    /\ cwd s' = cwd createdSession
    /\ originalPrompt s' = originalPrompt createdSession
    /\ startedAt s' = startedAt createdSession
    /\ exists more, entries s' = entries createdSession ++ more.
Proof.
  eexists. split; [vm_compute; reflexivity |].
  apply (session_identity_is_kept (parser := IsoDate.isoParser)
           sessionIdOf encodedDirOf metadataOf permissionsDir
           [LogFileChanged logPath readScenarioC onMain (t0_ms + 3000)]
           (LogFileChanged logPath readToolResult onMain (t0_ms + 4000))
           "abc" createdSession);
    [exact afterCreation_session | vm_compute; reflexivity].
Defined.

(** The Edit request signalled and withdrawn at the clock reading of the
    creation: the watcher is back where it was. *)
Lemma permission_round_trip_witness :
  (handlePendingPermissionRemoved (parser := IsoDate.isoParser)
     (t0_ms + 3000)
     (handlePendingPermission (fun _ => Some editPermission) afterCreation
        permissionPath).1
     permissionPath).1
  = afterCreation.
Proof.
  destruct (permission_round_trip (parser := IsoDate.isoParser)
              sessionIdOf encodedDirOf metadataOf permissionsDir
              [LogFileChanged logPath readScenarioC onMain (t0_ms + 3000)]
              (fun _ => Some editPermission) permissionPath permissionPath
              editPermission (t0_ms + 3000))
    as (_ & _ & Hback);
    [reflexivity | discriminate | reflexivity | vm_compute; reflexivity |].
  apply Hback. intros s Hs.
  change (sessions afterCreation !! "abc" = Some s) in Hs.
  rewrite afterCreation_session in Hs. injection Hs as <-.
  vm_compute. reflexivity.
Defined.

(** The pass that reads the tool result unlinks the file of the Edit
    request; the report of that removal is silent. *)
Lemma own_unlink_is_silent_witness :
  let result :=
    handleFile (parser := IsoDate.isoParser) sessionIdOf encodedDirOf
      metadataOf permissionsDir readToolResult onMain (t0_ms + 4000)
      afterPermission logPath in
  unlinked result.2 = [permissionPath]
  /\ permissionFileSessionId permissionPath = sessionIdOf logPath
  /\ handlePendingPermissionRemoved (parser := IsoDate.isoParser)
       (t0_ms + 9000) result.1 permissionPath
     = (result.1, []).
Proof.
  cbv zeta. split; [vm_compute; reflexivity |].
  apply (own_unlink_is_silent (parser := IsoDate.isoParser)
           sessionIdOf encodedDirOf metadataOf permissionsDir
           readToolResult onMain (t0_ms + 4000) (t0_ms + 9000)
           afterPermission logPath permissionPath);
    [vm_compute; left; reflexivity | reflexivity | reflexivity].
Defined.

End WatcherFactsScenario.

(** ** watcher.ts: the debounce timers *)

Module Debounce.

(** A pending [setTimeout] of [debouncedHandleFile]: when it is due, and the
    file its callback will pass to [handleFile]. *)
Record Timer : Type := mkTimer {
  deadline : Z;
  target : string
}.

(** [debounceTimers], and the timers of the runtime that were set by
    [debouncedHandleFile] and have neither fired nor been cleared; timer
    handles are numbered in the order [setTimeout] hands them out. *)
Record Debouncer : Type := mkDebouncer {
  debounceTimers : gmap string nat;
  live : gmap nat Timer;
  nextTimer : nat
}.

Definition newDebouncer : Debouncer :=
  {| debounceTimers := ∅; live := ∅; nextTimer := 0 |}.

(** [debouncedHandleFile(filepath)] at clock reading [now]. *)
Definition debouncedHandleFile (debounceMs now : Z) (d : Debouncer)
  (filepath : string) : Debouncer :=
  let cleared :=
    match debounceTimers d !! filepath with
    | Some existing => delete existing (live d)
    | None => live d
    end in
  let timer := nextTimer d in
  {| debounceTimers := <[filepath := timer]> (debounceTimers d);
     live := <[timer := {| deadline := now + debounceMs; target := filepath |}]>
               cleared;
     nextTimer := S timer |}.

(** The runtime runs the callback of [timer] at clock reading [now]: nothing
    happens unless the timer is live and due; otherwise the callback forgets
    the timer and calls [handleFile(filepath, "change")].  The files
    [handleFile] is called with are returned. *)
Definition expire (now : Z) (d : Debouncer) (timer : nat)
  : Debouncer * list string :=
  match live d !! timer with
  | Some t =>
      if deadline t <=? now
      then ({| debounceTimers := delete (target t) (debounceTimers d);
               live := delete timer (live d);
               nextTimer := nextTimer d |}, [target t])
      else (d, [])
  | None => (d, [])
  end.

(** The part of [stop()] on the debounce timers. *)
Definition stop (d : Debouncer) : Debouncer :=
  {| debounceTimers := ∅;
     live := foldr delete (live d) ((map_to_list (debounceTimers d)).*2);
     nextTimer := nextTimer d |}.

Inductive Step : Type :=
| Change (now : Z) (filepath : string)
| Expire (now : Z) (timer : nat)
| Stop.

Definition step (debounceMs : Z) (d : Debouncer) (s : Step)
  : Debouncer * list string :=
  match s with
  | Change now filepath => (debouncedHandleFile debounceMs now d filepath, [])
  | Expire now timer => expire now d timer
  | Stop => (stop d, [])
  end.

Fixpoint run (debounceMs : Z) (d : Debouncer) (steps : list Step)
  : Debouncer * list string :=
  match steps with
  | [] => (d, [])
  | s :: steps =>
      let '(d1, calls1) := step debounceMs d s in
      let '(d2, calls2) := run debounceMs d1 steps in
      (d2, calls1 ++ calls2)
  end.

(** A burst of changes to one file. *)
Definition burst (debounceMs : Z) (d : Debouncer) (filepath : string)
  (times : list Z) : Debouncer :=
  fold_left (fun d now => debouncedHandleFile debounceMs now d filepath)
    times d.

(** The live timers are exactly the registered ones, each for its file. *)
Record linked (d : Debouncer) : Prop := mkLinked {
  linked_registered :
    forall filepath timer,
      debounceTimers d !! filepath = Some timer ->
      exists t, live d !! timer = Some t /\ target t = filepath;
  linked_live :
    forall timer t,
      live d !! timer = Some t -> debounceTimers d !! target t = Some timer;
  linked_fresh :
    forall timer, is_Some (live d !! timer) -> (timer < nextTimer d)%nat
}.

Lemma linked_new : linked newDebouncer.
Proof.
  split; cbn.
  - intros filepath timer H. now rewrite lookup_empty in H.
  - intros timer t H. now rewrite lookup_empty in H.
  - intros timer [t H]. now rewrite lookup_empty in H.
Qed.

Lemma cleared_lookup d filepath timer t :
  linked d ->
  match debounceTimers d !! filepath with
  | Some existing => delete existing (live d)
  | None => live d
  end !! timer = Some t
  <-> live d !! timer = Some t /\ target t <> filepath.
Proof.
  intros [Hregistered Hlive _].
  destruct (debounceTimers d !! filepath) as [existing|] eqn:Hexisting.
  - destruct (decide (existing = timer)) as [-> | Hne].
    + rewrite lookup_delete_eq. split; [discriminate |].
      intros [Ht Htarget]. destruct (Hregistered _ _ Hexisting) as (t' & Ht' & ?).
      congruence.
    + rewrite lookup_delete_ne by exact Hne. split; [| tauto].
      intros Ht. split; [exact Ht |]. intros <-.
      apply Hlive in Ht. congruence.
  - split; [| tauto]. intros Ht. split; [exact Ht |]. intros <-.
    apply Hlive in Ht. congruence.
Qed.

Lemma debouncedHandleFile_live debounceMs now d filepath timer t :
  linked d ->
  live (debouncedHandleFile debounceMs now d filepath) !! timer = Some t
  <-> (timer = nextTimer d
       /\ t = {| deadline := now + debounceMs; target := filepath |})
      \/ (live d !! timer = Some t /\ target t <> filepath).
Proof.
  intros Hd. cbn [debouncedHandleFile live].
  destruct (decide (nextTimer d = timer)) as [<- | Hne].
  - rewrite lookup_insert_eq. split.
    + intros [= <-]. now left.
    + intros [[_ ->] | [Ht _]]; [reflexivity |].
      pose proof (linked_fresh d Hd (nextTimer d) (ex_intro _ t Ht)). lia.
  - rewrite lookup_insert_ne by exact Hne.
    rewrite (cleared_lookup d filepath timer t Hd).
    split; [now right |]. intros [[-> _] | H]; [congruence | exact H].
Qed.

Lemma debouncedHandleFile_linked debounceMs now d filepath :
  linked d -> linked (debouncedHandleFile debounceMs now d filepath).
Proof.
  intros Hd. split.
  - intros filepath' timer. cbn [debouncedHandleFile debounceTimers].
    destruct (decide (filepath = filepath')) as [<- | Hne].
    + rewrite lookup_insert_eq. intros [= <-].
      exists {| deadline := now + debounceMs; target := filepath |}.
      split; [| reflexivity].
      apply debouncedHandleFile_live; [exact Hd | now left].
    + rewrite lookup_insert_ne by exact Hne. intros Hregistered.
      destruct (linked_registered d Hd _ _ Hregistered) as (t & Ht & Htarget).
      exists t. split; [| exact Htarget].
      apply debouncedHandleFile_live; [exact Hd |]. right. split; congruence.
  - intros timer t Ht.
    apply debouncedHandleFile_live in Ht as [[-> ->] | [Ht Htarget]];
      [| | exact Hd]; cbn [debouncedHandleFile debounceTimers target].
    + apply lookup_insert_eq.
    + rewrite lookup_insert_ne by congruence. now apply (linked_live d Hd).
  - intros timer [t Ht].
    apply debouncedHandleFile_live in Ht as [[-> ->] | [Ht Htarget]];
      [| | exact Hd]; cbn [debouncedHandleFile nextTimer]; [lia |].
    pose proof (linked_fresh d Hd timer (ex_intro _ t Ht)). lia.
Qed.

Lemma expire_linked now d timer : linked d -> linked (expire now d timer).1.
Proof.
  intros Hd. unfold expire.
  destruct (live d !! timer) as [t|] eqn:Ht; [| exact Hd].
  destruct (deadline t <=? now); [| exact Hd].
  cbn [fst]. split; cbn [debounceTimers live nextTimer].
  - intros filepath timer' Hregistered.
    destruct (decide (target t = filepath)) as [<- | Hne];
      [now rewrite lookup_delete_eq in Hregistered |].
    rewrite lookup_delete_ne in Hregistered by exact Hne.
    destruct (linked_registered d Hd _ _ Hregistered) as (t' & Ht' & Htarget).
    exists t'. split; [| exact Htarget].
    rewrite lookup_delete_ne; [exact Ht' |]. intros <-. congruence.
  - intros timer' t' Ht'.
    destruct (decide (timer = timer')) as [<- | Hne];
      [now rewrite lookup_delete_eq in Ht' |].
    rewrite lookup_delete_ne in Ht' by exact Hne.
    rewrite lookup_delete_ne; [now apply (linked_live d Hd) |].
    intros Htarget. apply (linked_live d Hd) in Ht, Ht'. congruence.
  - intros timer' [t' Ht'].
    destruct (decide (timer = timer')) as [<- | Hne];
      [now rewrite lookup_delete_eq in Ht' |].
    rewrite lookup_delete_ne in Ht' by exact Hne.
    now apply (linked_fresh d Hd); exists t'.
Qed.

Lemma lookup_foldr_delete (timers : gmap nat Timer) (handles : list nat) timer :
  foldr delete timers handles !! timer
  = if decide (timer ∈ handles) then None else timers !! timer.
Proof.
  induction handles as [| handle handles IH]; cbn.
  - destruct (decide (timer ∈ [])) as [Hin |]; [| reflexivity].
    now apply elem_of_nil in Hin.
  - destruct (decide (handle = timer)) as [-> | Hne].
    + rewrite lookup_delete_eq.
      destruct (decide (timer ∈ timer :: handles)) as [| Hout];
        [reflexivity |].
      exfalso. apply Hout. left.
    + rewrite lookup_delete_ne by exact Hne. rewrite IH.
      destruct (decide (timer ∈ handles)) as [Hin | Hout];
        destruct (decide (timer ∈ handle :: handles)) as [Hin' | Hout'];
        try reflexivity.
      * exfalso. apply Hout'. now right.
      * apply elem_of_cons in Hin' as [-> | Hin']; [congruence | tauto].
Qed.

Lemma stop_live d : linked d -> live (stop d) = ∅.
Proof.
  intros Hd. apply map_eq. intros timer. rewrite lookup_empty.
  cbn [stop live]. rewrite lookup_foldr_delete.
  destruct (decide (timer ∈ (map_to_list (debounceTimers d)).*2))
    as [| Hout]; [reflexivity |].
  destruct (live d !! timer) as [t|] eqn:Ht; [| reflexivity].
  exfalso. apply Hout. apply (linked_live d Hd) in Ht.
  apply list_elem_of_fmap. exists (target t, timer).
  split; [reflexivity |]. now apply elem_of_map_to_list.
Qed.

Lemma stop_linked d : linked d -> linked (stop d).
Proof.
  intros Hd. split.
  - intros filepath timer H. cbn in H. now rewrite lookup_empty in H.
  - intros timer t H. rewrite (stop_live d Hd) in H.
    now rewrite lookup_empty in H.
  - intros timer [t H]. rewrite (stop_live d Hd) in H.
    now rewrite lookup_empty in H.
Qed.

Lemma step_linked debounceMs d s :
  linked d -> linked (step debounceMs d s).1.
Proof.
  destruct s as [now filepath | now timer |]; cbn [step fst].
  - apply debouncedHandleFile_linked.
  - apply expire_linked.
  - apply stop_linked.
Qed.

Lemma run_linked debounceMs steps : forall d,
  linked d -> linked (run debounceMs d steps).1.
Proof.
  induction steps as [| s steps IH]; intros d Hd; cbn [run].
  - exact Hd.
  - pose proof (step_linked debounceMs d s Hd) as Hstep.
    destruct (step debounceMs d s) as [d1 calls1]. cbn [fst] in Hstep.
    specialize (IH d1 Hstep).
    destruct (run debounceMs d1 steps) as [d2 calls2]. exact IH.
Qed.

(** X17.  Whatever changes are reported, whichever timers run and however
    often the watcher is stopped, the timers that can still fire are exactly
    the ones registered in [debounceTimers], each under the file its callback
    will handle: no file has two pending calls of [handleFile], and no timer
    is left that the watcher has lost track of. *)
Theorem one_pending_call_per_file (debounceMs : Z) (steps : list Step) :
  let d := (run debounceMs newDebouncer steps).1 in
  (forall filepath timer,
     debounceTimers d !! filepath = Some timer <->
     exists t, live d !! timer = Some t /\ target t = filepath)
  /\ (forall timer timer' t t',
        live d !! timer = Some t -> live d !! timer' = Some t' ->
        target t = target t' -> timer = timer').
Proof.
  cbv zeta.
  pose proof (run_linked debounceMs steps newDebouncer linked_new) as Hd.
  set (d := (run debounceMs newDebouncer steps).1) in *.
  split.
  - intros filepath timer. split; [apply (linked_registered d Hd) |].
    intros (t & Ht & <-). now apply (linked_live d Hd).
  - intros timer timer' t t' Ht Ht' Htarget.
    apply (linked_live d Hd) in Ht, Ht'. congruence.
Qed.

(** X18.  After [stop()] nothing is pending: no timer is registered, none
    is live, and whichever timer handle the runtime is asked to run, at any
    clock reading, [handleFile] is not called. *)
Theorem stop_cancels_every_pending_call
  (debounceMs : Z) (steps : list Step) (now : Z) (timer : nat) :
  let d := stop (run debounceMs newDebouncer steps).1 in
  debounceTimers d = ∅
  /\ live d = ∅
  /\ expire now d timer = (d, []).
Proof.
  cbv zeta.
  pose proof (run_linked debounceMs steps newDebouncer linked_new) as Hd.
  split; [reflexivity |]. split; [now apply stop_live |].
  unfold expire. rewrite (stop_live _ Hd). now rewrite lookup_empty.
Qed.

Lemma burst_snoc debounceMs d filepath times now :
  burst debounceMs d filepath (times ++ [now])
  = debouncedHandleFile debounceMs now (burst debounceMs d filepath times)
      filepath.
Proof. unfold burst. now rewrite fold_left_app. Qed.

Lemma burst_linked debounceMs filepath times : forall d,
  linked d -> linked (burst debounceMs d filepath times).
Proof.
  induction times as [| now times IH]; intros d Hd; [exact Hd |].
  apply IH. now apply debouncedHandleFile_linked.
Qed.

Lemma burst_others debounceMs filepath times : forall d timer t,
  linked d -> target t <> filepath -> 
  live (burst debounceMs d filepath times) !! timer = Some t
  <-> live d !! timer = Some t.
Proof.
  induction times as [| now times IH]; intros d timer t Hd Hother;
    [reflexivity |].
  cbn [burst fold_left]. 
  change (fold_left _ times ?d') with (burst debounceMs d' filepath times).
  rewrite IH by (try apply debouncedHandleFile_linked; assumption).
  rewrite debouncedHandleFile_live by exact Hd.
  split; [| now right].
  intros [[_ ->] | [Ht _]]; [now cbn in Hother | exact Ht].
Qed.

(** X19.  A burst of changes to one file, however long, leaves exactly one
    call of [handleFile] pending for it: due [debounceMs] after the last
    change of the burst, so that no timer run before then calls [handleFile]
    for the file, while the timer registered for it, run when due, calls it
    once and leaves nothing pending for the file.  The timers of other files
    are as they were. *)
Theorem burst_is_handled_once
  (debounceMs : Z) (steps : list Step) (filepath : string)
  (times : list Z) (last : Z) :
  let d := (run debounceMs newDebouncer steps).1 in
  let d' := burst debounceMs d filepath (times ++ [last]) in
  (exists timer,
     debounceTimers d' !! filepath = Some timer
     /\ live d' !! timer
        = Some {| deadline := last + debounceMs; target := filepath |}
     /\ (forall timer' t,
           live d' !! timer' = Some t -> target t = filepath -> timer' = timer)
     /\ forall now,
          last + debounceMs <= now ->
          (expire now d' timer).2 = [filepath]
          /\ debounceTimers (expire now d' timer).1 !! filepath = None
          /\ forall timer', ~ In filepath (expire now (expire now d' timer).1
                                             timer').2)
  /\ (forall now timer',
        now < last + debounceMs -> ~ In filepath (expire now d' timer').2)
  /\ (forall timer' t,
        target t <> filepath ->
        live d' !! timer' = Some t <-> live d !! timer' = Some t).
Proof.
  cbv zeta.
  pose proof (run_linked debounceMs steps newDebouncer linked_new) as Hd.
  set (d := (run debounceMs newDebouncer steps).1) in *.
  pose proof (burst_linked debounceMs filepath times d Hd) as Hbefore.
  pose proof (burst_linked debounceMs filepath (times ++ [last]) d Hd) as Hd'.
  assert (Hregistered :
    debounceTimers (burst debounceMs d filepath (times ++ [last])) !! filepath
    = Some (nextTimer (burst debounceMs d filepath times))).
  { rewrite burst_snoc. cbn. apply lookup_insert_eq. }
  assert (Hlive :
    live (burst debounceMs d filepath (times ++ [last]))
      !! nextTimer (burst debounceMs d filepath times)
    = Some {| deadline := last + debounceMs; target := filepath |}).
  { rewrite burst_snoc. cbn. apply lookup_insert_eq. }
  assert (Hquiet : forall d0 now timer',
    linked d0 -> debounceTimers d0 !! filepath = None ->
    ~ In filepath (expire now d0 timer').2).
  { intros d0 now timer' Hd0 Hnone. unfold expire.
    destruct (live d0 !! timer') as [t|] eqn:Ht; [| intros []].
    destruct (deadline t <=? now); [| intros []].
    intros [Htarget | []]. apply (linked_live d0 Hd0) in Ht. congruence. }
  split; [| split].
  - exists (nextTimer (burst debounceMs d filepath times)).
    split; [exact Hregistered |]. split; [exact Hlive |]. split.
    + intros timer' t Ht Htarget.
      apply (linked_live _ Hd') in Ht. congruence.
    + intros now Hdue.
      assert (Hexpire :
        expire now (burst debounceMs d filepath (times ++ [last]))
          (nextTimer (burst debounceMs d filepath times))
        = ({| debounceTimers :=
                delete filepath
                  (debounceTimers
                     (burst debounceMs d filepath (times ++ [last])));
              live :=
                delete (nextTimer (burst debounceMs d filepath times))
                  (live (burst debounceMs d filepath (times ++ [last])));
              nextTimer :=
                nextTimer (burst debounceMs d filepath (times ++ [last])) |},
           [filepath])).
      { unfold expire. rewrite Hlive. cbn [deadline target].
        destruct (Z.leb_spec (last + debounceMs) now); [reflexivity | lia]. }
      split; [now rewrite Hexpire |].
      assert (Hnone :
        debounceTimers
          (expire now (burst debounceMs d filepath (times ++ [last]))
             (nextTimer (burst debounceMs d filepath times))).1
          !! filepath = None).
      { rewrite Hexpire. cbn. apply lookup_delete_eq. }
      split; [exact Hnone |].
      intros timer'. apply Hquiet; [| exact Hnone].
      now apply expire_linked.
  - intros now timer' Hearly. unfold expire.
    destruct (live _ !! timer') as [t|] eqn:Ht; [| intros []].
    destruct (Z.leb_spec (deadline t) now) as [Hdue |]; [| intros []].
    intros [Htarget | []].
    pose proof (linked_live _ Hd' _ _ Ht) as Hregistered'.
    rewrite Htarget, Hregistered in Hregistered'.
    injection Hregistered' as <-. rewrite Hlive in Ht. injection Ht as <-.
    cbn in Hdue. lia.
  - intros timer' t Hother. now apply burst_others.
Qed.

End Debounce.

(** ** github.ts: CI status of a pull request *)

Module GitHub.

Inductive CIStatus : Type :=
| ci_pending | ci_running | ci_success | ci_failure | ci_cancelled | ci_unknown.

(** A check as [gh pr checks --json name,state,link] reports it, and as
    [PRInfo.ciChecks] holds it. *)
Record RawCheck : Type := mkRawCheck {
  name : string;
  state : string;
  link : option string
}.

Record Check : Type := mkCheck {
  c_name : string;
  c_status : CIStatus;
  c_url : option string
}.

Section Checks.

(** [String.prototype.toUpperCase]. *)
Variable toUpperCase : string -> string.

Definition mapGHState (state : string) : CIStatus :=
  let s := toUpperCase state in
  if String.eqb s "SUCCESS" || String.eqb s "COMPLETED"
     || String.eqb s "NEUTRAL" || String.eqb s "SKIPPED" then ci_success
  else if String.eqb s "FAILURE" || String.eqb s "ERROR"
          || String.eqb s "TIMED_OUT" || String.eqb s "ACTION_REQUIRED"
       then ci_failure
  else if String.eqb s "CANCELLED" then ci_cancelled
  else if String.eqb s "IN_PROGRESS" || String.eqb s "QUEUED"
          || String.eqb s "REQUESTED" || String.eqb s "WAITING"
       then ci_running
  else if String.eqb s "PENDING" then ci_pending
  else ci_unknown.

Definition mapCheck (check : RawCheck) : Check :=
  {| c_name := name check;
     c_status := mapGHState (state check);
     c_url := match link check with
              | Some EmptyString | None => None
              | Some url => Some url
              end |}.

(** The loop under "Determine overall status", entered with the value
    [overallStatus] has so far. *)
Fixpoint overallLoop (overallStatus : CIStatus) (mappedChecks : list Check)
  : CIStatus :=
  match mappedChecks with
  | [] => overallStatus
  | check :: rest =>
      match c_status check with
      | ci_failure | ci_cancelled => ci_failure
      | ci_running => overallLoop ci_running rest
      | ci_pending =>
          match overallStatus with
          | ci_running => overallLoop overallStatus rest
          | _ => overallLoop ci_pending rest
          end
      | _ => overallLoop overallStatus rest
      end
  end.

(** [getCIStatus(cwd, prNumber)] on what [gh] answered: the parsed checks,
    or [None] when running [gh] or parsing its output throws. *)
Definition getCIStatus (answer : option (list RawCheck))
  : CIStatus * list Check :=
  match answer with
  | Some checks =>
      let mappedChecks := map mapCheck checks in
      let overallStatus := overallLoop ci_success mappedChecks in
      let overallStatus :=
        if Nat.eqb (List.length mappedChecks) 0 then ci_unknown
        else overallStatus in
      (overallStatus, mappedChecks)
  | None => (ci_unknown, [])
  end.

End Checks.

(** *** Polling *)

(** A [setInterval] of the polling: its period, and the session and pull
    request its callback queues a [check_ci] task for. *)
Record Interval : Type := mkInterval {
  period : Z;
  i_sessionId : string;
  i_prNumber : Z
}.

(** [activeCIPolling], and the intervals of the runtime set by the polling
    and not cleared. *)
Record Polling : Type := mkPolling {
  activeCIPolling : gmap string nat;
  intervals : gmap nat Interval;
  nextInterval : nat
}.

Definition noPolling : Polling :=
  {| activeCIPolling := ∅; intervals := ∅; nextInterval := 0 |}.

Definition CI_POLL_INTERVAL_ACTIVE : Z := 30000.
Definition CI_POLL_INTERVAL_IDLE : Z := 5 * 60000.

Definition setPolling (every : Z) (p : Polling) (prNumber : Z)
  (sessionId : string) : Polling :=
  let interval := nextInterval p in
  {| activeCIPolling := <[sessionId := interval]> (activeCIPolling p);
     intervals := <[interval := {| period := every; i_sessionId := sessionId;
                                   i_prNumber := prNumber |}]> (intervals p);
     nextInterval := S interval |}.

Definition startCIPolling (p : Polling) (prNumber : Z) (sessionId : string)
  : Polling :=
  match activeCIPolling p !! sessionId with
  | Some _ => p
  | None => setPolling CI_POLL_INTERVAL_ACTIVE p prNumber sessionId
  end.

Definition stopCIPolling (p : Polling) (sessionId : string) : Polling :=
  match activeCIPolling p !! sessionId with
  | Some interval =>
      {| activeCIPolling := delete sessionId (activeCIPolling p);
         intervals := delete interval (intervals p);
         nextInterval := nextInterval p |}
  | None => p
  end.

Definition startIdleCIPolling (p : Polling) (prNumber : Z) (sessionId : string)
  : Polling :=
  setPolling CI_POLL_INTERVAL_IDLE (stopCIPolling p sessionId) prNumber
    sessionId.

Definition stopAllPolling (p : Polling) : Polling :=
  foldl stopCIPolling p ((map_to_list (activeCIPolling p)).*1).

(** What [checkPRForBranch] does to the polling once it has fetched a pull
    request whose overall status is [overallStatus]. *)
Definition afterPRCheck (overallStatus : CIStatus) (p : Polling)
  (prNumber : Z) (sessionId : string) : Polling :=
  match overallStatus with
  | ci_pending | ci_running => startCIPolling p prNumber sessionId
  | _ => p
  end.

(** What [checkCIStatus] does to the polling once it has found the pull
    request in the cache. *)
Definition afterCICheck (overallStatus : CIStatus) (p : Polling)
  (prNumber : Z) (sessionId : string) : Polling :=
  match overallStatus with
  | ci_success | ci_failure | ci_cancelled =>
      startIdleCIPolling (stopCIPolling p sessionId) prNumber sessionId
  | _ => p
  end.

(** [clearPRForSession] on the polling. *)
Definition clearPRForSession (p : Polling) (sessionId : string) : Polling :=
  stopCIPolling p sessionId.

Inductive PollingStep : Type :=
| PRChecked (overallStatus : CIStatus) (prNumber : Z) (sessionId : string)
| CIChecked (overallStatus : CIStatus) (prNumber : Z) (sessionId : string)
| BranchChanged (sessionId : string)
| AllStopped.

Definition pollingStep (p : Polling) (s : PollingStep) : Polling :=
  match s with
  | PRChecked overallStatus prNumber sessionId =>
      afterPRCheck overallStatus p prNumber sessionId
  | CIChecked overallStatus prNumber sessionId =>
      afterCICheck overallStatus p prNumber sessionId
  | BranchChanged sessionId => clearPRForSession p sessionId
  | AllStopped => stopAllPolling p
  end.

Definition polling (p : Polling) (steps : list PollingStep) : Polling :=
  foldl pollingStep p steps.

(** The period at which a session is polled, if it is. *)
Definition periodOf (p : Polling) (sessionId : string) : option Z :=
  interval ← activeCIPolling p !! sessionId;
  period <$> intervals p !! interval.

End GitHub.

Module GitHubProps.
Import GitHub.

Definition ci_eqb (a b : CIStatus) : bool :=
  match a, b with
  | ci_pending, ci_pending | ci_running, ci_running | ci_success, ci_success
  | ci_failure, ci_failure | ci_cancelled, ci_cancelled
  | ci_unknown, ci_unknown => true
  | _, _ => false
  end.

Lemma ci_eqb_eq a b : ci_eqb a b = true <-> a = b.
Proof. destruct a, b; cbn; split; congruence. Qed.

(** Some check has status [st]. *)
Definition has (st : CIStatus) (checks : list Check) : Prop :=
  Exists (fun check => c_status check = st) checks.

Definition hasb (st : CIStatus) (checks : list Check) : bool :=
  existsb (fun check => ci_eqb (c_status check) st) checks.

Lemma has_hasb st checks : has st checks <-> hasb st checks = true.
Proof.
  unfold has, hasb. rewrite List.Exists_exists, existsb_exists.
  split; intros (check & Hin & Hstatus); exists check; split; auto;
    now apply ci_eqb_eq.
Qed.

Lemma overallLoop_hasb checks : forall overallStatus,
  overallStatus = ci_success \/ overallStatus = ci_pending
  \/ overallStatus = ci_running ->
  overallLoop overallStatus checks
  = if hasb ci_failure checks || hasb ci_cancelled checks then ci_failure
    else if ci_eqb overallStatus ci_running || hasb ci_running checks
         then ci_running
    else if ci_eqb overallStatus ci_pending || hasb ci_pending checks
         then ci_pending
    else ci_success.
Proof.
  induction checks as [| check checks IH]; intros overallStatus Hentered.
  - destruct Hentered as [-> | [-> | ->]]; reflexivity.
  - cbn [overallLoop hasb existsb]. fold (hasb ci_failure checks).
    fold (hasb ci_cancelled checks). fold (hasb ci_running checks).
    fold (hasb ci_pending checks).
    destruct Hentered as [-> | [-> | ->]];
      destruct (c_status check); cbn [ci_eqb orb];
      rewrite ?orb_true_r; try reflexivity;
      rewrite IH by auto; cbn [ci_eqb orb]; reflexivity.
Qed.

Lemma passed_hasb checks :
  Forall (fun check => c_status check = ci_success
                       \/ c_status check = ci_unknown) checks
  <-> hasb ci_failure checks = false /\ hasb ci_cancelled checks = false
      /\ hasb ci_running checks = false /\ hasb ci_pending checks = false.
Proof.
  induction checks as [| check checks IH].
  - split; [now repeat split | constructor].
  - rewrite List.Forall_cons_iff, IH. unfold hasb. cbn [existsb].
    rewrite !orb_false_iff.
    destruct (c_status check); cbn [ci_eqb]; intuition congruence.
Qed.

Section Checks.
Variable toUpperCase : string -> string.

(** X20.  The overall status follows a priority that does not depend on the
    order of the checks: failure as soon as a check failed or was cancelled;
    otherwise running if a check is running; otherwise pending if one is
    pending; otherwise success - so checks of unknown status count as passed;
    and unknown exactly when there is no check, which includes the case that
    [gh] could not be run.  It is never cancelled. *)
Theorem overall_status_by_priority (answer : option (list RawCheck)) :
  let overall := (getCIStatus toUpperCase answer).1 in
  let checks := (getCIStatus toUpperCase answer).2 in
  let failed := has ci_failure checks \/ has ci_cancelled checks in
  checks = map (mapCheck toUpperCase) (default [] answer)
  /\ (overall = ci_unknown <-> checks = [])
  /\ (overall = ci_failure <-> failed)
  /\ (overall = ci_running <-> ~ failed /\ has ci_running checks)
  /\ (overall = ci_pending <->
      ~ failed /\ ~ has ci_running checks /\ has ci_pending checks)
  /\ (overall = ci_success <->
      checks <> []
      /\ Forall (fun check => c_status check = ci_success
                              \/ c_status check = ci_unknown) checks)
  /\ overall <> ci_cancelled.
Proof.
  cbv zeta. rewrite passed_hasb, !has_hasb.
  destruct answer as [raw |]; cbn [getCIStatus fst snd default].
  2: { cbn. intuition congruence. }
  split; [reflexivity |].
  destruct (map (mapCheck toUpperCase) raw) as [| check checks] eqn:Hmapped.
  { cbn. intuition congruence. }
  cbn [List.length Nat.eqb]. rewrite overallLoop_hasb by auto.
  cbn [ci_eqb orb].
  destruct (hasb ci_failure (check :: checks)),
    (hasb ci_cancelled (check :: checks)),
    (hasb ci_running (check :: checks)),
    (hasb ci_pending (check :: checks)); cbn [orb];
    intuition congruence.
Qed.

End Checks.

(** *** Polling *)

Record tracked (p : Polling) : Prop := mkTracked {
  tracked_registered :
    forall sessionId interval,
      activeCIPolling p !! sessionId = Some interval ->
      exists i, intervals p !! interval = Some i
                /\ i_sessionId i = sessionId;
  tracked_live :
    forall interval i,
      intervals p !! interval = Some i ->
      activeCIPolling p !! i_sessionId i = Some interval
      /\ (period i = CI_POLL_INTERVAL_ACTIVE
          \/ period i = CI_POLL_INTERVAL_IDLE);
  tracked_fresh :
    forall interval,
      is_Some (intervals p !! interval) -> (interval < nextInterval p)%nat
}.

Lemma tracked_none : tracked noPolling.
Proof.
  split; cbn.
  - intros sessionId interval H. now rewrite lookup_empty in H.
  - intros interval i H. now rewrite lookup_empty in H.
  - intros interval [i H]. now rewrite lookup_empty in H.
Qed.

Lemma setPolling_tracked every p prNumber sessionId :
  every = CI_POLL_INTERVAL_ACTIVE \/ every = CI_POLL_INTERVAL_IDLE ->
  activeCIPolling p !! sessionId = None ->
  tracked p -> tracked (setPolling every p prNumber sessionId).
Proof.
  intros Hevery Hnone Hp.
  assert (Hfresh : intervals p !! nextInterval p = None).
  { destruct (intervals p !! nextInterval p) as [i|] eqn:Hi; [| reflexivity].
    pose proof (tracked_fresh p Hp _ (ex_intro _ i Hi)). lia. }
  split; cbn [setPolling activeCIPolling intervals nextInterval].
  - intros sessionId' interval.
    destruct (decide (sessionId = sessionId')) as [<- | Hne].
    + rewrite lookup_insert_eq. intros [= <-].
      rewrite lookup_insert_eq. eauto.
    + rewrite lookup_insert_ne by exact Hne. intros Hregistered.
      destruct (tracked_registered p Hp _ _ Hregistered) as (i & Hi & Hsession).
      exists i. split; [| exact Hsession].
      rewrite lookup_insert_ne; [exact Hi | congruence].
  - intros interval i.
    destruct (decide (nextInterval p = interval)) as [<- | Hne].
    + rewrite lookup_insert_eq. intros [= <-]. cbn.
      rewrite lookup_insert_eq. auto.
    + rewrite lookup_insert_ne by exact Hne. intros Hi.
      destruct (tracked_live p Hp _ _ Hi) as [Hregistered Hperiod].
      split; [| exact Hperiod].
      rewrite lookup_insert_ne; [exact Hregistered | congruence].
  - intros interval [i Hi].
    destruct (decide (nextInterval p = interval)) as [<- | Hne]; [lia |].
    rewrite lookup_insert_ne in Hi by exact Hne.
    pose proof (tracked_fresh p Hp _ (ex_intro _ i Hi)). lia.
Qed.

Lemma stopCIPolling_active p sessionId :
  activeCIPolling (stopCIPolling p sessionId)
  = delete sessionId (activeCIPolling p).
Proof.
  unfold stopCIPolling.
  destruct (activeCIPolling p !! sessionId) eqn:Hregistered; [reflexivity |].
  now rewrite delete_id.
Qed.

Lemma stopCIPolling_intervals p sessionId interval i :
  tracked p ->
  intervals (stopCIPolling p sessionId) !! interval = Some i
  <-> intervals p !! interval = Some i /\ i_sessionId i <> sessionId.
Proof.
  intros Hp. unfold stopCIPolling.
  destruct (activeCIPolling p !! sessionId) as [registered|] eqn:Hregistered;
    cbn [intervals].
  - destruct (decide (registered = interval)) as [-> | Hne].
    + rewrite lookup_delete_eq. split; [discriminate |]. intros [Hi Hother].
      destruct (tracked_registered p Hp _ _ Hregistered) as (i' & Hi' & ?).
      congruence.
    + rewrite lookup_delete_ne by exact Hne. split; [| tauto].
      intros Hi. split; [exact Hi |]. intros <-.
      apply (tracked_live p Hp) in Hi as [Hi _]. congruence.
  - split; [| tauto]. intros Hi. split; [exact Hi |]. intros <-.
    apply (tracked_live p Hp) in Hi as [Hi _]. congruence.
Qed.

Lemma stopCIPolling_next p sessionId :
  nextInterval (stopCIPolling p sessionId) = nextInterval p.
Proof. unfold stopCIPolling. now destruct (activeCIPolling p !! sessionId). Qed.

Lemma stopCIPolling_tracked p sessionId :
  tracked p -> tracked (stopCIPolling p sessionId).
Proof.
  intros Hp. split.
  - intros sessionId' interval. rewrite stopCIPolling_active.
    destruct (decide (sessionId = sessionId')) as [<- | Hne];
      [now rewrite lookup_delete_eq |].
    rewrite lookup_delete_ne by exact Hne. intros Hregistered.
    destruct (tracked_registered p Hp _ _ Hregistered) as (i & Hi & Hsession).
    exists i. split; [| exact Hsession].
    apply stopCIPolling_intervals; [exact Hp |]. split; congruence.
  - intros interval i Hi.
    apply stopCIPolling_intervals in Hi as [Hi Hother]; [| exact Hp].
    rewrite stopCIPolling_active, lookup_delete_ne by congruence.
    now apply (tracked_live p Hp).
  - intros interval [i Hi].
    apply stopCIPolling_intervals in Hi as [Hi _]; [| exact Hp].
    rewrite stopCIPolling_next. apply (tracked_fresh p Hp). now exists i.
Qed.

Lemma startCIPolling_tracked p prNumber sessionId :
  tracked p -> tracked (startCIPolling p prNumber sessionId).
Proof.
  intros Hp. unfold startCIPolling.
  destruct (activeCIPolling p !! sessionId) eqn:Hregistered; [exact Hp |].
  apply setPolling_tracked; auto.
Qed.

Lemma startIdleCIPolling_tracked p prNumber sessionId :
  tracked p -> tracked (startIdleCIPolling p prNumber sessionId).
Proof.
  intros Hp. unfold startIdleCIPolling.
  apply setPolling_tracked; [auto | | now apply stopCIPolling_tracked].
  rewrite stopCIPolling_active. apply lookup_delete_eq.
Qed.

Lemma stopAll_tracked sessionIds : forall p,
  tracked p -> tracked (foldl stopCIPolling p sessionIds).
Proof.
  induction sessionIds as [| sessionId sessionIds IH]; intros p Hp;
    [exact Hp |].
  cbn. apply IH. now apply stopCIPolling_tracked.
Qed.

Lemma stopAll_active sessionIds : forall p sessionId,
  activeCIPolling (foldl stopCIPolling p sessionIds) !! sessionId
  = if decide (sessionId ∈ sessionIds) then None
    else activeCIPolling p !! sessionId.
Proof.
  induction sessionIds as [| stopped sessionIds IH]; intros p sessionId.
  - cbn. destruct (decide (sessionId ∈ [])) as [Hin |]; [| reflexivity].
    now apply elem_of_nil in Hin.
  - cbn [foldl]. rewrite IH, stopCIPolling_active.
    destruct (decide (sessionId ∈ sessionIds)) as [Hin | Hout];
      destruct (decide (sessionId ∈ stopped :: sessionIds)) as [Hin' | Hout'];
      try reflexivity.
    + exfalso. apply Hout'. now right.
    + apply elem_of_cons in Hin' as [-> | Hin']; [| tauto].
      apply lookup_delete_eq.
    + apply lookup_delete_ne. intros <-. apply Hout'. left.
Qed.

Lemma stopAllPolling_tracked p : tracked p -> tracked (stopAllPolling p).
Proof. apply stopAll_tracked. Qed.

Lemma stopAllPolling_active p : activeCIPolling (stopAllPolling p) = ∅.
Proof.
  apply map_eq. intros sessionId. rewrite lookup_empty.
  unfold stopAllPolling. rewrite stopAll_active.
  destruct (decide (sessionId ∈ (map_to_list (activeCIPolling p)).*1))
    as [| Hout]; [reflexivity |].
  destruct (activeCIPolling p !! sessionId) as [interval|] eqn:Hregistered;
    [| reflexivity].
  exfalso. apply Hout. apply list_elem_of_fmap. exists (sessionId, interval).
  split; [reflexivity |]. now apply elem_of_map_to_list.
Qed.

Lemma stopAllPolling_intervals p : tracked p -> intervals (stopAllPolling p) = ∅.
Proof.
  intros Hp. apply map_eq. intros interval. rewrite lookup_empty.
  destruct (intervals (stopAllPolling p) !! interval) as [i|] eqn:Hi;
    [| reflexivity].
  apply (tracked_live _ (stopAllPolling_tracked p Hp)) in Hi as [Hi _].
  rewrite stopAllPolling_active in Hi. now rewrite lookup_empty in Hi.
Qed.

Lemma pollingStep_tracked p s : tracked p -> tracked (pollingStep p s).
Proof.
  intros Hp.
  destruct s as [overallStatus prNumber sessionId
                | overallStatus prNumber sessionId | sessionId |];
    cbn [pollingStep].
  - unfold afterPRCheck.
    destruct overallStatus; try exact Hp; now apply startCIPolling_tracked.
  - unfold afterCICheck.
    destruct overallStatus; try exact Hp;
      now apply startIdleCIPolling_tracked, stopCIPolling_tracked.
  - now apply stopCIPolling_tracked.
  - now apply stopAllPolling_tracked.
Qed.

Lemma polling_tracked steps : forall p,
  tracked p -> tracked (polling p steps).
Proof.
  induction steps as [| s steps IH]; intros p Hp; [exact Hp |].
  cbn. apply IH. now apply pollingStep_tracked.
Qed.

(** X21.  However pull-request checks, CI checks, branch changes and
    shutdowns follow one another, each session is polled by at most one
    interval, every interval that still ticks is the one registered for its
    session, and it ticks every 30 seconds or every 5 minutes.
    [stopAllPolling] leaves no session registered and no interval ticking. *)
Theorem one_interval_per_session (steps : list PollingStep) :
  let p := polling noPolling steps in
  (forall sessionId interval,
     activeCIPolling p !! sessionId = Some interval <->
     exists i, intervals p !! interval = Some i /\ i_sessionId i = sessionId)
  /\ (forall interval i,
        intervals p !! interval = Some i ->
        period i = 30000 \/ period i = 300000)
  /\ (forall interval interval' i i',
        intervals p !! interval = Some i ->
        intervals p !! interval' = Some i' ->
        i_sessionId i = i_sessionId i' -> interval = interval')
  /\ activeCIPolling (stopAllPolling p) = ∅
  /\ intervals (stopAllPolling p) = ∅.
Proof.
  cbv zeta.
  pose proof (polling_tracked steps noPolling tracked_none) as Hp.
  set (p := polling noPolling steps) in *.
  split; [| split; [| split; [| split]]].
  - intros sessionId interval. split; [apply (tracked_registered p Hp) |].
    intros (i & Hi & <-). now apply (tracked_live p Hp).
  - intros interval i Hi. now apply (tracked_live p Hp) in Hi as [_ Hperiod].
  - intros interval interval' i i' Hi Hi' Hsame.
    apply (tracked_live p Hp) in Hi as [Hi _], Hi' as [Hi' _]. congruence.
  - apply stopAllPolling_active.
  - now apply stopAllPolling_intervals.
Qed.

(** A step of [checkPRForBranch] or [checkCIStatus]. *)
Definition isCheck (s : PollingStep) : Prop :=
  match s with
  | PRChecked _ _ _ | CIChecked _ _ _ => True
  | BranchChanged _ | AllStopped => False
  end.

Definition complete (st : CIStatus) : Prop :=
  st = ci_success \/ st = ci_failure \/ st = ci_cancelled.

Lemma periodOf_setPolling every p prNumber sessionId sessionId' :
  tracked p ->
  periodOf (setPolling every p prNumber sessionId) sessionId'
  = if decide (sessionId = sessionId') then Some every
    else periodOf p sessionId'.
Proof.
  intros Hp. unfold periodOf. cbn [setPolling activeCIPolling intervals].
  destruct (decide (sessionId = sessionId')) as [<- | Hne].
  - rewrite lookup_insert_eq. cbn. now rewrite lookup_insert_eq.
  - rewrite lookup_insert_ne by exact Hne.
    destruct (activeCIPolling p !! sessionId') as [interval|] eqn:Hregistered;
      [| reflexivity].
    cbn. rewrite lookup_insert_ne; [reflexivity |]. intros <-.
    destruct (tracked_registered p Hp _ _ Hregistered) as (i & Hi & _).
    pose proof (tracked_fresh p Hp _ (ex_intro _ i Hi)). lia.
Qed.

Lemma periodOf_stopCIPolling p sessionId sessionId' :
  tracked p -> sessionId <> sessionId' ->
  periodOf (stopCIPolling p sessionId) sessionId' = periodOf p sessionId'.
Proof.
  intros Hp Hne. unfold periodOf.
  rewrite stopCIPolling_active, lookup_delete_ne by exact Hne.
  destruct (activeCIPolling p !! sessionId') as [interval|] eqn:Hregistered;
    [| reflexivity].
  cbn. destruct (tracked_registered p Hp _ _ Hregistered) as (i & Hi & Hsession).
  rewrite Hi.
  assert (Hkept : intervals (stopCIPolling p sessionId) !! interval = Some i).
  { apply stopCIPolling_intervals; [exact Hp |]. split; congruence. }
  now rewrite Hkept.
Qed.

Lemma check_keeps_idle p s sessionId :
  tracked p -> isCheck s ->
  periodOf p sessionId = Some CI_POLL_INTERVAL_IDLE ->
  periodOf (pollingStep p s) sessionId = Some CI_POLL_INTERVAL_IDLE.
Proof.
  intros Hp Hcheck Hidle.
  destruct s as [overallStatus prNumber checked
                | overallStatus prNumber checked | |];
    try destruct Hcheck; cbn [pollingStep].
  - unfold afterPRCheck, startCIPolling.
    destruct overallStatus; try exact Hidle;
      (destruct (activeCIPolling p !! checked) eqn:Hregistered;
       [exact Hidle |]);
      rewrite periodOf_setPolling by exact Hp;
      (destruct (decide (checked = sessionId)) as [-> | Hne];
       [| exact Hidle]);
      unfold periodOf in Hidle; rewrite Hregistered in Hidle; discriminate.
  - unfold afterCICheck, startIdleCIPolling.
    destruct overallStatus; try exact Hidle;
      rewrite periodOf_setPolling
        by (now apply stopCIPolling_tracked, stopCIPolling_tracked);
      (destruct (decide (checked = sessionId)) as [-> | Hne];
       [reflexivity |]);
      rewrite !periodOf_stopCIPolling
        by (try apply stopCIPolling_tracked; assumption);
      exact Hidle.
Qed.

(** X22.  Idle polling is sticky.  Once a CI check has seen the checks of a
    session's pull request complete, the session is polled every 5 minutes,
    and no later pull-request or CI check, whatever status it sees for
    whichever session, brings the 30-second polling back: [startCIPolling]
    returns at once for a session that is polled already.  Only a branch
    change or a shutdown ends the idle polling. *)
Theorem idle_polling_is_sticky
  (before later : list PollingStep)
  (overallStatus : CIStatus) (prNumber : Z) (sessionId : string) :
  complete overallStatus ->
  Forall isCheck later ->
  periodOf
    (polling noPolling
       (before ++ CIChecked overallStatus prNumber sessionId :: later))
    sessionId
  = Some 300000.
Proof.
  intros Hcomplete Hlater. unfold polling. rewrite foldl_app. cbn [foldl].
  fold (polling noPolling before).
  pose proof (polling_tracked before noPolling tracked_none) as Hp.
  set (p := polling noPolling before) in *.
  assert (Hidle :
    periodOf (pollingStep p (CIChecked overallStatus prNumber sessionId))
      sessionId = Some CI_POLL_INTERVAL_IDLE).
  { cbn [pollingStep]. unfold afterCICheck, startIdleCIPolling.
    destruct Hcomplete as [-> | [-> | ->]];
      rewrite periodOf_setPolling
        by (now apply stopCIPolling_tracked, stopCIPolling_tracked);
      now destruct (decide (sessionId = sessionId)). }
  pose proof (pollingStep_tracked p
                (CIChecked overallStatus prNumber sessionId) Hp) as Hp'.
  revert Hidle Hp'.
  generalize (pollingStep p (CIChecked overallStatus prNumber sessionId)).
  clear p Hp.
  induction Hlater as [| s later Hs Hlater IH]; intros p Hidle Hp;
    [exact Hidle |].
  cbn [foldl]. apply IH.
  - now apply check_keeps_idle.
  - now apply pollingStep_tracked.
Qed.

(** A pull request whose checks ran, completed and run again. *)
Lemma idle_polling_is_sticky_witness :
  periodOf
    (polling noPolling
       [PRChecked ci_running 7 "abc"; CIChecked ci_success 7 "abc";
        PRChecked ci_running 7 "abc"; CIChecked ci_running 7 "abc"])
    "abc"
  = Some 300000.
Proof.
  apply (idle_polling_is_sticky [PRChecked ci_running 7 "abc"]
           [PRChecked ci_running 7 "abc"; CIChecked ci_running 7 "abc"]
           ci_success 7 "abc").
  - left. reflexivity.
  - repeat constructor.
Defined.

End GitHubProps.

(** ** server.ts: the pending tool of a published session *)

Module Server.
Import Log StatusMachine Status Watcher.

(** The first block of a message with
    [block.type === "tool_use" && block.name !== "Task"], as its id and its
    name. *)
Fixpoint firstApprovalBlock (content : list ContentBlock)
  : option (string * string) :=
  match content with
  | [] => None
  | ToolUseBlock id name :: content =>
      if String.eqb name "Task" then firstApprovalBlock content
      else Some (id, name)
  | _ :: content => firstApprovalBlock content
  end.

(** The loop [for (let i = entries.length - 1; i >= 0; i--)], on the entries
    listed latest first. *)
Fixpoint scanBack (latestFirst : list LogEntry) : option (string * string) :=
  match latestFirst with
  | [] => None
  | AssistantEntry _ content :: earlier =>
      match firstApprovalBlock content with
      | Some block => Some block
      | None => scanBack earlier
      end
  | _ :: earlier => scanBack earlier
  end.

(** [extractPendingTool(session)]: the block it settles on, as the block's id
    and the [tool] it returns.  The [target], which it cuts out of the
    block's [input], is left out: [Log.ContentBlock] does not carry the
    input. *)
Definition extractPendingTool (session : SessionState)
  : option (string * string) :=
  if negb (r_hasPendingToolUse (Watcher.status session)) then None
  else scanBack (rev (Watcher.entries session)).

End Server.

Module ServerProps.
Import Log StatusMachine Status Watcher StatusProps MachineFacts Server.

Lemma firstApprovalBlock_In content id name :
  firstApprovalBlock content = Some (id, name) ->
  In (ToolUseBlock id name) content /\ name <> "Task".
Proof.
  induction content as [| block content IH]; [discriminate |].
  destruct block as [text | id' name' | id' |]; cbn;
    try (intros H; destruct (IH H); auto).
  destruct (String.eqb name' "Task") eqn:Hname.
  - intros H. destruct (IH H). auto.
  - intros [= <- <-]. apply String.eqb_neq in Hname. auto.
Qed.

Lemma firstApprovalBlock_found content id name :
  In (ToolUseBlock id name) content -> name <> "Task" ->
  is_Some (firstApprovalBlock content).
Proof.
  intros Hin Hname.
  induction content as [| block content IH]; [destruct Hin |].
  destruct Hin as [-> | Hin].
  - cbn. apply String.eqb_neq in Hname. rewrite Hname. eauto.
  - destruct block as [text | id' name' | id' |]; cbn; auto.
    destruct (String.eqb name' "Task"); eauto.
Qed.

Lemma scanBack_In latestFirst id name :
  scanBack latestFirst = Some (id, name) ->
  exists ts content,
    In (AssistantEntry ts content) latestFirst
    /\ In (ToolUseBlock id name) content /\ name <> "Task".
Proof.
  induction latestFirst as [| entry earlier IH]; [discriminate |].
  destruct entry as [ts content | ts content | ts subtype |]; cbn;
    try (intros H; destruct (IH H) as (ts' & content' & ? & ?); eauto 6).
  destruct (firstApprovalBlock content) as [[id' name'] |] eqn:Hfirst.
  - intros [= -> ->]. apply firstApprovalBlock_In in Hfirst. eauto 6.
  - intros H. destruct (IH H) as (ts' & content' & ? & ?). eauto 6.
Qed.

Lemma scanBack_found latestFirst ts content id name :
  In (AssistantEntry ts content) latestFirst ->
  In (ToolUseBlock id name) content -> name <> "Task" ->
  is_Some (scanBack latestFirst).
Proof.
  intros Hentry Hblock Hname.
  induction latestFirst as [| entry earlier IH]; [destruct Hentry |].
  destruct Hentry as [-> | Hentry].
  - cbn. destruct (firstApprovalBlock_found content id name Hblock Hname)
      as [block ->]. eauto.
  - destruct entry as [ts' content' | ts' content' | ts' subtype |]; cbn; auto.
    destruct (firstApprovalBlock content'); eauto.
Qed.

Lemma scanBack_latest earlier ts content block :
  firstApprovalBlock content = Some block ->
  scanBack (rev (earlier ++ [AssistantEntry ts content])) = Some block.
Proof. intros Hfirst. rewrite rev_app_distr. cbn. now rewrite Hfirst. Qed.

Section Derived.
Context {parser : DateParser}.

Lemma deriveStatus_flag entries now :
  r_hasPendingToolUse (deriveStatus entries now)
  = hasPendingToolUse (context (replay createActor entries)).
Proof.
  unfold deriveStatus, deriveStatusFromMachine, deriveActor. cbn.
  now rewrite applyTimeouts_context.
Qed.

(** X23.  A session whose status is the one derived from its entries and
    says that a tool use is pending is published with a pending tool:
    [extractPendingTool] finds a block, and it is a tool-use block of an
    assistant record of the session's log that is not a sub-agent spawn. *)
Theorem pending_flag_names_a_tool (s : SessionState) (now : Z) :
  Watcher.status s = deriveStatus (Watcher.entries s) now ->
  r_hasPendingToolUse (Watcher.status s) = true ->
  exists id name,
    extractPendingTool s = Some (id, name)
    /\ name <> "Task"
    /\ exists ts content,
         In (AssistantEntry ts content) (Watcher.entries s)
         /\ In (ToolUseBlock id name) content.
Proof.
  intros Hderived Hflag. unfold extractPendingTool. rewrite Hflag. cbn [negb].
  rewrite Hderived, deriveStatus_flag in Hflag.
  pose proof (replay_consistent (Watcher.entries s) createActor
                initial_consistent) as Hconsistent.
  apply Hconsistent in Hflag.
  destruct (pendingToolIds (context (replay createActor (Watcher.entries s))))
    as [| pendingId ids] eqn:Hids; [congruence |].
  destruct (pending_replay (Watcher.entries s) createActor pendingId)
    as [[] | (ts & content & name & Hentry & Hblock & Hname)];
    [rewrite Hids; now left |].
  destruct (scanBack_found (rev (Watcher.entries s)) ts content pendingId name)
    as [[id' name'] Hfound]; [now apply in_rev in Hentry | assumption.. |].
  exists id', name'. split; [exact Hfound |].
  apply scanBack_In in Hfound
    as (ts' & content' & Hentry' & Hblock' & Hname').
  split; [exact Hname' |]. exists ts', content'.
  split; [now apply in_rev | exact Hblock'].
Qed.

(** X24.  The tool that is published need not be one that is pending.  When
    an assistant record asks for two tools while the machine is working and a
    tool result then answers the first, the machine waits for the second
    alone, but [extractPendingTool] settles on the first block of that
    record: the tool that has completed. *)
Theorem published_tool_may_be_completed
  (earlier : list LogEntry) (ts ts' : string)
  (answered asked : string) (tool tool' : string) (s : SessionState) (now : Z) :
  let log :=
    earlier
    ++ [AssistantEntry ts
          [ToolUseBlock answered tool; ToolUseBlock asked tool'];
        UserEntry ts' (ContentBlocks [ToolResultBlock answered])] in
  value (replay createActor earlier) = working ->
  tool <> "Task" -> tool' <> "Task" -> answered <> asked ->
  Watcher.entries s = log ->
  Watcher.status s = deriveStatus log now ->
  pendingToolIds (context (replay createActor log)) = [asked]
  /\ r_hasPendingToolUse (Watcher.status s) = true
  /\ extractPendingTool s = Some (answered, tool).
Proof.
  cbv zeta. intros Hworking Htool Htool' Hids Hentries Hstatus.
  apply String.eqb_neq in Htool, Htool', Hids.
  assert (Hreplay :
    context
      (replay createActor
         (earlier
          ++ [AssistantEntry ts
                [ToolUseBlock answered tool; ToolUseBlock asked tool'];
              UserEntry ts' (ContentBlocks [ToolResultBlock answered])]))
    = {| lastActivityAt := ts';
         messageCount :=
           messageCount (context (replay createActor earlier)) + 1 + 1;
         hasPendingToolUse := true;
         pendingToolIds := [asked] |}).
  { assert (Hasked :
      logEntryToEvent
        (AssistantEntry ts
           [ToolUseBlock answered tool; ToolUseBlock asked tool'])
      = Some (ASSISTANT_TOOL_USE ts [answered; asked])).
    { cbn. now rewrite Htool, Htool'. }
    rewrite replay_app, !replay_cons. unfold feed at 2. rewrite Hasked.
    unfold feed. cbn [logEntryToEvent List.filter is_tool_result map
                        tool_result_id List.length replay fold_left].
    change (0 <? Z.of_nat 1) with true. cbn match.
    rewrite context_send, value_send, context_send, Hworking.
    cbn [transition fst snd toolUse toolResult pendingToolIds messageCount
           List.filter includes existsb].
    unfold toolResult, toolUse.
    cbn [pendingToolIds messageCount List.filter includes existsb].
    rewrite String.eqb_refl, String.eqb_sym, Hids. reflexivity. }
  split; [now rewrite Hreplay |].
  split; [now rewrite Hstatus, deriveStatus_flag, Hreplay |].
  unfold extractPendingTool.
  rewrite Hstatus, deriveStatus_flag, Hreplay, Hentries. cbn [negb hasPendingToolUse].
  rewrite rev_app_distr. cbn. now rewrite Htool.
Qed.

End Derived.

(** Two edits asked for at once, the first answered. *)
Definition twoEdits : list LogEntry :=
  scenarioB
  ++ [AssistantEntry t1
        [ToolUseBlock "toolu_01" "Edit"; ToolUseBlock "toolu_02" "Edit"];
      UserEntry t2 (ContentBlocks [ToolResultBlock "toolu_01"])].

Definition twoEditsSession : SessionState :=
  {| sessionId := "abc"; filepath := "/home/dev/.claude/projects/app/abc.jsonl";
     encodedDir := "app"; cwd := "/home/dev/app"; gitBranch := None;
     originalPrompt := "fix the bug"; startedAt := t0;
     status := deriveStatus (parser := IsoDate.isoParser) twoEdits
                 (t0_ms + 4000);
     entries := twoEdits; bytePosition := 600;
     gitRepoUrl := None; gitRepoId := None; branchChanged := None;
     pendingPermission := None |}.

Lemma pending_flag_names_a_tool_witness :
  exists id name,
    extractPendingTool twoEditsSession = Some (id, name)
    /\ name <> "Task"
    /\ exists ts content,
         In (AssistantEntry ts content) (Watcher.entries twoEditsSession)
         /\ In (ToolUseBlock id name) content.
Proof.
  apply (pending_flag_names_a_tool (parser := IsoDate.isoParser)
           twoEditsSession (t0_ms + 4000));
    [reflexivity | vm_compute; reflexivity].
Defined.

Lemma published_tool_may_be_completed_witness :
  pendingToolIds (context (replay createActor twoEdits)) = ["toolu_02"]
  /\ r_hasPendingToolUse (Watcher.status twoEditsSession) = true
  /\ extractPendingTool twoEditsSession = Some ("toolu_01", "Edit").
Proof.
  apply (published_tool_may_be_completed (parser := IsoDate.isoParser)
           scenarioB t1 t2 "toolu_01" "toolu_02" "Edit" "Edit"
           twoEditsSession (t0_ms + 4000));
    [reflexivity | discriminate | discriminate | discriminate
    | reflexivity | reflexivity].
Defined.

End ServerProps.

(** ** RepoSection.tsx and cli.ts: where a session is shown *)

Module Board.
Import StatusMachine Status.

(** The fields of the published [Session] that the board reads, as
    [publishSession] of server.ts fills them. *)
Record Session : Type := mkSession {
  sessionId : string;
  status : SessionStatus;
  lastActivityAt : string;
  messageCount : Z;
  hasPendingToolUse : bool
}.

Definition publishedSession (sessionState : Watcher.SessionState) : Session :=
  {| sessionId := Watcher.sessionId sessionState;
     status := StatusMachine.status (Watcher.status sessionState);
     lastActivityAt := r_lastActivityAt (Watcher.status sessionState);
     messageCount := r_messageCount (Watcher.status sessionState);
     hasPendingToolUse := r_hasPendingToolUse (Watcher.status sessionState) |}.

Section Clock.
Context {parser : DateParser}.

(** RepoSection.tsx *)
Definition IDLE_TIMEOUT_MS : Z := 60 * 60 * 1000.

(** [getEffectiveStatus(session)] when [Date.now()] answers [now]; an
    unparsable [lastActivityAt] makes [elapsed] NaN, and the comparison
    false. *)
Definition getEffectiveStatus (now : Z) (session : Session) : SessionStatus :=
  match Date_getTime (lastActivityAt session) with
  | Some t => if IDLE_TIMEOUT_MS <? now - t then st_idle else status session
  | None => status session
  end.

Inductive Column : Type := Working | NeedsApproval | Waiting | Idle.

(** The predicates of the four [sessions.filter] calls of [RepoSection]. *)
Definition inColumn (column : Column) (now : Z) (s : Session) : bool :=
  match column with
  | Working => status_eqb (getEffectiveStatus now s) st_working
  | NeedsApproval =>
      status_eqb (getEffectiveStatus now s) st_waiting && hasPendingToolUse s
  | Waiting =>
      status_eqb (getEffectiveStatus now s) st_waiting
      && negb (hasPendingToolUse s)
  | Idle => status_eqb (getEffectiveStatus now s) st_idle
  end.

(** One of the four filters; [clock column i] is what [Date.now()] answers
    when the filter of [column] looks at the session at index [i]. *)
Fixpoint columnFrom (column : Column) (clock : Column -> nat -> Z) (i : nat)
  (sessions : list Session) : list Session :=
  match sessions with
  | [] => []
  | s :: sessions =>
      if inColumn column (clock column i) s
      then s :: columnFrom column clock (S i) sessions
      else columnFrom column clock (S i) sessions
  end.

Definition column (c : Column) (clock : Column -> nat -> Z)
  (sessions : list Session) : list Session :=
  columnFrom c clock 0 sessions.

(** cli.ts *)
Definition IDLE_THRESHOLD_MS : Z := 60 * 60 * 1000.
Definition RECENT_THRESHOLD_MS : Z := 60 * 60 * 1000.

Definition isSessionIdle (now : Z) (session : Watcher.SessionState) : bool :=
  match Date_getTime (r_lastActivityAt (Watcher.status session)) with
  | Some t => IDLE_THRESHOLD_MS <? now - t
  | None => false
  end.

(** [shouldShowSession(session)] under the flags [--active] and [--recent];
    [now] and [later] are the two readings of the clock. *)
Definition shouldShowSession (showOnlyActive showOnlyRecent : bool)
  (now later : Z) (session : Watcher.SessionState) : bool :=
  if showOnlyActive && isSessionIdle now session then false
  else if showOnlyRecent
          && match Date_getTime (r_lastActivityAt (Watcher.status session)) with
             | Some lastActivity => RECENT_THRESHOLD_MS <? later - lastActivity
             | None => false
             end
  then false
  else true.

End Clock.

End Board.

Module BoardProps.
Import StatusMachine Status Board.

Section Clock.
Context {parser : DateParser}.

Definition columnCount (clock : Column -> nat -> Z) (i : nat)
  (sessions : list Session) : nat :=
  (List.length (columnFrom Working clock i sessions)
   + List.length (columnFrom NeedsApproval clock i sessions)
   + List.length (columnFrom Waiting clock i sessions)
   + List.length (columnFrom Idle clock i sessions))%nat.

Lemma columnFrom_In c clock sessions : forall i s,
  In s (columnFrom c clock i sessions) ->
  exists k, nth_error sessions k = Some s
            /\ inColumn c (clock c (i + k)%nat) s = true.
Proof.
  induction sessions as [| s' sessions IH]; intros i s; [intros [] |].
  cbn [columnFrom].
  destruct (inColumn c (clock c i) s') eqn:Hkept.
  - intros [<- | Hin].
    + exists 0%nat. now rewrite Nat.add_0_r.
    + destruct (IH _ _ Hin) as (k & Hk & Hcolumn). exists (S k).
      split; [exact Hk |]. now rewrite Nat.add_succ_r.
  - intros Hin. destruct (IH _ _ Hin) as (k & Hk & Hcolumn). exists (S k).
    split; [exact Hk |]. now rewrite Nat.add_succ_r.
Qed.

Lemma columnFrom_later c clock s s' sessions i :
  In s (columnFrom c clock (S i) sessions) ->
  In s (columnFrom c clock i (s' :: sessions)).
Proof.
  intros Hin. cbn [columnFrom].
  destruct (inColumn c (clock c i) s'); [now right | exact Hin].
Qed.

(** At one reading of the clock a session passes exactly one filter. *)
Lemma one_column_at_one_reading now s :
  exists c, inColumn c now s = true
            /\ forall c', inColumn c' now s = true -> c' = c.
Proof.
  unfold inColumn.
  destruct (getEffectiveStatus now s), (hasPendingToolUse s); cbn.
  - exists Working. split; [reflexivity |]. now intros [].
  - exists Working. split; [reflexivity |]. now intros [].
  - exists NeedsApproval. split; [reflexivity |]. now intros [].
  - exists Waiting. split; [reflexivity |]. now intros [].
  - exists Idle. split; [reflexivity |]. now intros [].
  - exists Idle. split; [reflexivity |]. now intros [].
Qed.

(** With readings that do not go back a session passes some filter. *)
Lemma some_column_at_later_readings tW tN tT tI s :
  tW <= tN -> tN <= tT -> tT <= tI ->
  inColumn Working tW s = true \/ inColumn NeedsApproval tN s = true
  \/ inColumn Waiting tT s = true \/ inColumn Idle tI s = true.
Proof.
  intros HWN HNT HTI. unfold inColumn, getEffectiveStatus.
  destruct (Date_getTime (lastActivityAt s)) as [t |].
  - destruct (Z.ltb_spec IDLE_TIMEOUT_MS (tI - t)); [auto |].
    destruct (Z.ltb_spec IDLE_TIMEOUT_MS (tW - t)); [lia |].
    destruct (Z.ltb_spec IDLE_TIMEOUT_MS (tN - t)); [lia |].
    destruct (Z.ltb_spec IDLE_TIMEOUT_MS (tT - t)); [lia |].
    destruct (status s), (hasPendingToolUse s); cbn; auto.
  - destruct (status s), (hasPendingToolUse s); cbn; auto.
Qed.

(** X25.  At a single reading of the clock the four columns of a repository
    partition its sessions: every session is in one column, no session is in
    two, and the sizes of the columns add up to the number of sessions. *)
Theorem columns_partition_the_sessions (now : Z) (sessions : list Session) :
  let shown c := column c (fun _ _ => now) sessions in
  (forall s, In s sessions -> exists c, In s (shown c))
  /\ (forall s c c', In s (shown c) -> In s (shown c') -> c = c')
  /\ (List.length (shown Working) + List.length (shown NeedsApproval)
      + List.length (shown Waiting) + List.length (shown Idle)
      = List.length sessions)%nat.
Proof.
  cbv zeta. unfold column. generalize 0%nat. intros n.
  split; [| split]; revert n.
  - induction sessions as [| s' sessions IH]; intros i s; [intros [] |].
    intros [<- | Hin].
    + destruct (one_column_at_one_reading now s') as (c & Hc & _).
      exists c. cbn [columnFrom]. rewrite Hc. now left.
    + destruct (IH (S i) s Hin) as (c & Hc). exists c.
      now apply columnFrom_later.
  - intros i s c c' Hc Hc'.
    apply columnFrom_In in Hc as (? & _ & Hc), Hc' as (? & _ & Hc').
    destruct (one_column_at_one_reading now s) as (c0 & _ & Hunique).
    rewrite (Hunique c Hc), (Hunique c' Hc'). reflexivity.
  - induction sessions as [| s sessions IH]; intros i; [reflexivity |].
    cbn [columnFrom List.length]. rewrite <- (IH (S i)).
    unfold inColumn.
    destruct (getEffectiveStatus now s), (hasPendingToolUse s);
      cbn [status_eqb andb negb List.length]; lia.
Qed.

(** X26.  The four filters read the clock one after the other.  Whatever
    they read, as long as the readings for a session do not go back, no
    session leaves the board: each is in at least one column, so the columns
    together hold at least as many entries as there are sessions. *)
Theorem board_loses_no_session
  (clock : Column -> nat -> Z) (sessions : list Session) :
  (forall i, clock Working i <= clock NeedsApproval i
             /\ clock NeedsApproval i <= clock Waiting i
             /\ clock Waiting i <= clock Idle i) ->
  (forall s, In s sessions -> exists c, In s (column c clock sessions))
  /\ (List.length sessions
      <= List.length (column Working clock sessions)
         + List.length (column NeedsApproval clock sessions)
         + List.length (column Waiting clock sessions)
         + List.length (column Idle clock sessions))%nat.
Proof.
  intros Hclock. unfold column. generalize 0%nat. intros n. split.
  - revert n. induction sessions as [| s' sessions IH]; intros i s;
      [intros [] |].
    intros [<- | Hin].
    + destruct (Hclock i) as (HWN & HNT & HTI).
      destruct (some_column_at_later_readings _ _ _ _ s' HWN HNT HTI)
        as [Hc | [Hc | [Hc | Hc]]];
        [exists Working | exists NeedsApproval | exists Waiting | exists Idle];
        cbn [columnFrom]; rewrite Hc; now left.
    + destruct (IH (S i) s Hin) as (c & Hc). exists c.
      now apply columnFrom_later.
  - revert n. induction sessions as [| s sessions IH]; intros i; [cbn; lia |].
    specialize (IH (S i)). cbn [columnFrom List.length].
    destruct (Hclock i) as (HWN & HNT & HTI).
    destruct (some_column_at_later_readings _ _ _ _ s HWN HNT HTI)
      as [Hc | [Hc | [Hc | Hc]]]; rewrite Hc;
      repeat match goal with
             | |- context [if ?b then _ else _] => destruct b
             end;
      cbn [List.length]; lia.
Qed.

(** X27.  The filters of the command line and the Idle column of the board
    use the same hour.  A session that [--active] hides is in the Idle
    column at the same reading of the clock; the Idle column holds, besides
    those, the sessions whose status is idle already, which [--active]
    shows.  At one reading [--recent] hides the same sessions as [--active],
    and a session whose [lastActivityAt] cannot be parsed is never hidden. *)
Theorem active_filter_and_idle_column
  (now : Z) (sessionState : Watcher.SessionState) (active recent : bool) :
  inColumn Idle now (publishedSession sessionState)
  = isSessionIdle now sessionState
    || status_eqb (StatusMachine.status (Watcher.status sessionState)) st_idle
  /\ shouldShowSession active recent now now sessionState
     = negb ((active || recent) && isSessionIdle now sessionState)
  /\ (Date_getTime (r_lastActivityAt (Watcher.status sessionState)) = None ->
      forall later,
        shouldShowSession active recent now later sessionState = true).
Proof.
  unfold inColumn, getEffectiveStatus, shouldShowSession, isSessionIdle.
  cbn [publishedSession lastActivityAt status].
  destruct (Date_getTime (r_lastActivityAt (Watcher.status sessionState)))
    as [t |].
  - change RECENT_THRESHOLD_MS with IDLE_THRESHOLD_MS.
    change IDLE_TIMEOUT_MS with IDLE_THRESHOLD_MS.
    destruct (IDLE_THRESHOLD_MS <? now - t), active, recent;
      destruct (StatusMachine.status (Watcher.status sessionState));
      cbn; repeat split; discriminate.
  - destruct active, recent;
      destruct (StatusMachine.status (Watcher.status sessionState));
      cbn; repeat split; reflexivity.
Qed.

End Clock.

(** Two sessions while the hour passes between the first and the last
    filter. *)
Definition olderSession : Session :=
  {| sessionId := "abc"; status := st_working;
     lastActivityAt := StatusProps.t0; messageCount := 2;
     hasPendingToolUse := false |}.

Definition newerSession : Session :=
  {| sessionId := "def"; status := st_waiting;
     lastActivityAt := StatusProps.t1; messageCount := 4;
     hasPendingToolUse := true |}.

Definition readings (c : Column) (i : nat) : Z :=
  match c with
  | Working => StatusProps.t0_ms + 3600000
  | NeedsApproval => StatusProps.t0_ms + 3600000
  | Waiting => StatusProps.t0_ms + 3600001
  | Idle => StatusProps.t0_ms + 3600001
  end.

Lemma board_loses_no_session_witness :
  (forall s, In s [olderSession; newerSession] ->
             exists c, In s (column (parser := IsoDate.isoParser) c readings
                               [olderSession; newerSession]))
  /\ (2 <= List.length
             (column (parser := IsoDate.isoParser) Working readings
                [olderSession; newerSession])
           + List.length
               (column (parser := IsoDate.isoParser) NeedsApproval readings
                  [olderSession; newerSession])
           + List.length
               (column (parser := IsoDate.isoParser) Waiting readings
                  [olderSession; newerSession])
           + List.length
               (column (parser := IsoDate.isoParser) Idle readings
                  [olderSession; newerSession]))%nat.
Proof.
  apply (board_loses_no_session (parser := IsoDate.isoParser) readings
           [olderSession; newerSession]).
  intros i. unfold readings. lia.
Defined.

(** The older session is in two columns then. *)
Example session_shown_twice :
  In olderSession
    (column (parser := IsoDate.isoParser) Working readings
       [olderSession; newerSession])
  /\ In olderSession
       (column (parser := IsoDate.isoParser) Idle readings
          [olderSession; newerSession]).
Proof. split; vm_compute; now left. Qed.

End BoardProps.

(** ** scripts/hooks: the signal files *)

Module Hooks.

Inductive Signal : Type := Working | Permission | Stop | Ended.

Definition signal_eqb (a b : Signal) : bool :=
  match a, b with
  | Working, Working | Permission, Permission | Stop, Stop | Ended, Ended =>
      true
  | _, _ => false
  end.

(** The directory [~/.claude/session-signals]: whether the file
    [<sessionId>.<signal>.json] exists. *)
Definition Directory : Type := string -> Signal -> bool.

Definition noSignals : Directory := fun _ _ => false.

(** [fs.writeFileSync(file, ...)] *)
Definition writeFile (d : Directory) (sessionId : string) (signal : Signal)
  : Directory :=
  fun sessionId' signal' =>
    if String.eqb sessionId sessionId' && signal_eqb signal signal' then true
    else d sessionId' signal'.

(** [if (fs.existsSync(file)) fs.unlinkSync(file)], and [rm -f file]. *)
Definition removeFile (d : Directory) (sessionId : string) (signal : Signal)
  : Directory :=
  fun sessionId' signal' =>
    if String.eqb sessionId sessionId' && signal_eqb signal signal' then false
    else d sessionId' signal'.

(** What a hook reads on its standard input: [session_id] when the input
    parses and has one, [None] otherwise. *)
Definition Input : Type := option string.

(** The body under [if (sessionId)], skipped for a missing or empty id. *)
Definition withSession (input : Input) (d : Directory)
  (body : string -> Directory) : Directory :=
  match input with
  | Some sessionId => if String.eqb sessionId "" then d else body sessionId
  | None => d
  end.

(** user-prompt-submit *)
Definition userPromptSubmit (d : Directory) (input : Input) : Directory :=
  withSession input d (fun sessionId =>
    removeFile (writeFile d sessionId Working) sessionId Stop).

(** permission-request *)
Definition permissionRequest (d : Directory) (input : Input) : Directory :=
  withSession input d (fun sessionId => writeFile d sessionId Permission).

(** stop *)
Definition stop (d : Directory) (input : Input) : Directory :=
  withSession input d (fun sessionId =>
    removeFile
      (removeFile (writeFile d sessionId Stop) sessionId Working)
      sessionId Permission).

(** session-end *)
Definition sessionEnd (d : Directory) (input : Input) : Directory :=
  withSession input d (fun sessionId =>
    removeFile
      (removeFile (writeFile d sessionId Ended) sessionId Permission)
      sessionId Stop).

Inductive Hook : Type := UserPromptSubmit | PermissionRequest | StopHook | SessionEnd.

Definition runHook (d : Directory) (h : Hook * Input) : Directory :=
  match h.1 with
  | UserPromptSubmit => userPromptSubmit d h.2
  | PermissionRequest => permissionRequest d h.2
  | StopHook => stop d h.2
  | SessionEnd => sessionEnd d h.2
  end.

Definition runHooks (d : Directory) (hooks : list (Hook * Input)) : Directory :=
  foldl runHook d hooks.

(** The working and the stop signal of a session are not both there. *)
Definition exclusive (d : Directory) : Prop :=
  forall sessionId, d sessionId Working && d sessionId Stop = false.

Lemma runHook_exclusive d h : exclusive d -> exclusive (runHook d h).
Proof.
  intros Hd sessionId. specialize (Hd sessionId).
  destruct h as [[] [hooked |]]; cbn; try exact Hd;
    (destruct (String.eqb hooked "") eqn:Hempty; [exact Hd |]);
    unfold removeFile, writeFile;
    destruct (String.eqb hooked sessionId); cbn;
    rewrite ?andb_false_r; try reflexivity; exact Hd.
Qed.

Lemma runHooks_exclusive hooks : forall d,
  exclusive d -> exclusive (runHooks d hooks).
Proof.
  induction hooks as [| h hooks IH]; intros d Hd; [exact Hd |].
  cbn. apply IH. now apply runHook_exclusive.
Qed.

(** X28.  However the hooks of however many sessions follow one another on
    an empty signal directory, no session has both its working and its stop
    signal.  A hook that gets no session id leaves the directory alone.  The
    stop hook leaves the session with its stop signal and neither working nor
    permission signal; the session-end hook leaves the ended signal and
    neither permission nor stop signal - and the working signal as it was.
    No hook touches the signals of another session. *)
Theorem working_and_stop_exclude_each_other
  (hooks : list (Hook * Input)) (sessionId : string) :
  let d := runHooks noSignals hooks in
  (d sessionId Working = true -> d sessionId Stop = false)
  /\ (forall hook, runHook d (hook, None) = d
                   /\ runHook d (hook, Some "") = d)
  /\ (sessionId <> "" ->
      forall d0,
        (stop d0 (Some sessionId) sessionId Stop = true
         /\ stop d0 (Some sessionId) sessionId Working = false
         /\ stop d0 (Some sessionId) sessionId Permission = false)
        /\ (sessionEnd d0 (Some sessionId) sessionId Ended = true
            /\ sessionEnd d0 (Some sessionId) sessionId Permission = false
            /\ sessionEnd d0 (Some sessionId) sessionId Stop = false
            /\ sessionEnd d0 (Some sessionId) sessionId Working
               = d0 sessionId Working)
        /\ forall hook other signal,
             other <> sessionId ->
             runHook d0 (hook, Some sessionId) other signal = d0 other signal).
Proof.
  cbv zeta. split; [| split].
  - pose proof (runHooks_exclusive hooks noSignals (fun _ => eq_refl)
                  sessionId) as Hd.
    intros Hworking. now rewrite Hworking in Hd.
  - intros []; split; reflexivity.
  - intros Hid d0. apply String.eqb_neq in Hid.
    unfold stop, sessionEnd, withSession, removeFile, writeFile.
    rewrite Hid, String.eqb_refl. cbn. repeat split.
    intros hook other signal Hother. apply not_eq_sym in Hother.
    apply String.eqb_neq in Hother.
    destruct hook; cbn; rewrite Hid; unfold removeFile, writeFile;
      now rewrite Hother.
Qed.

End Hooks.
